(** * Talk Essence: the audio-to-insight pipeline

    A shallow embedding of the route handler [POST] of the processing
    endpoint (src/unnamed/part_001) and of the helpers it drives
    ([transcribeSingleFile], [transcribeLargeAudio],
    [splitTranscriptIntoChunks], [summarizeTranscript]), then of the code
    around it (the conversion endpoint, the page and the dialog of the API
    key), followed by the properties of the pipeline and of that code.

    Conventions of the embedding.
    - A JavaScript string is the list of its UTF-16 code units, so that
      [length] is [String.prototype.length] and the order of the default
      [Array.prototype.sort] is the lexicographic order of the lists.
    - JavaScript numbers are modelled by the rationals they stand for
      ([Q]) where the source divides, and by [Z] or [nat] where it counts;
      [Math.floor] is [Qfloor].  The arithmetic of the progress reports of
      the transcription is rounded as binary64 arithmetic is ([double]);
      the sum of the heartbeat is exact.
    - The outside world (ffprobe, ffmpeg, the file system, the speech-to-text
      and text-generation providers, the page resolver, the timer and
      [Math.random]) is a record [env] of answers; the code is a function
      of it.
    - Effects are threaded by a state-and-exception monad [M] whose state
      holds the trace of observable effects.  Every value thrown is an
      [Error] instance.
    - The caller keeps reading the stream: [controller.enqueue] and
      [controller.close] do not throw. *)

From Stdlib Require Import Ascii String DecimalString.
From Stdlib Require Import List Arith ZArith NArith QArith Qround Lia Lqa.
From Stdlib Require Import Bool.
From Stdlib Require Import Permutation Sorted.

#[global] Set Warnings "-abstract-large-number".
Close Scope Q_scope.
Import ListNotations.

Set Implicit Arguments.

(** ** JavaScript strings *)

Module JS.

Definition jsstring := list N.

(** An ASCII literal of the source. *)
Fixpoint lit (s : string) : jsstring :=
  match s with
  | EmptyString => []
  | String c r => N_of_ascii c :: lit r
  end.
Arguments lit s%_string.

Definition eqb (a b : jsstring) : bool :=
  if list_eq_dec N.eq_dec a b then true else false.

(** A string is truthy when it is not empty. *)
Definition truthy (s : jsstring) : bool :=
  match s with [] => false | _ :: _ => true end.

(** [a || b] on strings. *)
Definition or_else (a b : jsstring) : jsstring :=
  if truthy a then a else b.

Fixpoint startsWith (s p : jsstring) : bool :=
  match p, s with
  | [], _ => true
  | _ :: _, [] => false
  | x :: p', y :: s' => N.eqb x y && startsWith s' p'
  end.

(** [s.includes(p)]. *)
Fixpoint includes (s p : jsstring) : bool :=
  startsWith s p ||
  match s with
  | [] => false
  | _ :: s' => includes s' p
  end.

(** [s] without the prefix [p], when it starts with it. *)
Fixpoint strip_prefix (s p : jsstring) : option jsstring :=
  match p, s with
  | [], _ => Some s
  | _ :: _, [] => None
  | x :: p', y :: s' => if N.eqb x y then strip_prefix s' p' else None
  end.

Fixpoint takeWhile (f : N -> bool) (s : jsstring) : jsstring :=
  match s with
  | [] => []
  | c :: s' => if f c then c :: takeWhile f s' else []
  end.

Fixpoint dropWhile (f : N -> bool) (s : jsstring) : jsstring :=
  match s with
  | [] => []
  | c :: s' => if f c then dropWhile f s' else s
  end.

(** White space and line terminators of ECMAScript, the characters
    [String.prototype.trim] strips. *)
Definition is_whitespace (c : N) : bool :=
  ((9 <=? c) && (c <=? 13) || (c =? 32) || (c =? 160) || (c =? 5760)
   || (8192 <=? c) && (c <=? 8202) || (c =? 8232) || (c =? 8233)
   || (c =? 8239) || (c =? 8287) || (c =? 12288) || (c =? 65279))%N.

(** The string read backwards. *)
Definition reverse (s : jsstring) : jsstring := rev_append s [].

Definition trimStart (s : jsstring) : jsstring := dropWhile is_whitespace s.
Definition trimEnd (s : jsstring) : jsstring :=
  reverse (dropWhile is_whitespace (reverse s)).
Definition trim (s : jsstring) : jsstring := trimEnd (trimStart s).

(** Decimal rendering of a natural number, as template literals do. *)
Definition decimal (n : nat) : jsstring :=
  lit (NilZero.string_of_uint (Nat.to_uint n)).

(** Comparison of code-unit sequences, the order of the default sort. *)
Fixpoint compare (a b : jsstring) : comparison :=
  match a, b with
  | [], [] => Eq
  | [], _ :: _ => Lt
  | _ :: _, [] => Gt
  | x :: a', y :: b' =>
      match N.compare x y with
      | Eq => compare a' b'
      | c => c
      end
  end.

Definition leb (a b : jsstring) : bool :=
  match compare a b with Gt => false | _ => true end.

Definition ltb (a b : jsstring) : bool :=
  match compare a b with Lt => true | _ => false end.

(** [arr.sort()] with the default comparator: a stable sort by [compare]. *)
Fixpoint insert (x : jsstring) (l : list jsstring) : list jsstring :=
  match l with
  | [] => [x]
  | y :: l' => if leb x y then x :: l else y :: insert x l'
  end.

Definition sort (l : list jsstring) : list jsstring :=
  fold_right insert [] l.

(** [arr.join(sep)]. *)
Fixpoint join (sep : jsstring) (l : list jsstring) : jsstring :=
  match l with
  | [] => []
  | [x] => x
  | x :: l' => x ++ sep ++ join sep l'
  end.

End JS.

Import JS.

(** ** splitTranscriptIntoChunks (part_001, lines 235-264) *)

(** The characters of the class [[。！？\n]]. *)
Definition is_sentence_end (c : N) : bool :=
  ((c =? 12290) || (c =? 65281) || (c =? 65311) || (c =? 10))%N.

(** [transcript.split(/([。！？\n]+)/)]: the text between the maximal runs of
    sentence-ending characters and, because of the capture group, the runs
    themselves, in order.  [cur] is the piece being read, reversed, and
    [in_run] tells whether it is a run of sentence-ending characters.  A
    string that ends with a run yields a last empty piece, one that starts
    with a run a first empty piece. *)
Fixpoint split_go (s : jsstring) (cur : jsstring) (in_run : bool)
  : list jsstring :=
  match s with
  | [] => if in_run then [reverse cur; []] else [reverse cur]
  | c :: s' =>
      if is_sentence_end c then
        if in_run then split_go s' (c :: cur) true
        else reverse cur :: split_go s' [c] true
      else
        if in_run then reverse cur :: split_go s' [c] false
        else split_go s' (c :: cur) false
  end.

Definition split_sentences (transcript : jsstring) : list jsstring :=
  split_go transcript [] false.

(** One turn of the [for] loop over [sentences]: the state is the array
    [chunks] and the string [currentChunk]. *)
Definition chunk_step (maxCharsPerChunk : nat)
  (st : list jsstring * jsstring) (sentence : jsstring)
  : list jsstring * jsstring :=
  let '(chunks, currentChunk) := st in
  if (maxCharsPerChunk <? length currentChunk + length sentence)
     && (0 <? length currentChunk)
  then (chunks ++ [trim currentChunk], sentence)
  else (chunks, currentChunk ++ sentence).

Definition splitTranscriptIntoChunks (transcript : jsstring)
  (maxCharsPerChunk : nat) : list jsstring :=
  if length transcript <=? maxCharsPerChunk then [transcript]
  else
    let sentences := split_sentences transcript in
    let '(chunks, currentChunk) :=
      fold_left (chunk_step maxCharsPerChunk) sentences ([], []) in
    if truthy (trim currentChunk) then chunks ++ [trim currentChunk]
    else chunks.

(** ** Thrown values, events and the effect monad *)

(** Every value the pipeline throws or catches is an [Error] instance; the
    fields are the ones the source inspects: [e.message], [e.status],
    [e.code] and [e.cause?.code]. *)
Record js_error := mkError {
  e_message : jsstring;
  e_status : option Z;
  e_code : option jsstring;
  e_cause_code : option jsstring
}.

(** [new Error(message)]. *)
Definition new_Error (message : jsstring) : js_error :=
  mkError message None None None.

Inductive outcome (A : Type) : Type :=
| Returned (a : A)
| Thrown (e : js_error).
Arguments Thrown {A} e.

Inductive stage : Set :=
| parsing | downloading | transcribing | summarizing | done | error.

Definition stage_eqb (a b : stage) : bool :=
  match a, b with
  | parsing, parsing | downloading, downloading
  | transcribing, transcribing | summarizing, summarizing
  | done, done | error, error => true
  | _, _ => false
  end.

(** The status messages of [summarizeTranscript], one constructor per
    template literal, with the values the template interpolates. *)
Inductive notice : Type :=
| LongTranscript (thousands : nat)
    (* 检测到长文本（${Math.round(transcript.length / 1000)}K 字），正在分段处理... *)
| AnalysingChunk (number total : nat)
    (* 正在分析第 ${i + 1}/${chunks.length} 段... *)
| FallbackChunk (number : nat)
    (* 模型限流，切换备用模型处理第 ${i + 1} 段... *)
| Merging
    (* 正在整合全部内容... *)
| FallbackDirect (retryTime : jsstring).
    (* 主力模型速率受限(429)，正在切换为备用模型(8B)... (预计恢复: ${retryTime}) *)

(** The object [summarizeTranscript] returns.  Its [highlights] field, up
    to three bulleted lines picked out of [summary] by a regular
    expression, is advisory and is left out. *)
Record summary_result := mkResult {
  r_type : jsstring;
  r_summary : jsstring
}.

(** The [data] object of the [done] event. *)
Record payload := mkPayload {
  d_title : jsstring;
  d_transcript : jsstring;
  d_audioUrl : jsstring;
  d_result : summary_result
}.

(** An object passed to [send]. *)
Record event := mkEvent {
  ev_stage : stage;
  ev_progress : option Z;
  ev_message : option notice;
  ev_data : option payload;
  ev_error : option jsstring
}.

Definition progress_event (s : stage) (p : Z) : event :=
  mkEvent s (Some p) None None None.
Definition notice_event (n : notice) : event :=
  mkEvent summarizing None (Some n) None None.
Definition done_event (d : payload) : event :=
  mkEvent done (Some 100%Z) None (Some d) None.
Definition error_event (msg : jsstring) : event :=
  mkEvent error None None None (Some msg).

(** What the handler does to the outside world, in order:
    [controller.enqueue] and [controller.close]; [mkdirAsync] and
    [rmAsync] (recursive, forced) on the transient directory,
    [fs.promises.rename]; [parseXiaoyuzhouUrl] and
    [downloadAudioToStream]; [ffmpeg.ffprobe], the run of ffmpeg's segment
    muxer, [readdirAsync]; [groq.audio.transcriptions.create];
    [setTimeout]; [groq.chat.completions.create]. *)
Inductive effect : Type :=
| Send (ev : event)
| Close
| Mkdir (dir : jsstring)
| Rm (dir : jsstring)
| Rename (from to : jsstring)
| Resolve
| Download (url path : jsstring)
| Probe (path : jsstring)
| Split (input pattern : jsstring) (options : list jsstring)
| Readdir (dir : jsstring)
| Transcribe (path : jsstring) (attempt : nat)
| Sleep (ms : Z)
| CallModel (model content : jsstring) (isPartial : bool).

(** The state the handler threads: the trace of effects, the transient
    directories on disk, the names in the job's directory, and the
    variable [progress] of the summarizing stage. *)
Record world := mkWorld {
  trace : list effect;
  dirs : list jsstring;
  files : list jsstring;
  progress : Q
}.

Definition M (A : Type) : Type := world -> outcome A * world.

Definition ret {A : Type} (a : A) : M A := fun w => (Returned a, w).

Definition bind {A B : Type} (m : M A) (k : A -> M B) : M B :=
  fun w =>
    match m w with
    | (Returned a, w') => k a w'
    | (Thrown e, w') => (Thrown e, w')
    end.

Definition throw {A : Type} (e : js_error) : M A := fun w => (Thrown e, w).

(** [try { m } catch (e) { handler e }]. *)
Definition try_catch {A : Type} (m : M A) (handler : js_error -> M A) : M A :=
  fun w =>
    match m w with
    | (Returned a, w') => (Returned a, w')
    | (Thrown e, w') => handler e w'
    end.

(** [try { m } finally { cleanup }], for a [cleanup] that does not throw. *)
Definition try_finally {A : Type} (m : M A) (cleanup : M unit) : M A :=
  fun w =>
    match m w with
    | (r, w') => (r, snd (cleanup w'))
    end.

(** An awaited answer of the outside world. *)
Definition await {A : Type} (o : outcome A) : M A := fun w => (o, w).

Definition emit (x : effect) : M unit :=
  fun w => (Returned tt,
            mkWorld (trace w ++ [x]) (dirs w) (files w) (progress w)).

Declare Scope monad_scope.
Delimit Scope monad_scope with monad.
Notation "x <- m ;; k" := (bind m (fun x => k))
  (at level 61, m at next level, right associativity) : monad_scope.
Notation "m ;; k" := (bind m (fun _ => k))
  (at level 61, right associativity) : monad_scope.
Notation "' p <- m ;; k" := (bind m (fun x => match x with p => k end))
  (at level 61, p pattern, m at next level, right associativity) : monad_scope.
Open Scope monad_scope.

Definition send (data : event) : M unit := emit (Send data).

(** ** The outside world *)

(** The extensions [downloadAudioToStream] can resolve to. *)
Inductive extension : Set := mp3 | m4a | mp4 | wav.

Definition ext_string (x : extension) : jsstring :=
  match x with
  | mp3 => lit ".mp3"
  | m4a => lit ".m4a"
  | mp4 => lit ".mp4"
  | wav => lit ".wav"
  end.

(** A decoded JSON value, for the request body. *)
#[warnings="-register-all"]
Inductive json : Type :=
| JNull
| JBool (b : bool)
| JNum (q : Q)
| JStr (s : jsstring)
| JArr (l : list json)
| JObj (fields : list (jsstring * json)).

(** The three places [summarizeTranscript] calls the model from. *)
Inductive call_site : Set :=
| DirectCall
| ChunkCall (i : nat)
| FinalCall.

Record env := mkEnv {
  (** [os.tmpdir()], [uuidv4()] and [process.env.GROQ_API_KEY] *)
  tmpdir : jsstring;
  session_id : jsstring;
  GROQ_API_KEY : option jsstring;
  (** the file system calls on the transient directory *)
  mkdir_result : outcome unit;
  rename_result : outcome unit;
  rm_result : outcome unit;
  readdir_result : list jsstring -> outcome (list jsstring);
  (** the resolver and the media fetcher, external collaborators *)
  resolve_result : outcome (jsstring * jsstring);
  download_result : outcome extension;
  (** ffprobe's [metadata?.format?.duration], ffmpeg's segment muxer: the
      number of windows it writes *)
  ffprobe_result : outcome (option Q);
  ffmpeg_result : outcome nat;
  (** the speech-to-text answer for a file at a given attempt *)
  speech_to_text : jsstring -> nat -> outcome jsstring;
  (** the text-generation answer at a call site for a model:
      [choices[0]?.message?.content], after the values [Math.random()]
      takes in the heartbeats that fire while the call is outstanding *)
  chat_completion :
    call_site -> jsstring -> jsstring -> bool ->
    list Q * outcome (option jsstring)
}.

(** ** transcribeSingleFile (part_001, lines 107-144) *)

Definition code_is (c : option jsstring) (name : jsstring) : bool :=
  match c with
  | Some x => JS.eqb x name
  | None => false
  end.

Definition isNetworkError (e : js_error) : bool :=
  code_is (e_cause_code e) (lit "ECONNRESET")
  || code_is (e_cause_code e) (lit "ETIMEDOUT")
  || code_is (e_cause_code e) (lit "ENOTFOUND")
  || includes (e_message e) (lit "ECONNRESET")
  || includes (e_message e) (lit "fetch failed").

(** [Math.pow(2, attempt - 1) * 1000] *)
Definition retry_delay (attempt : nat) : Z :=
  (2 ^ Z.of_nat (attempt - 1) * 1000)%Z.

Section Pipeline.

Variable E : env.

(** The [for] loop from [attempt] on, [remaining] turns being left
    ([attempt + remaining = maxRetries + 1]). *)
Fixpoint transcribe_attempts (filePath : jsstring) (maxRetries : nat)
  (remaining attempt : nat) : M jsstring :=
  match remaining with
  | O => throw (new_Error (lit "Max retries reached for transcription"))
  | S remaining' =>
      try_catch
        (emit (Transcribe filePath attempt) ;;
         await (speech_to_text E filePath attempt))
        (fun error =>
           if isNetworkError error && (attempt <? maxRetries) then
             emit (Sleep (retry_delay attempt)) ;;
             transcribe_attempts filePath maxRetries remaining' (S attempt)
           else throw error)
  end.

Definition transcribeSingleFile_n (filePath : jsstring) (maxRetries : nat)
  : M jsstring :=
  transcribe_attempts filePath maxRetries maxRetries 1.

(** The default [maxRetries = 3], the only value the file calls it with. *)
Definition transcribeSingleFile (filePath : jsstring) : M jsstring :=
  transcribeSingleFile_n filePath 3.

(** ** transcribeLargeAudio (part_001, lines 147-232) *)

Definition CHUNK_SIZE : Q := inject_Z 180.

Definition path_join (dir name : jsstring) : jsstring :=
  dir ++ lit "/" ++ name.

(** The segment muxer's [%03d]: at least three digits, padded with 0. *)
Definition pad3 (i : nat) : jsstring :=
  let d := decimal i in repeat 48%N (3 - length d) ++ d.

(** The [i]-th file of the pattern [chunk%03d${originalExt}]. *)
Definition segment_name (originalExt : jsstring) (i : nat) : jsstring :=
  lit "chunk" ++ pad3 i ++ originalExt.

Definition segment_options : list jsstring :=
  [lit "-f segment"; lit "-segment_time " ++ decimal 180; lit "-c copy";
   lit "-reset_timestamps 1"].

Definition ffprobe (inputPath : jsstring) : M Q :=
  emit (Probe inputPath) ;;
  d <- await (ffprobe_result E) ;;
  (* metadata?.format?.duration || 0 *)
  ret match d with
      | Some q => q
      | None => inject_Z 0
      end.

(** Running ffmpeg's segment muxer writes the numbered files. *)
Definition ffmpeg_split (inputPath tempDir originalExt : jsstring)
  : M unit :=
  emit (Split inputPath
          (path_join tempDir (lit "chunk%03d" ++ originalExt))
          segment_options) ;;
  n <- await (ffmpeg_result E) ;;
  fun w =>
    (Returned tt,
     mkWorld (trace w) (dirs w)
       (files w ++ map (segment_name originalExt) (seq 0 n)) (progress w)).

Definition readdir (dir : jsstring) : M (list jsstring) :=
  emit (Readdir dir) ;;
  fun w => (readdir_result E (files w), w).

(** The arithmetic of the progress reports is the arithmetic of
    JavaScript numbers, which are binary64 values: an operation returns
    its exact result rounded to the nearest number with a significand of
    53 bits, a tie going to the even significand.  The numbers are the
    rationals they stand for, and [double] is the rounding.  The range of
    the exponent is left out: no result of these operations comes near
    its ends. *)

(** [n / d] rounded to the nearest integer, a tie going to the even
    one. *)
Definition round_half_even (n : Z) (d : positive) : Z :=
  let q := (n / Z.pos d)%Z in
  match (2 * (n mod Z.pos d) ?= Z.pos d)%Z with
  | Lt => q
  | Gt => (q + 1)%Z
  | Eq => if Z.even q then q else (q + 1)%Z
  end.

(** The exponent of [n / d]: the [e] with [2^e <= n / d < 2^(e+1)]. *)
Definition binade (n d : positive) : Z :=
  let e := (Z.log2 (Z.pos n) - Z.log2 (Z.pos d))%Z in
  let reached :=
    match e with
    | Zneg k => (Z.pos d <=? Z.pos n * 2 ^ Z.pos k)%Z
    | _ => (2 ^ e * Z.pos d <=? Z.pos n)%Z
    end in
  if reached then e else (e - 1)%Z.

(** [n / d] rounded to 53 significant bits: with [e] its exponent, the
    nearest multiple of [2^(e - 52)]. *)
Definition round_significand (n d : positive) : Q :=
  match (52 - binade n d)%Z with
  | Z0 => inject_Z (round_half_even (Z.pos n) d)
  | Zpos k => round_half_even (Z.pos n * 2 ^ Z.pos k) d # 2 ^ k
  | Zneg k => inject_Z (round_half_even (Z.pos n) (d * 2 ^ k) * 2 ^ Z.pos k)
  end.

Definition double (x : Q) : Q :=
  match Qnum x with
  | Z0 => inject_Z 0
  | Zpos n => round_significand n (Qden x)
  | Zneg n => (- round_significand n (Qden x))%Q
  end.

(** [30 + (i * chunkWeight)] with [chunkWeight = range / totalChunks]. *)
Definition startP (i totalChunks : nat) : Q :=
  let range := inject_Z 55 in
  let chunkWeight := double (range / inject_Z (Z.of_nat totalChunks))%Q in
  double (inject_Z 30 + double (inject_Z (Z.of_nat i) * chunkWeight))%Q.

(** [30 + Math.floor(((i + 1) / totalChunks) * 50)] *)
Definition endP (i totalChunks : nat) : Z :=
  (30 + Qfloor
          (double
             (double (inject_Z (Z.of_nat (i + 1))
                      / inject_Z (Z.of_nat totalChunks))
              * inject_Z 50)%Q))%Z.

(** The loop over [chunks] from index [i] on. *)
Fixpoint process_chunks (onProgress : Z -> M unit) (chunks : list jsstring)
  (i totalChunks : nat) (fullTranscript : jsstring) : M jsstring :=
  match chunks with
  | [] => ret fullTranscript
  | chunkPath :: rest =>
      onProgress (Qfloor (startP i totalChunks)) ;;
      text <- transcribeSingleFile chunkPath ;;
      onProgress (endP i totalChunks) ;;
      process_chunks onProgress rest (S i) totalChunks
        (fullTranscript ++ text ++ lit (String "010"%char EmptyString))
  end.

(** The Segmenter: the ordered list [chunks] of step 1. *)
Definition segment (inputPath originalExt tempDir : jsstring)
  : M (list jsstring) :=
  duration <- ffprobe inputPath ;;
  if Qle_bool duration CHUNK_SIZE then ret [inputPath]
  else
    ffmpeg_split inputPath tempDir originalExt ;;
    names <- readdir tempDir ;;
    ret (map (path_join tempDir)
           (JS.sort (filter (fun f => startsWith f (lit "chunk")) names))).

Definition transcribeLargeAudio (inputPath originalExt tempDir : jsstring)
  (onProgress : Z -> M unit) : M jsstring :=
  chunks <- segment inputPath originalExt tempDir ;;
  process_chunks onProgress chunks 0 (length chunks) [].

(** ** summarizeTranscript (part_001, lines 266-456) *)

Definition MODELS_PRIMARY : jsstring := lit "llama-3.3-70b-versatile".
Definition MODELS_FALLBACK : jsstring := lit "llama-3.1-8b-instant".

Definition CHUNK_THRESHOLD : nat := 15000.

(** [e?.status === 429 || e?.code === 'rate_limit_exceeded'] *)
Definition rate_limited (e : js_error) : bool :=
  match e_status e with
  | Some s => (s =? 429)%Z
  | None => false
  end
  || code_is (e_code e) (lit "rate_limit_exceeded").

(** The class [[\d\w\.]]. *)
Definition is_retry_char (c : N) : bool :=
  ((48 <=? c) && (c <=? 57) || (65 <=? c) && (c <=? 90)
   || (97 <=? c) && (c <=? 122) || (c =? 95) || (c =? 46))%N.

(** [message.match(/try again in ([\d\w\.]+)/)]: the group of the
    leftmost match. *)
Fixpoint retry_after (message : jsstring) : option jsstring :=
  match message with
  | [] => None
  | _ :: rest =>
      match strip_prefix message (lit "try again in ") with
      | Some tail =>
          match takeWhile is_retry_char tail with
          | [] => retry_after rest
          | group => Some group
          end
      | None => retry_after rest
      end
  end.

(** '生成失败' *)
Definition generation_failed : jsstring := [29983; 25104; 22833; 36133]%N.
(** '一段时间' and '一会儿' *)
Definition some_time : jsstring := [19968; 27573; 26102; 38388]%N.
Definition a_while : jsstring := [19968; 20250; 20799]%N.
(** '未知错误' *)
Definition unknown_error : jsstring := [26410; 30693; 38169; 35823]%N.

(** `今日额度已耗尽，请 ${retryTime} 后重试。` *)
Definition quota_message (retryTime : jsstring) : jsstring :=
  [20170; 26085; 39069; 24230; 24050; 32791; 23613; 65292; 35831; 32]%N
  ++ retryTime ++ [32; 21518; 37325; 35797; 12290]%N.

(** `文本分析失败: ${e.message || '未知错误'}` *)
Definition failure_message (detail : jsstring) : jsstring :=
  [25991; 26412; 20998; 26512; 22833; 36133; 58; 32]%N
  ++ or_else detail unknown_error.

(** The separator of [chunkSummaries.join] and the text of [finalPrompt]
    before and after [mergedContent]. *)
Definition summary_separator : jsstring := [10; 10; 45; 45; 45; 10; 10]%N.

Definition finalPrompt (mergedContent : jsstring) : jsstring :=
  [25105; 24050; 32463; 36880; 27573; 20998; 26512; 20102; 36825; 20010;
   25773; 23458; 65292; 20197; 19979; 26159; 21508; 37096; 20998; 30340;
   35814; 32454; 31508; 35760; 65306; 10; 10]%N
  ++ mergedContent ++
  [10; 10; 29616; 22312; 65292; 35831; 22522; 20110; 36825; 20123; 31508;
   35760; 65292; 29983; 25104; 19968; 20221; 23436; 25972; 30340; 12289;
   32467; 26500; 21270; 30340; 25773; 23458; 24635; 32467; 12290; 21153;
   24517; 36981; 24490; 20043; 21069; 32473; 20320; 30340; 36755; 20986;
   32467; 26500; 65292; 21253; 25324; 26631; 39064; 12289; 20840; 26223;
   23548; 35835; 12289; 28145; 24230; 22797; 30424; 31508; 35760; 65288;
   20998; 25104; 21512; 29702; 30340; 32; 80; 97; 114; 116; 65289; 65292;
   20197; 21450; 26368; 21518; 30340; 32; 65; 109; 121; 32; 30340; 30862;
   30862; 24565; 12290; 10; 10; 42; 42; 37325; 35201; 42; 42; 65306; 19981;
   35201; 37325; 22797; 20869; 23481; 65292; 32780; 26159; 25972; 21512;
   25104; 19968; 20010; 36830; 36143; 30340; 12289; 36923; 36753; 28165;
   26224; 30340; 23436; 25972; 25991; 26723; 12290]%N.

(** The heartbeats that fire while a call is outstanding, one per value
    of [Math.random()]. *)
Fixpoint heartbeats (onHeartbeat : Q -> M unit) (randoms : list Q)
  : M unit :=
  match randoms with
  | [] => ret tt
  | r :: rest => onHeartbeat r ;; heartbeats onHeartbeat rest
  end.

(** [callModel(model, content, isPartial)], at a call site; the value
    is [response.choices[0]?.message?.content]. *)
Definition callModel (onHeartbeat : Q -> M unit) (site : call_site)
  (model content : jsstring) (isPartial : bool) : M (option jsstring) :=
  emit (CallModel model content isPartial) ;;
  let '(randoms, reply) := chat_completion E site model content isPartial in
  heartbeats onHeartbeat randoms ;;
  await reply.

(** [content || fallback] for a possibly missing content. *)
Definition content_or (content : option jsstring) (fallback : jsstring)
  : jsstring :=
  match content with
  | Some c => or_else c fallback
  | None => fallback
  end.

(** The loop over [chunks] from index [i] on. *)
Fixpoint summarize_chunks (onHeartbeat : Q -> M unit)
  (send : event -> M unit) (chunks : list jsstring) (i total : nat)
  (chunkSummaries : list jsstring) : M (list jsstring) :=
  match chunks with
  | [] => ret chunkSummaries
  | chunk :: rest =>
      send (notice_event (AnalysingChunk (i + 1) total)) ;;
      chunkSummary <-
        try_catch
          (response <- callModel onHeartbeat (ChunkCall i) MODELS_PRIMARY
                         chunk true ;;
           ret (content_or response []))
          (fun e =>
             if rate_limited e then
               send (notice_event (FallbackChunk (i + 1))) ;;
               response <- callModel onHeartbeat (ChunkCall i)
                             MODELS_FALLBACK chunk true ;;
               ret (content_or response [])
             else throw e) ;;
      summarize_chunks onHeartbeat send rest (S i) total
        (chunkSummaries ++ [chunkSummary])
  end.

(** [Math.round(n / 1000)] *)
Definition round_thousands (n : nat) : nat := (n + 500) / 1000.

Definition universal : jsstring := lit "universal".

(** The error the outer [catch] throws in place of [e]: the quota message
    for the status 429, with the delay read in the message of [e] or
    '一会儿', and the failure message for anything else. *)
Definition summarization_error (e : js_error) : js_error :=
  match e_status e with
  | Some 429%Z =>
      let retryTime :=
        match retry_after (e_message e) with
        | Some t => t
        | None => a_while
        end in
      new_Error (quota_message retryTime)
  | _ => new_Error (failure_message (e_message e))
  end.

Definition summarizeTranscript (transcript : jsstring)
  (onHeartbeat : Q -> M unit) (send : event -> M unit)
  : M summary_result :=
  try_catch
    (if CHUNK_THRESHOLD <? length transcript then
       send (notice_event
               (LongTranscript (round_thousands (length transcript)))) ;;
       let chunks := splitTranscriptIntoChunks transcript 8000 in
       chunkSummaries <-
         summarize_chunks onHeartbeat send chunks 0 (length chunks) [] ;;
       send (notice_event Merging) ;;
       let mergedContent := join summary_separator chunkSummaries in
       finalResponse <- callModel onHeartbeat FinalCall MODELS_PRIMARY
                          (finalPrompt mergedContent) false ;;
       let summary := content_or finalResponse generation_failed in
       ret (mkResult universal summary)
     else
       response <-
         try_catch
           (callModel onHeartbeat DirectCall MODELS_PRIMARY transcript false)
           (fun e =>
              if rate_limited e then
                let retryTime :=
                  match retry_after (e_message e) with
                  | Some t => t
                  | None => some_time
                  end in
                send (notice_event (FallbackDirect retryTime)) ;;
                callModel onHeartbeat DirectCall MODELS_FALLBACK transcript
                  false
              else throw e) ;;
       let summary := content_or response generation_failed in
       ret (mkResult universal summary))
    (fun e => throw (summarization_error e)).

(** ** POST (part_001, lines 460-569) *)

Record request := mkRequest {
  (** the decoded body; [None] when [request.json()] rejects *)
  req_body : option json;
  (** [request.headers.get('x-api-key')] *)
  req_api_key : option jsstring
}.

(** [NextResponse.json({ error: message }, { status })], or the
    [Response] that carries the stream. *)
Inductive response : Type :=
| Json (status : Z) (message : jsstring)
| EventStream.

(** The last binding of a key, as [JSON.parse] keeps it. *)
Fixpoint lookup (key : jsstring) (fields : list (jsstring * json))
  : option json :=
  match fields with
  | [] => None
  | (k, v) :: rest =>
      match lookup key rest with
      | Some v' => Some v'
      | None => if JS.eqb k key then Some v else None
      end
  end.

Definition type_error : js_error := new_Error (lit "TypeError").
Definition syntax_error : js_error := new_Error (lit "SyntaxError").

(** [const { url } = await request.json()]; [None] is [undefined]. *)
Definition destructure_url (r : request) : outcome (option json) :=
  match req_body r with
  | None => Thrown syntax_error
  | Some JNull => Thrown type_error
  | Some (JObj fields) => Returned (lookup (lit "url") fields)
  | Some _ => Returned None
  end.

Definition is_string (s : jsstring) (j : json) : bool :=
  match j with
  | JStr x => JS.eqb x s
  | _ => false
  end.

(** The truth value of [url?.includes('xiaoyuzhou')]: a substring test on
    a string, a membership test on an array, [undefined] on [undefined]
    and [null], a [TypeError] on every other value. *)
Definition url_includes (url : option json) : outcome bool :=
  match url with
  | None | Some JNull => Returned false
  | Some (JStr s) => Returned (includes s (lit "xiaoyuzhou"))
  | Some (JArr l) => Returned (existsb (is_string (lit "xiaoyuzhou")) l)
  | Some _ => Thrown type_error
  end.

(** [request.headers.get('x-api-key') || process.env.GROQ_API_KEY];
    the empty string stands for a falsy result. *)
Definition api_key_of (r : request) : jsstring :=
  or_else (match req_api_key r with Some k => k | None => [] end)
          (match GROQ_API_KEY E with Some k => k | None => [] end).

Definition mkdirAsync (dir : jsstring) : M unit :=
  emit (Mkdir dir) ;;
  await (mkdir_result E) ;;
  fun w => (Returned tt,
            mkWorld (trace w) (dir :: dirs w) (files w) (progress w)).

Definition rmAsync (dir : jsstring) : M unit :=
  emit (Rm dir) ;;
  await (rm_result E) ;;
  fun w => (Returned tt,
            mkWorld (trace w)
              (filter (fun d => negb (JS.eqb d dir)) (dirs w)) []
              (progress w)).

Definition parseXiaoyuzhouUrl : M (jsstring * jsstring) :=
  emit Resolve ;;
  await (resolve_result E).

Definition downloadAudioToStream (url tempFilePath : jsstring)
  : M extension :=
  emit (Download url tempFilePath) ;;
  x <- await (download_result E) ;;
  fun w => (Returned x,
            mkWorld (trace w) (dirs w)
              (files w ++ [lit "download_audio_temp"]) (progress w)).

Definition rename (from to inputName : jsstring) : M unit :=
  emit (Rename from to) ;;
  await (rename_result E) ;;
  fun w => (Returned tt,
            mkWorld (trace w) (dirs w)
              (filter (fun f => negb (JS.eqb f (lit "download_audio_temp")))
                 (files w) ++ [inputName])
              (progress w)).

(** [Math.min(a, b)] *)
Definition Math_min (a b : Q) : Q := if Qle_bool a b then a else b.

Definition set_progress (p : Q) : M unit :=
  fun w => (Returned tt, mkWorld (trace w) (dirs w) (files w) p).

(** The heartbeat callback of [POST], given the value of
    [Math.random()]:
    [progress = Math.min(progress + (Math.random() * 0.2), 98)]. *)
Definition onHeartbeat (random : Q) : M unit :=
  fun w =>
    let p := Math_min (progress w + random * (2 # 10))%Q (inject_Z 98) in
    send (progress_event summarizing (Qfloor p))
      (mkWorld (trace w) (dirs w) (files w) p).

(** 'API Key 无效或已过期，请检查后重试 (401 Unauthorized)' *)
Definition invalid_key_message : jsstring :=
  [65; 80; 73; 32; 75; 101; 121; 32; 26080; 25928; 25110; 24050; 36807;
   26399; 65292; 35831; 26816; 26597; 21518; 37325; 35797; 32; 40; 52; 48;
   49; 32; 85; 110; 97; 117; 116; 104; 111; 114; 105; 122; 101; 100; 41]%N.
(** '请提供 API Key' and '无效链接' *)
Definition missing_key_message : jsstring :=
  [35831; 25552; 20379; 32; 65; 80; 73; 32; 75; 101; 121]%N.
Definition invalid_link_message : jsstring :=
  [26080; 25928; 38142; 25509]%N.

Definition stream_error_message (e : js_error) : jsstring :=
  let errorMessage := e_message e in
  if includes errorMessage (lit "401")
     || includes errorMessage (lit "invalid_api_key")
     || match e_status e with Some s => (s =? 401)%Z | None => false end
  then invalid_key_message
  else errorMessage.

(** The directory of the job:
    [path.join(os.tmpdir(), `amy-podcast-${sessionId}`)]. *)
Definition job_dir : jsstring :=
  path_join (tmpdir E) (lit "amy-podcast-" ++ session_id E).

(** The cleanup of the [finally] block and of the top-level [catch]. *)
Definition cleanup (tempDir : jsstring) : M unit :=
  if truthy tempDir then
    try_catch (rmAsync tempDir) (fun cleanupErr => ret tt)
  else ret tt.

(** The callback passed to [transcribeLargeAudio]:
    [(progress) => send({ stage: 'transcribing', progress })]. *)
Definition onProgress (progress : Z) : M unit :=
  send (progress_event transcribing progress).

(** The five stages, the body of the inner [try]. *)
Definition run_stages (tempDir : jsstring) : M unit :=
  mkdirAsync tempDir ;;
  send (progress_event parsing 1) ;;
  emit (Sleep 100) ;;
  send (progress_event parsing 5) ;;
  '(audioUrl, title) <- parseXiaoyuzhouUrl ;;
  send (progress_event downloading 10) ;;
  let initialTempPath := path_join tempDir (lit "download_audio_temp") in
  extension <- downloadAudioToStream audioUrl initialTempPath ;;
  let inputName := lit "input" ++ ext_string extension in
  let inputPath := path_join tempDir inputName in
  rename initialTempPath inputPath inputName ;;
  send (progress_event downloading 25) ;;
  send (progress_event transcribing 30) ;;
  transcript <-
    transcribeLargeAudio inputPath (ext_string extension) tempDir
      onProgress ;;
  set_progress (inject_Z 85) ;;
  send (progress_event summarizing 85) ;;
  result <- summarizeTranscript transcript onHeartbeat send ;;
  send (done_event (mkPayload title transcript audioUrl result)) ;;
  emit Close.

(** The [start] method of the stream. *)
Definition stream_start : M unit :=
  let tempDir := job_dir in
  try_finally
    (try_catch (run_stages tempDir)
       (fun e =>
          send (error_event (stream_error_message e)) ;;
          emit Close))
    (cleanup tempDir).

(** What the handler decides before it builds the stream; [tempDir] is
    still the empty string in the top-level [catch]. *)
Definition POST_gate (r : request) : M response :=
  let tempDir : jsstring := [] in
  try_catch
    (url <- await (destructure_url r) ;;
     let apiKey := api_key_of r in
     if negb (truthy apiKey) then ret (Json 401 missing_key_message)
     else
       included <- await (url_includes url) ;;
       if negb included then ret (Json 400 invalid_link_message)
       else ret EventStream)
    (fun e =>
       cleanup tempDir ;;
       ret (Json 500 (lit "Server Error"))).

Definition POST (r : request) : M response :=
  resp <- POST_gate r ;;
  match resp with
  | EventStream => stream_start ;; ret EventStream
  | Json _ _ => ret resp
  end.

End Pipeline.

(** The handler starts on an empty trace, with no transient directory. *)
Definition initial_world : world := mkWorld [] [] [] (inject_Z 0).

Definition run (E : env) (r : request) : outcome response * world :=
  POST E r initial_world.

(** * Vocabulary of the properties *)

(** ** Observations of a trace *)

(** The events of a trace, in the order they were sent. *)
Definition sent (t : list effect) : list event :=
  flat_map (fun x => match x with Send ev => [ev] | _ => [] end) t.

(** The [progress] values of the events of a stage. *)
Definition progress_values (s : stage) (t : list effect) : list Z :=
  flat_map (fun ev =>
              if stage_eqb (ev_stage ev) s then
                match ev_progress ev with Some p => [p] | None => [] end
              else [])
    (sent t).

(** The [done] and [error] events. *)
Definition terminal_events (t : list effect) : list event :=
  filter (fun ev => stage_eqb (ev_stage ev) done
                    || stage_eqb (ev_stage ev) error)
    (sent t).

(** The notices sent, in order. *)
Definition notices (t : list effect) : list notice :=
  flat_map (fun ev => match ev_message ev with Some n => [n] | None => [] end)
    (sent t).

(** The delays slept, in milliseconds. *)
Definition sleeps (t : list effect) : list Z :=
  flat_map (fun x => match x with Sleep ms => [ms] | _ => [] end) t.

(** The models called, in order. *)
Definition models_called (t : list effect) : list jsstring :=
  flat_map (fun x => match x with CallModel m _ _ => [m] | _ => [] end) t.

(** The files handed to the speech-to-text provider, in order. *)
Definition transcribed (t : list effect) : list jsstring :=
  flat_map (fun x => match x with Transcribe p 1 => [p] | _ => [] end) t.

(** The directories made and removed, in order. *)
Definition made (t : list effect) : list jsstring :=
  flat_map (fun x => match x with Mkdir d => [d] | _ => [] end) t.
Definition removed (t : list effect) : list jsstring :=
  flat_map (fun x => match x with Rm d => [d] | _ => [] end) t.

Fixpoint nondecreasing (l : list Z) : bool :=
  match l with
  | x :: (y :: _) as rest => (x <=? y)%Z && nondecreasing rest
  | _ => true
  end.

(** ** Kinds of effects *)

(** An effect that is neither an event, nor the making or the removal of
    a directory, nor the closing of the stream. *)
Definition passive (x : effect) : Prop :=
  match x with
  | Send _ | Mkdir _ | Rm _ | Close => False
  | _ => True
  end.

(** An effect inside a stage [s]: a passive effect, or an event of that
    stage. *)
Definition inner_effect (s : stage) (x : effect) : Prop :=
  match x with
  | Send ev => ev_stage ev = s
  | Mkdir _ | Rm _ | Close => False
  | _ => True
  end.

(** An effect before the terminal event: a passive effect, or an event
    of any stage but [done] and [error]. *)
Definition quiet (x : effect) : Prop :=
  match x with
  | Send ev => ev_stage ev <> done /\ ev_stage ev <> error
  | Mkdir _ | Rm _ | Close => False
  | _ => True
  end.

(** An effect inside the transcribing stage whose events carry a
    progress value within the band. *)
Definition in_band (x : effect) : Prop :=
  match x with
  | Send ev =>
      ev_stage ev = transcribing
      /\ exists p, ev_progress ev = Some p /\ (30 <= p <= 85)%Z
  | Mkdir _ | Rm _ | Close => False
  | _ => True
  end.

(** An effect of the heartbeat: a bare progress report of the summarizing
    stage. *)
Definition beat (x : effect) : Prop :=
  exists p, x = Send (progress_event summarizing p).

(** ** Relations between worlds *)

(** The world after the effects [t], nothing else being touched. *)
Definition grown (w : world) (t : list effect) : world :=
  mkWorld (trace w ++ t) (dirs w) (files w) (progress w).

(** [w'] is [w] after some effects that all satisfy [P], the transient
    directories being the same. *)
Definition adds (P : effect -> Prop) (w w' : world) : Prop :=
  exists t, trace w' = trace w ++ t /\ Forall P t /\ dirs w' = dirs w.


(** A computation that takes every world to one related to it by [R],
    whatever its outcome. *)
Definition preserves {A : Type} (R : world -> world -> Prop) (m : M A)
  : Prop :=
  forall w, R w (snd (m w)).

(** A computation whose effects all satisfy [P], whatever its outcome, and
    which leaves the transient directories alone. *)
Definition keeps {A : Type} (P : effect -> Prop) (m : M A) : Prop :=
  preserves (adds P) m.


(** ** The chunks of a transcript *)

(** What the chunk loop pushes, given the slices it cut: every slice but
    the last is pushed trimmed, the last one only when its trimmed text
    is not empty. *)
Definition pushed_chunks (slices : list jsstring) : list jsstring :=
  map trim (removelast slices)
  ++ (if truthy (trim (last slices [])) then [trim (last slices [])]
      else []).

(** A piece of [split_sentences] is either free of sentence-ending
    characters or a run of them. *)
Definition sentence_piece (p : jsstring) : Prop :=
  forallb (fun c => negb (is_sentence_end c)) p = true
  \/ forallb is_sentence_end p = true.

(** A slice the chunk loop may hold or flush: within the limit [C], or a
    single piece of the split. *)
Definition admissible (C : nat) (pieces : list jsstring) (s : jsstring)
  : Prop :=
  length s <= C \/ (C < length s /\ In s pieces).

(** The lines of a text, cut at line feeds. *)
Fixpoint lines_from (s : jsstring) (cur : jsstring) : list jsstring :=
  match s with
  | [] => [reverse cur]
  | c :: s' =>
      if (c =? 10)%N then reverse cur :: lines_from s' []
      else lines_from s' (c :: cur)
  end.


(** ** The attempts of a transcription *)

(** The trace of [k] attempts on a file from attempt [first] on, every one
    but the last followed by its back-off. *)
Fixpoint attempts_trace (filePath : jsstring) (first k : nat) : list effect :=
  match k with
  | O => []
  | S k' =>
      Transcribe filePath first ::
      match k' with
      | O => []
      | S _ => Sleep (retry_delay first) :: attempts_trace filePath (S first) k'
      end
  end.

(** [p] occurs in [s]. *)
Definition occurs_in (p s : jsstring) : Prop :=
  exists before after, s = before ++ p ++ after.

(** A failure of the network, as the retry takes it: the cause of the
    error is coded ECONNRESET, ETIMEDOUT or ENOTFOUND (a connection
    reset, a time-out, a host that is not found), or the message of the
    error mentions ECONNRESET or 'fetch failed'. *)
Definition network_failure (e : js_error) : Prop :=
  e_cause_code e = Some (lit "ECONNRESET")
  \/ e_cause_code e = Some (lit "ETIMEDOUT")
  \/ e_cause_code e = Some (lit "ENOTFOUND")
  \/ occurs_in (lit "ECONNRESET") (e_message e)
  \/ occurs_in (lit "fetch failed") (e_message e).

(** ** The order of the segments *)

(** The segment paths in the order of the audio. *)
Definition chronological (tempDir originalExt : jsstring) (n : nat)
  : list jsstring :=
  map (path_join tempDir) (map (segment_name originalExt) (seq 0 n)).

(** The order of the default sort, as a proposition. *)
Definition js_le (a b : jsstring) : Prop := JS.leb a b = true.

Fixpoint strictly_increasing (l : list jsstring) : bool :=
  match l with
  | x :: (y :: _) as rest => JS.ltb x y && strictly_increasing rest
  | _ => true
  end.


(** ** The outcome of a job *)

(** The effects of a job up to the first report of the transcribing
    stage. *)
Definition stage_prefix (d audioUrl : jsstring) (x : extension)
  : list effect :=
  [Mkdir d; Send (progress_event parsing 1); Sleep 100;
   Send (progress_event parsing 5); Resolve;
   Send (progress_event downloading 10);
   Download audioUrl (path_join d (lit "download_audio_temp"));
   Rename (path_join d (lit "download_audio_temp"))
     (path_join d (lit "input" ++ ext_string x));
   Send (progress_event downloading 25);
   Send (progress_event transcribing 30)].

(** The job ran to success: every stage returned, and the trace is the
    one of the five stages in order, closed by the [done] event that
    carries the results of the stages. *)
Definition succeeded (E : env) (d : jsstring) (w w' : world)
  (title transcript audioUrl : jsstring) (result : summary_result) : Prop :=
  exists x t1 t2 w1 w2 w3 w4,
    mkdir_result E = Returned tt
    /\ resolve_result E = Returned (audioUrl, title)
    /\ download_result E = Returned x
    /\ rename_result E = Returned tt
    /\ transcribeLargeAudio E (path_join d (lit "input" ++ ext_string x))
         (ext_string x) d onProgress w1 = (Returned transcript, w2)
    /\ summarizeTranscript E transcript onHeartbeat send w3
       = (Returned result, w4)
    /\ trace w'
       = trace w ++ stage_prefix d audioUrl x ++ t1
         ++ [Send (progress_event summarizing 85)] ++ t2
         ++ [Send (done_event (mkPayload title transcript audioUrl result));
             Close]
    /\ Forall (inner_effect transcribing) t1
    /\ Forall (inner_effect summarizing) t2
    /\ dirs w' = d :: dirs w.

(** The job failed: some stage threw, after effects that are all quiet. *)
Definition failed (d : jsstring) (w w' : world) : Prop :=
  exists t,
    trace w' = trace w ++ Mkdir d :: t
    /\ Forall quiet t
    /\ (dirs w' = dirs w \/ dirs w' = d :: dirs w).


(** The delay announced with the switch to the fallback model. *)
Definition announced_delay (e : js_error) : jsstring :=
  match retry_after (e_message e) with
  | Some t => t
  | None => some_time
  end.

(** * Concrete worlds and inputs *)

Definition newline : jsstring := [10%N].

Definition episode_url : jsstring :=
  lit "https://www.xiaoyuzhoufm.com/episode/1".


Definition request_for (url : jsstring) (key : option jsstring) : request :=
  mkRequest (Some (JObj [(lit "url", JStr url)])) key.

Definition good_request : request :=
  request_for episode_url (Some (lit "gsk_key")).

Definition heading_answer : option jsstring := Some (lit "# Episode").

(** An outside world in which every call succeeds: [seconds] of audio,
    which ffmpeg cuts into [windows] files listed in reverse order, every
    segment transcribed as [text], the model answering [answer] with no
    heartbeat in between. *)
Definition calm_env (seconds : Z) (windows : nat) (text : jsstring)
  (answer : option jsstring) : env :=
  {| tmpdir := lit "/tmp";
     session_id := lit "0f8fad5b";
     GROQ_API_KEY := None;
     mkdir_result := Returned tt;
     rename_result := Returned tt;
     rm_result := Returned tt;
     readdir_result := fun names => Returned (rev names);
     resolve_result :=
       Returned (lit "https://media.example/a.mp3", lit "Episode");
     download_result := Returned mp3;
     ffprobe_result := Returned (Some (inject_Z seconds));
     ffmpeg_result := Returned windows;
     speech_to_text := fun _ _ => Returned text;
     chat_completion := fun _ _ _ _ => ([], Returned answer) |}.

(** The same world with another removal, another speech-to-text provider
    or another model. *)
Definition with_rm (E : env) (result : outcome unit) : env :=
  mkEnv (tmpdir E) (session_id E) (GROQ_API_KEY E) (mkdir_result E)
    (rename_result E) result (readdir_result E) (resolve_result E)
    (download_result E) (ffprobe_result E) (ffmpeg_result E)
    (speech_to_text E) (chat_completion E).

Definition with_speech_to_text (E : env)
  (provider : jsstring -> nat -> outcome jsstring) : env :=
  mkEnv (tmpdir E) (session_id E) (GROQ_API_KEY E) (mkdir_result E)
    (rename_result E) (rm_result E) (readdir_result E) (resolve_result E)
    (download_result E) (ffprobe_result E) (ffmpeg_result E)
    provider (chat_completion E).

Definition with_model (E : env)
  (model :
     call_site -> jsstring -> jsstring -> bool ->
     list Q * outcome (option jsstring)) : env :=
  mkEnv (tmpdir E) (session_id E) (GROQ_API_KEY E) (mkdir_result E)
    (rename_result E) (rm_result E) (readdir_result E) (resolve_result E)
    (download_result E) (ffprobe_result E) (ffmpeg_result E)
    (speech_to_text E) model.

(** One minute of audio, transcribed as "hello". *)
Definition minute_env : env := calm_env 60 0 (lit "hello") heading_answer.

(** The removal of the transient directory fails. *)
Definition stuck_env : env :=
  with_rm minute_env
    (Thrown (new_Error (lit "EBUSY: resource busy or locked"))).


(** Fifty hours and a little more of audio: 1001 windows. *)
Definition marathon_env : env :=
  calm_env 180100 1001 (lit "hello") heading_answer.

(** 2500 seconds of audio: 14 windows. *)
Definition fourteen_env : env :=
  calm_env 2500 14 (lit "hello") heading_answer.

(** A network failure of the speech-to-text provider. *)
Definition connection_reset : js_error :=
  mkError (lit "Connection error.") None None (Some (lit "ECONNRESET")).

(** The speech-to-text provider fails on the network for the first
    [failures] attempts on every file. *)
Definition flaky_env (failures : nat) : env :=
  with_speech_to_text minute_env
    (fun _ attempt =>
       if attempt <=? failures then Thrown connection_reset
       else Returned (lit "hello")).

(** A request that could not be made because the certificate of the
    provider has expired: the message of [fetch], the cause coded by the
    TLS layer. *)
Definition certificate_expired : js_error :=
  mkError (lit "fetch failed") None None (Some (lit "CERT_HAS_EXPIRED")).

(** The speech-to-text provider's certificate is refused at the first
    attempt on every file. *)
Definition expired_once_env : env :=
  with_speech_to_text minute_env
    (fun _ attempt =>
       if attempt <=? 1 then Thrown certificate_expired
       else Returned (lit "hello")).

(** The provider's rate-limit error. *)
Definition rate_limit_429 : js_error :=
  mkError
    (lit "429 Rate limit reached. Please try again in 7m12.5s. See the console.")
    (Some 429%Z) (Some (lit "rate_limit_exceeded")) None.

(** A rate-limit error that carries the code but no status. *)
Definition rate_limit_code_only : js_error :=
  mkError (lit "Rate limit reached") None (Some (lit "rate_limit_exceeded"))
    None.

(** A failure of the provider that is not a rate limit. *)
Definition server_error_500 : js_error :=
  mkError (lit "500 Internal Server Error") (Some 500%Z) None None.

(** The model fails on every call. *)
Definition failing_model_env : env :=
  with_model minute_env (fun _ _ _ _ => ([], Thrown server_error_500)).

(** The model answers every call but the final one, which is rate
    limited. *)
Definition final_limited_env : env :=
  with_model minute_env
    (fun site _ _ _ =>
       match site with
       | FinalCall => ([], Thrown rate_limit_429)
       | _ => ([], Returned (Some (lit "notes")))
       end).

(** The primary model is rate limited; the fallback model answers as
    given. *)
Definition primary_limited_env (fallback : outcome (option jsstring)) : env :=
  with_model minute_env
    (fun _ model _ _ =>
       if JS.eqb model MODELS_PRIMARY then ([], Thrown rate_limit_429)
       else ([], fallback)).

(** 7999 letters, a space, a full stop, a letter. *)
Definition transcript_space_before_stop : jsstring :=
  repeat 97%N 7999 ++ [32; 12290; 98]%N.

(** 8000 spaces, a newline, a letter. *)
Definition transcript_blank_then_letter : jsstring :=
  repeat 32%N 8000 ++ [10; 97]%N.

(** 8001 spaces. *)
Definition transcript_blank : jsstring := repeat 32%N 8001.

(** 8001 full stops. *)
Definition transcript_full_stops : jsstring := repeat 12290%N 8001.

(** A transcript of 15001 letters, above the threshold of 15000. *)
Definition long_transcript : jsstring := repeat 97%N 15001.

(** A transcript of 15001 spaces. *)
Definition blank_long_transcript : jsstring := repeat 32%N 15001.
(** * Around the pipeline

    The rest of the code the handler lives with: the highlights picked out of
    a summary, the two helpers that reach the podcast platform, the
    conversion endpoint, and, on the browser side, the page that submits a
    job and reads its stream and the dialog that stores the API key.

    Library calls are embedded by their specification: [URL], [cheerio],
    [axios], [TextDecoder], [JSON.parse] and [localStorage] are answers
    given to the code; [encodeURIComponent] and the header values of
    [fetch] follow their standards; regular expressions are written out
    as the scans they perform. *)

(** ** More of JavaScript's strings *)

(** [undefined] and [null] are falsy, as the empty string is. *)
Definition or_empty (o : option jsstring) : jsstring :=
  match o with
  | Some s => s
  | None => []
  end.

(** [s.endsWith(p)]. *)
Definition endsWith (s p : jsstring) : bool :=
  startsWith (reverse s) (reverse p).

(** [s.replace(p, '')] for a string pattern [p]: the first occurrence of
    [p] is removed. *)
Fixpoint remove_first (p s : jsstring) : jsstring :=
  match strip_prefix s p with
  | Some rest => rest
  | None =>
      match s with
      | [] => []
      | c :: s' => c :: remove_first p s'
      end
  end.

(** The line terminators of ECMAScript: the characters the dot of a regular
    expression does not match, and after which [^] holds under the flag
    [m]. *)
Definition is_line_terminator (c : N) : bool :=
  ((c =? 10) || (c =? 13) || (c =? 8232) || (c =? 8233))%N.

(** ** The highlights of a summary (part_001, lines 406 and 438) *)

(** The class [[\*\-]]. *)
Definition is_bullet (c : N) : bool := ((c =? 42) || (c =? 45))%N.

(** The pattern is a bullet [[\*\-]], white space [\s+], the starred dot
    in a group, and [$], anchored by [^] under the flags [g] and [m].  Its
    match at the head of [s], a place where [^] holds: a bullet, the
    longest run of white space, which has to have a character, and the
    longest run of characters that are no line terminators.  [$] holds
    where that run stops, so the greedy first attempt is the match. *)
Definition bullet_line (s : jsstring) : option jsstring :=
  match s with
  | c :: s1 =>
      if is_bullet c then
        match takeWhile is_whitespace s1 with
        | [] => None
        | ws =>
            Some (c :: ws
                    ++ takeWhile (fun x => negb (is_line_terminator x))
                         (dropWhile is_whitespace s1))
        end
      else None
  | [] => None
  end.

(** [summary.match(pattern)]: the matches from left to right.
    [skip] counts the characters of the last match still to pass over, and
    [line_start] tells whether the character before is a line terminator
    (or there is none).  No match is the empty list, as [null] is turned
    into by [|| []]. *)
Fixpoint bullet_lines (s : jsstring) (skip : nat) (line_start : bool)
  : list jsstring :=
  match s with
  | [] => []
  | c :: s' =>
      match skip with
      | S k => bullet_lines s' k (is_line_terminator c)
      | O =>
          match (if line_start then bullet_line (c :: s') else None) with
          | Some m =>
              m :: bullet_lines s' (length m - 1) (is_line_terminator c)
          | None => bullet_lines s' 0 (is_line_terminator c)
          end
      end
  end.

(** [s.replace(/^[\*\-]\s+/, '')]. *)
Definition strip_bullet (s : jsstring) : jsstring :=
  match s with
  | c :: s1 =>
      if is_bullet c && truthy (takeWhile is_whitespace s1)
      then dropWhile is_whitespace s1
      else s
  | [] => []
  end.

(** [summary.match(...)?.slice(0, 3).map(s => s.replace(...)) || []] *)
Definition highlights (summary : jsstring) : list jsstring :=
  map strip_bullet (firstn 3 (bullet_lines summary 0 true)).

(** ** File names and query strings *)

(** The class of the replacement in file names: the characters
    [< > : / \ | ? *] and the double quote. *)
Definition is_forbidden (c : N) : bool :=
  ((c =? 60) || (c =? 62) || (c =? 58) || (c =? 34) || (c =? 47)
   || (c =? 92) || (c =? 124) || (c =? 63) || (c =? 42))%N.

(** [s.replace(pattern, '_')] for the pattern of one or more characters
    of the class, under the flag [g]: every maximal run of characters of
    the class becomes one underscore. *)
Fixpoint replace_runs (s : jsstring) (in_run : bool) : jsstring :=
  match s with
  | [] => []
  | c :: s' =>
      if is_forbidden c then
        if in_run then replace_runs s' true
        else 95%N :: replace_runs s' true
      else c :: replace_runs s' false
  end.

(** The [safeFilename] of the conversion endpoint, and the same
    replacement in [downloadAudio] and [downloadMarkdown]. *)
Definition safeFilename (filename : jsstring) : jsstring :=
  replace_runs filename false.

(** The characters [encodeURIComponent] leaves alone: letters, digits and
    [- _ . ! ~ * ' ( )]. *)
Definition is_unreserved (c : N) : bool :=
  ((48 <=? c) && (c <=? 57) || (65 <=? c) && (c <=? 90)
   || (97 <=? c) && (c <=? 122)
   || (c =? 45) || (c =? 95) || (c =? 46) || (c =? 33) || (c =? 126)
   || (c =? 42) || (c =? 39) || (c =? 40) || (c =? 41))%N.

Definition hex_digit (n : N) : N :=
  nth (N.to_nat n) (lit "0123456789ABCDEF") 48%N.

(** A byte as a percent sign and two upper-case hexadecimal digits. *)
Definition percent (byte : N) : jsstring :=
  [37%N; hex_digit (byte / 16); hex_digit (byte mod 16)].

(** The UTF-8 encoding of a code point. *)
Definition utf8 (cp : N) : list N :=
  (if cp <? 128 then [cp]
   else if cp <? 2048 then [192 + cp / 64; 128 + cp mod 64]
   else if cp <? 65536 then
     [224 + cp / 4096; 128 + (cp / 64) mod 64; 128 + cp mod 64]
   else
     [240 + cp / 262144; 128 + (cp / 4096) mod 64; 128 + (cp / 64) mod 64;
      128 + cp mod 64])%N.

Definition is_high_surrogate (c : N) : bool :=
  ((55296 <=? c) && (c <=? 56319))%N.
Definition is_low_surrogate (c : N) : bool :=
  ((56320 <=? c) && (c <=? 57343))%N.

Definition escape (cp : N) : jsstring := flat_map percent (utf8 cp).

(** [encodeURIComponent(s)]; [None] is the [URIError] thrown at a
    surrogate without its pair. *)
Fixpoint encodeURIComponent (s : jsstring) : option jsstring :=
  match s with
  | [] => Some []
  | c :: s' =>
      if is_unreserved c then option_map (cons c) (encodeURIComponent s')
      else if is_low_surrogate c then None
      else if is_high_surrogate c then
        match s' with
        | d :: s'' =>
            if is_low_surrogate d then
              option_map
                (app (escape ((c - 55296) * 1024 + (d - 56320) + 65536)%N))
                (encodeURIComponent s'')
            else None
        | [] => None
        end
      else option_map (app (escape c)) (encodeURIComponent s')
  end.

(** ** The two helpers that reach the platform (part_001, lines 30-103) *)

Module Helpers.

(** What a [catch] block of the helpers looks at in the value it caught:
    [axios.isAxiosError(error)] and [error.code]. *)
Record failure := mkFailure {
  isAxiosError : bool;
  code : option jsstring
}.

(** What [parseXiaoyuzhouUrl] reads in the page it loaded:
    [$('audio source').attr('src')],
    [$('meta[property=og:audio]').attr('content')],
    [$('h1').first().text()] and
    [$('meta[property=og:title]').attr('content')] (the attribute values
    are quoted in the source). *)
Record episode_page := mkPage {
  audio_source_src : option jsstring;
  og_audio : option jsstring;
  h1_text : jsstring;
  og_title : option jsstring
}.

(** '无法找到音频链接 (可能非单集页面)' *)
Definition no_audio_link : jsstring :=
  [26080; 27861; 25214; 21040; 38899; 39057; 38142; 25509; 32; 40; 21487;
   33021; 38750; 21333; 38598; 39029; 38754; 41]%N.
(** '连接小宇宙超时，请检查网络或链接' *)
Definition parse_timeout : jsstring :=
  [36830; 25509; 23567; 23431; 23449; 36229; 26102; 65292; 35831; 26816;
   26597; 32593; 32476; 25110; 38142; 25509]%N.
(** '解析链接失败，请确认链接是否有效' *)
Definition parse_failed : jsstring :=
  [35299; 26512; 38142; 25509; 22833; 36133; 65292; 35831; 30830; 35748;
   38142; 25509; 26159; 21542; 26377; 25928]%N.

(** A value caught by the [catch] of [parseXiaoyuzhouUrl]: what the [try]
    block met on its way, or the [Error] it threw itself, which is no
    axios error. *)
Inductive caught : Type :=
| Met (f : failure)
| Own (e : js_error).

Definition timed_out (err : caught) : bool :=
  match err with
  | Met f => isAxiosError f && code_is (code f) (lit "ECONNABORTED")
  | Own _ => false
  end.

(** The [try] block, given the answer of [axios.get] as [cheerio] reads
    it. *)
Definition parse_attempt (get : failure + episode_page)
  : caught + jsstring * jsstring :=
  match get with
  | inl f => inl (Met f)
  | inr page =>
      let audioUrl :=
        or_else (or_else (or_empty (audio_source_src page))
                   (or_empty (og_audio page))) [] in
      let title :=
        or_else (or_else (trim (h1_text page)) (or_empty (og_title page)))
          (lit "Unknown Podcast") in
      if negb (truthy audioUrl) then inl (Own (new_Error no_audio_link))
      else inr (audioUrl, title)
  end.

Definition parseXiaoyuzhouUrl (get : failure + episode_page)
  : outcome (jsstring * jsstring) :=
  match parse_attempt get with
  | inr r => Returned r
  | inl err =>
      if timed_out err then Thrown (new_Error parse_timeout)
      else Thrown (new_Error parse_failed)
  end.

(** The extension [downloadAudioToStream] resolves to, given
    [new URL(url).pathname], [None] when the constructor throws: the three
    tests in the order of the source, a later one overriding. *)
Definition extension_of (pathname : option jsstring) : extension :=
  let extension := mp3 in
  match pathname with
  | None => extension
  | Some urlPath =>
      let extension :=
        if endsWith urlPath (lit ".m4a") then m4a else extension in
      let extension :=
        if endsWith urlPath (lit ".mp4") then mp4 else extension in
      let extension :=
        if endsWith urlPath (lit ".wav") then wav else extension in
      extension
  end.

End Helpers.

(** ** The conversion endpoint (part_001, lines 620-677) *)

Module ProxyAudio.

(** What the endpoint does to the outside: the request to the source of
    the audio, and the start of the conversion. *)
Inductive action : Type :=
| Fetch (url : jsstring)
| Convert.

(** [NextResponse.json({ error }, { status })], or the response that
    streams the converted audio with its two headers. *)
Inductive answer : Type :=
| ErrorJson (status : Z) (error : jsstring)
| Mp3Stream (status : Z) (contentType contentDisposition : jsstring).

(** The template [attachment; filename=<name>.mp3], the name and its
    extension between double quotes. *)
Definition attachment (name : jsstring) : jsstring :=
  lit "attachment; filename=" ++ [34%N] ++ name ++ lit ".mp3" ++ [34%N].

(** [GET], given [searchParams.get('url')], [searchParams.get('filename')]
    and the outcome of the request to the source. *)
Definition GET (url filename : option jsstring) (upstream : outcome unit)
  : list action * answer :=
  let filename := or_else (or_empty filename) (lit "podcast") in
  if negb (truthy (or_empty url)) then
    ([], ErrorJson 400 (lit "Missing url parameter"))
  else
    match upstream with
    | Thrown _ =>
        ([Fetch (or_empty url)], ErrorJson 500 (lit "Failed to process audio"))
    | Returned _ =>
        match encodeURIComponent (safeFilename filename) with
        | Some name =>
            ([Fetch (or_empty url); Convert],
             Mp3Stream 200 (lit "audio/mpeg") (attachment name))
        | None =>
            ([Fetch (or_empty url); Convert],
             ErrorJson 500 (lit "Failed to process audio"))
        end
    end.

End ProxyAudio.

(** ** The stream between the handler and the page *)

(** What [send] enqueues for a serialized object:
    `data: ${JSON.stringify(data)} \n\n` (part_001, line 477). *)
Definition sse_frame (text : jsstring) : jsstring :=
  lit "data: " ++ text ++ [32; 10; 10]%N.

(** [chunk.split('\n').filter(line => line.startsWith('data: '))]
    (page.tsx, line 82). *)
Definition data_lines (chunk : jsstring) : list jsstring :=
  filter (fun line => startsWith line (lit "data: ")) (lines_from chunk []).

(** The argument of [JSON.parse]: [line.replace('data: ', '')]. *)
Definition payload_text (line : jsstring) : jsstring :=
  remove_first (lit "data: ") line.

(** ** The page (src/app/page.tsx) *)

Module Page.

(** [ProcessStage]: ['idle'] or a stage of the handler. *)
Inductive ProcessStage : Set :=
| idle
| at_stage (s : stage).

(** The state of [Home] that [handleSubmit] writes. *)
Record state := mkState {
  ui_loading : bool;
  ui_stage : ProcessStage;
  ui_progress : Z;
  ui_result : option payload;
  ui_error : jsstring;
  ui_message : option notice
}.

Definition initial : state := mkState false idle 0 None [] None.

(** What [fetch] comes back with. *)
Inductive reply : Type :=
| Unreachable (message : jsstring)
    (* fetch rejects with an Error *)
| NotOk (status : Z) (body : option jsstring)
    (* response.ok is false; the body's errorData.error, None when
       response.json() rejects *)
| NoBody
    (* response.body is null *)
| Stream (reads : list (list event)).
    (* the objects decoded from each read of the body *)

(** '连接服务器失败', `请求失败 (${response.status})`, '无法建立流式连接' *)
Definition connect_failed : jsstring :=
  [36830; 25509; 26381; 21153; 22120; 22833; 36133]%N.
Definition request_failed (status : Z) : jsstring :=
  [35831; 27714; 22833; 36133; 32; 40]%N
  ++ lit (NilZero.string_of_int (Z.to_int status)) ++ [41%N].
Definition no_stream : jsstring :=
  [26080; 27861; 24314; 31435; 27969; 24335; 36830; 25509]%N.

(** The body of the loop over the lines of a read, after [JSON.parse]:
    the state after the object, and the message of the [Error] thrown at
    an [error] object. *)
Definition receive (data : event) (st : state) : state * option jsstring :=
  if stage_eqb (ev_stage data) error then
    (st, Some (or_else (or_empty (ev_error data)) unknown_error))
  else
    let st1 :=
      mkState (ui_loading st) (at_stage (ev_stage data)) (ui_progress st)
        (ui_result st) (ui_error st) (ui_message st) in
    let st2 :=
      match ev_message data with
      | Some m =>
          mkState (ui_loading st1) (ui_stage st1) (ui_progress st1)
            (ui_result st1) (ui_error st1) (Some m)
      | None => st1
      end in
    let st3 :=
      match ev_progress data with
      | Some p =>
          mkState (ui_loading st2) (ui_stage st2) p (ui_result st2)
            (ui_error st2) (ui_message st2)
      | None => st2
      end in
    let st4 :=
      match ev_data data with
      | Some d =>
          (* { ...prev, ...data.data }: data.data has every field *)
          mkState (ui_loading st3) (ui_stage st3) (ui_progress st3) (Some d)
            (ui_error st3) (ui_message st3)
      | None => st3
      end in
    (st4, None).

(** The loop over the objects of a read. *)
Fixpoint receive_all (lines : list event) (st : state)
  : state * option jsstring :=
  match lines with
  | [] => (st, None)
  | data :: rest =>
      match receive data st with
      | (st', None) => receive_all rest st'
      | thrown => thrown
      end
  end.

(** The [while] loop over the reads. *)
Fixpoint read_all (reads : list (list event)) (st : state)
  : state * option jsstring :=
  match reads with
  | [] => (st, None)
  | lines :: rest =>
      match receive_all lines st with
      | (st', None) => read_all rest st'
      | thrown => thrown
      end
  end.

(** The [catch] of [handleSubmit]. *)
Definition fail (message : jsstring) (st : state) : state :=
  mkState false (at_stage error) (ui_progress st) (ui_result st) message
    (ui_message st).

(** [handleSubmit], given what [fetch] answers to the request. *)
Definition handleSubmit (fetch : request -> reply) (url apiKey : jsstring)
  (st : state) : state :=
  if negb (truthy (trim url)) then st
  else
    let st0 := mkState true (at_stage parsing) 0 None [] None in
    match fetch (request_for url (Some apiKey)) with
    | Unreachable message => fail message st0
    | NotOk status body =>
        let errorMessage :=
          match body with
          | Some e => or_else e connect_failed
          | None => request_failed status
          end in
        fail errorMessage st0
    | NoBody => fail no_stream st0
    | Stream reads =>
        match read_all reads st0 with
        | (st1, None) =>
            mkState false (ui_stage st1) (ui_progress st1) (ui_result st1)
              (ui_error st1) (ui_message st1)
        | (st1, Some message) => fail message st1
        end
    end.

(** What a click on the download button does: the link it follows and the
    name it proposes, or the original address opened when building the
    link threw. *)
Inductive click : Type :=
| Follow (href download : jsstring)
| Open (url : jsstring).

(** [downloadAudio] *)
Definition downloadAudio (url filename : jsstring) : click :=
  match encodeURIComponent url, encodeURIComponent filename with
  | Some u, Some f =>
      Follow (lit "/api/proxy-audio?url=" ++ u ++ lit "&filename=" ++ f)
        (or_else (safeFilename filename) (lit "podcast") ++ lit ".mp3")
  | _, _ => Open url
  end.

(** The name [downloadMarkdown] proposes. *)
Definition markdown_name (title : jsstring) : jsstring :=
  or_else (safeFilename title) (lit "summary") ++ lit ".md".

End Page.

(** ** The request between the page and the handler *)

(** The white space [fetch] strips from both ends of the value of a
    header: tab, line feed, carriage return and space. *)
Definition is_http_whitespace (c : N) : bool :=
  ((c =? 9) || (c =? 10) || (c =? 13) || (c =? 32))%N.

(** The value of a header as [fetch] sends it, for the string the page
    gives: a string with a code unit above 255 is no byte string; the
    white space at both ends is stripped; what is left must hold no NUL
    character, no line feed and no carriage return.  [None] is the
    [TypeError] that [fetch] rejects with, no request being made. *)
Definition header_value (v : jsstring) : option jsstring :=
  if existsb (fun c => 255 <? c)%N v then None
  else
    let value :=
      reverse (dropWhile is_http_whitespace
                 (reverse (dropWhile is_http_whitespace v))) in
    if existsb (fun c => (c =? 0) || (c =? 10) || (c =? 13))%N value
    then None
    else Some value.

(** The characters HTTP allows in the value of a field: the tab, the
    space, the visible characters of ASCII and the bytes from 128 on. *)
Definition is_field_content (c : N) : bool :=
  ((c =? 9) || (32 <=? c) && (c <=? 126) || (128 <=? c) && (c <=? 255))%N.

(** The handler as the page's [fetch] sees it.  [fetch] rejects, with
    the message [rejection], when the key is no header value.  A value
    with a character that HTTP does not allow may be refused before the
    handler is reached: [refusal] is what the page gets then.  Otherwise
    the handler reads the value [fetch] sent: its JSON answers are not
    [ok] and carry their message, and its stream is read in the portions
    [portions] cuts it into. *)
Definition served (E : env) (portions : list event -> list (list event))
  (rejection : jsstring) (refusal : Page.reply) (r : request)
  : Page.reply :=
  match header_value (or_empty (req_api_key r)) with
  | None => Page.Unreachable rejection
  | Some key =>
      if forallb is_field_content key then
        match run E (mkRequest (req_body r) (Some key)) with
        | (Returned (Json status message), _) =>
            Page.NotOk status (Some message)
        | (Returned EventStream, w) => Page.Stream (portions (sent (trace w)))
        | (Thrown e, _) => Page.Unreachable (e_message e)
        end
      else refusal
  end.

(** ** The dialog of the API key (src/app/components/ApiKeyModal.tsx) *)

Module ApiKeyModal.

(** The state of the dialog, the entry [groq_api_key] of [localStorage],
    the key handed to the page by [onKeySet] ([None] before the first
    call), and whether the listener of the event [open-api-key-modal] is
    registered. *)
Record state := mkState {
  isOpen : bool;
  error_text : jsstring;
  isShaking : bool;
  stored_key : option jsstring;
  page_key : option jsstring;
  listening : bool
}.

(** 'Key 格式似乎不正确，请检查是否以 gsk_ 开头', with gsk_ between double
    quotes. *)
Definition bad_key_format : jsstring :=
  [75; 101; 121; 32; 26684; 24335; 20284; 20046; 19981; 27491; 30830; 65292;
   35831; 26816; 26597; 26159; 21542; 20197; 32; 34; 103; 115; 107; 95; 34;
   32; 24320; 22836]%N.

(** A page just loaded, with what [localStorage] holds. *)
Definition loaded (stored : option jsstring) : state :=
  mkState false [] false stored None false.

(** The effect run when the dialog is mounted, with its timer elapsed: a
    stored key is handed to the page and the listener is registered; with
    no stored key the dialog opens and the effect returns before it
    registers the listener. *)
Definition mount (st : state) : state :=
  if truthy (or_empty (stored_key st)) then
    mkState (isOpen st) (error_text st) (isShaking st) (stored_key st)
      (stored_key st) true
  else
    mkState true (error_text st) (isShaking st) (stored_key st) (page_key st)
      (listening st).

(** [handleSubmit] on the text of the input field, with the timer of the
    shaking elapsed. *)
Definition handleSubmit (apiKey : jsstring) (st : state) : state :=
  if startsWith (trim apiKey) (lit "gsk_") then
    mkState false [] (isShaking st) (Some (trim apiKey)) (Some (trim apiKey))
      (listening st)
  else
    mkState (isOpen st) bad_key_format false (stored_key st) (page_key st)
      (listening st).

(** The event [open-api-key-modal], dispatched by the page's button. *)
Definition open_event (st : state) : state :=
  if listening st then
    mkState true (error_text st) (isShaking st) (stored_key st) (page_key st)
      true
  else st.

(** What happens to a mounted dialog: the form is submitted with a text,
    or the page's button dispatches the event. *)
Inductive input : Type :=
| Submit (apiKey : jsstring)
| OpenEvent.

Definition step (st : state) (i : input) : state :=
  match i with
  | Submit apiKey => handleSubmit apiKey st
  | OpenEvent => open_event st
  end.

(** A visit of the page: the dialog is mounted on what [localStorage]
    holds, then the inputs happen in order. *)
Definition visit (stored : option jsstring) (inputs : list input) : state :=
  fold_left step inputs (mount (loaded stored)).

End ApiKeyModal.

(** * Vocabulary of the further properties *)

(** [m] is a bullet, a run of white space and the text [body], which
    holds no line terminator and does not start with white space. *)
Definition bulleted (m body : jsstring) : Prop :=
  exists b ws,
    m = b :: ws ++ body
    /\ is_bullet b = true
    /\ ws <> [] /\ forallb is_whitespace ws = true
    /\ forallb (fun c => negb (is_line_terminator c)) body = true
    /\ match body with
       | [] => True
       | c :: _ => is_whitespace c = false
       end.

(** [m] stands in [text] between [pre] and [post], from the start of a
    line to the end of a line. *)
Definition spans_lines (text pre m post : jsstring) : Prop :=
  text = pre ++ m ++ post
  /\ (pre = [] \/ exists p c, pre = p ++ [c] /\ is_line_terminator c = true)
  /\ match post with
     | [] => True
     | c :: _ => is_line_terminator c = true
     end.

(** The characters that delimit a query string and its parameters:
    [& = ? # +] and the space. *)
Definition is_separator (c : N) : bool :=
  existsb (N.eqb c) (lit "&=?#+ ").

(** A code unit that is half of a surrogate pair. *)
Definition is_surrogate (c : N) : bool :=
  is_high_surrogate c || is_low_surrogate c.

(** The string holds a surrogate without its pair: at some index a high
    surrogate that no low surrogate follows, or a low surrogate that no
    high surrogate precedes. *)
Definition lone_surrogate (s : jsstring) : Prop :=
  exists i c,
    nth_error s i = Some c
    /\ ((is_high_surrogate c = true
         /\ forall d, nth_error s (S i) = Some d ->
                      is_low_surrogate d = false)
        \/ (is_low_surrogate c = true
            /\ forall j p, i = S j -> nth_error s j = Some p ->
                           is_high_surrogate p = false)).

(** The same world with another resolver of the episode page. *)
Definition with_resolver (E : env)
  (result : outcome (jsstring * jsstring)) : env :=
  mkEnv (tmpdir E) (session_id E) (GROQ_API_KEY E) (mkdir_result E)
    (rename_result E) (rm_result E) (readdir_result E) result
    (download_result E) (ffprobe_result E) (ffmpeg_result E)
    (speech_to_text E) (chat_completion E).

(** A page with a heading and no audio, as [parseXiaoyuzhouUrl] reads
    it. *)
Definition page_without_audio : Helpers.failure + Helpers.episode_page :=
  inr (Helpers.mkPage None None (lit "Episode") None).

(** What the stream ends with after the error [e]: the [error] event, the
    closing of the stream and the removal of the directory [d]. *)
Definition report (d : jsstring) (e : js_error) : list effect :=
  [Send (error_event (stream_error_message e)); Close; Rm d].

(** The effects of a job up to the answer of the resolver, and up to the
    answer of the download from [audioUrl]. *)
Definition parsed (d : jsstring) : list effect :=
  [Mkdir d; Send (progress_event parsing 1); Sleep 100;
   Send (progress_event parsing 5); Resolve].
Definition fetched (d audioUrl : jsstring) : list effect :=
  parsed d
  ++ [Send (progress_event downloading 10);
      Download audioUrl (path_join d (lit "download_audio_temp"))].
Definition renamed (d audioUrl : jsstring) (x : extension) : list effect :=
  fetched d audioUrl
  ++ [Rename (path_join d (lit "download_audio_temp"))
        (path_join d (lit "input" ++ ext_string x))].

(** Four hundred seconds of audio, cut into three windows. *)
Definition three_windows_env : env :=
  calm_env 400 3 (lit "hello") heading_answer.


(** * Properties *)

Unset Implicit Arguments.

(** ** JavaScript strings *)

Section StringFacts.

Lemma reverse_rev (s : jsstring) : reverse s = rev s.
Proof. unfold reverse. symmetry. apply rev_alt. Qed.

Lemma dropWhile_length (f : N -> bool) (s : jsstring) :
  length (dropWhile f s) <= length s.
Proof.
  induction s as [|c s IH]; simpl; [lia|].
  destruct (f c); simpl; lia.
Qed.

Lemma trim_length (s : jsstring) : length (trim s) <= length s.
Proof.
  unfold trim, trimEnd, trimStart. rewrite !reverse_rev.
  rewrite length_rev.
  etransitivity; [apply dropWhile_length|].
  rewrite length_rev. apply dropWhile_length.
Qed.

Lemma dropWhile_head (f : N -> bool) (s : jsstring) :
  match dropWhile f s with
  | [] => True
  | c :: _ => f c = false
  end.
Proof.
  induction s as [|c s IH]; simpl; [exact I|].
  destruct (f c) eqn:Hc; [exact IH|exact Hc].
Qed.

Lemma dropWhile_fixed (f : N -> bool) (s : jsstring) :
  match s with [] => True | c :: _ => f c = false end ->
  dropWhile f s = s.
Proof.
  destruct s as [|c s]; simpl; [reflexivity|].
  intros ->. reflexivity.
Qed.

Lemma dropWhile_suffix (f : N -> bool) (s : jsstring) :
  exists p, s = p ++ dropWhile f s /\ forallb f p = true.
Proof.
  induction s as [|c s [p [Hp Hf]]]; simpl.
  - exists []. split; reflexivity.
  - destruct (f c) eqn:Hc.
    + exists (c :: p). simpl. rewrite Hc, Hf.
      split; [f_equal; exact Hp|reflexivity].
    + exists []. split; reflexivity.
Qed.

(** [trim] removes a prefix and a suffix made of white space only. *)
Lemma trim_inside (s : jsstring) :
  exists p q, s = p ++ trim s ++ q
              /\ forallb is_whitespace p = true
              /\ forallb is_whitespace q = true.
Proof.
  unfold trim, trimEnd, trimStart. rewrite !reverse_rev.
  destruct (dropWhile_suffix is_whitespace s) as [p [Hp Hfp]].
  destruct (dropWhile_suffix is_whitespace (rev (dropWhile is_whitespace s)))
    as [q [Hq Hfq]].
  exists p, (rev q). repeat split.
  - rewrite <- rev_app_distr, <- Hq, rev_involutive. exact Hp.
  - exact Hfp.
  - rewrite forallb_forall in *. intros x Hx. apply Hfq.
    apply in_rev. exact Hx.
Qed.

(** The result of [trim] neither starts nor ends with white space. *)
Lemma trim_idempotent (s : jsstring) : trim (trim s) = trim s.
Proof.
  unfold trim, trimEnd, trimStart. rewrite !reverse_rev.
  set (a := dropWhile is_whitespace s).
  set (b := dropWhile is_whitespace (rev a)).
  assert (Hb : match b with [] => True | c :: _ => is_whitespace c = false end)
    by apply dropWhile_head.
  assert (Ha : match a with [] => True | c :: _ => is_whitespace c = false end)
    by apply dropWhile_head.
  assert (Hrb : match rev b with
                | [] => True
                | c :: _ => is_whitespace c = false
                end).
  { destruct (dropWhile_suffix is_whitespace (rev a)) as [p [Hp _]].
    fold b in Hp.
    assert (Hra : a = rev b ++ rev p).
    { rewrite <- rev_app_distr, <- Hp, rev_involutive. reflexivity. }
    destruct (rev b) as [|c r] eqn:Hr; [exact I|].
    rewrite Hra in Ha. simpl in Ha. exact Ha. }
  rewrite (dropWhile_fixed _ _ Hrb), rev_involutive.
  rewrite (dropWhile_fixed _ _ Hb). reflexivity.
Qed.

Lemma compare_refl (a : jsstring) : JS.compare a a = Eq.
Proof.
  induction a as [|x a IH]; simpl; [reflexivity|].
  rewrite N.compare_refl. exact IH.
Qed.

Lemma compare_eq (a b : jsstring) : JS.compare a b = Eq -> a = b.
Proof.
  revert b. induction a as [|x a IH]; destruct b as [|y b]; simpl;
    try discriminate; [reflexivity|].
  destruct (N.compare x y) eqn:Hxy; try discriminate.
  apply N.compare_eq in Hxy. intros H. rewrite (IH _ H), Hxy. reflexivity.
Qed.

Lemma compare_antisym (a b : jsstring) :
  JS.compare b a = CompOpp (JS.compare a b).
Proof.
  revert b. induction a as [|x a IH]; destruct b as [|y b]; simpl;
    try reflexivity.
  rewrite (N.compare_antisym x y).
  destruct (N.compare x y); simpl; auto.
Qed.

Lemma compare_trans (a b c : jsstring) :
  JS.compare a b = Lt -> JS.compare b c = Lt -> JS.compare a c = Lt.
Proof.
  revert b c. induction a as [|x a IH]; destruct b as [|y b];
    destruct c as [|z c]; simpl; try discriminate; try reflexivity.
  destruct (N.compare x y) eqn:Hxy; try discriminate.
  - apply N.compare_eq in Hxy. subst y.
    destruct (N.compare x z); try discriminate; [apply IH|reflexivity].
  - intros _. destruct (N.compare y z) eqn:Hyz; try discriminate.
    + apply N.compare_eq in Hyz. subst z. rewrite Hxy. reflexivity.
    + intros _. rewrite N.compare_lt_iff in *.
      assert (Hxz : (x < z)%N) by lia.
      rewrite <- N.compare_lt_iff in Hxz. rewrite Hxz. reflexivity.
Qed.

Lemma eqb_eq (a b : jsstring) : JS.eqb a b = true <-> a = b.
Proof.
  unfold JS.eqb. destruct (list_eq_dec N.eq_dec a b); split; congruence.
Qed.

End StringFacts.

(** ** splitTranscriptIntoChunks *)

Section Chunking.

(** [split] loses nothing: the pieces, in order, make up the string. *)
Lemma split_go_concat (s cur : jsstring) (b : bool) :
  concat (split_go s cur b) = rev cur ++ s.
Proof.
  revert cur b. induction s as [|c s IH]; intros cur b; simpl;
    rewrite ?reverse_rev.
  - destruct b; simpl; rewrite ?app_nil_r; reflexivity.
  - destruct (is_sentence_end c), b; simpl; rewrite IH; simpl;
      rewrite <- ?app_assoc; reflexivity.
Qed.

Lemma split_sentences_concat (t : jsstring) :
  concat (split_sentences t) = t.
Proof. unfold split_sentences. rewrite split_go_concat. reflexivity. Qed.

Lemma forallb_rev (f : N -> bool) (l : jsstring) :
  forallb f (rev l) = forallb f l.
Proof.
  induction l as [|x l IH]; simpl; [reflexivity|].
  rewrite forallb_app, IH. simpl. rewrite andb_true_r. apply andb_comm.
Qed.

Lemma split_go_pieces (s cur : jsstring) (b : bool) :
  (if b then forallb is_sentence_end cur = true
   else forallb (fun c => negb (is_sentence_end c)) cur = true) ->
  Forall sentence_piece (split_go s cur b).
Proof.
  revert cur b. induction s as [|c s IH]; intros cur b Hcur; simpl;
    rewrite ?reverse_rev.
  - destruct b.
    + constructor; [right; rewrite forallb_rev; exact Hcur|].
      constructor; [left; reflexivity|constructor].
    + constructor; [left; rewrite forallb_rev; exact Hcur|constructor].
  - destruct (is_sentence_end c) eqn:Hc, b.
    + apply IH. simpl. rewrite Hc, Hcur. reflexivity.
    + constructor; [left; rewrite forallb_rev; exact Hcur|].
      apply IH. simpl. rewrite Hc. reflexivity.
    + constructor; [right; rewrite forallb_rev; exact Hcur|].
      apply IH. simpl. rewrite Hc. reflexivity.
    + apply IH. simpl. rewrite Hc, Hcur. reflexivity.
Qed.

Lemma split_sentences_pieces (t : jsstring) :
  Forall sentence_piece (split_sentences t).
Proof. apply split_go_pieces. reflexivity. Qed.

Variable C : nat.
Variable pieces : list jsstring.

Let admissible := admissible C pieces.

(** The loop invariant: the chunks pushed are the trimmed slices, and
    the slices followed by the current chunk are the text read so far. *)
Lemma chunk_loop_slices (todo : list jsstring) :
  forall chunks cur,
    incl todo pieces ->
    admissible cur ->
    exists flushed cur',
      fold_left (chunk_step C) todo (chunks, cur)
      = (chunks ++ map trim flushed, cur')
      /\ concat flushed ++ cur' = cur ++ concat todo
      /\ Forall admissible flushed
      /\ admissible cur'.
Proof.
  induction todo as [|s todo IH]; intros chunks cur Hincl Hcur.
  - exists [], cur. simpl. rewrite !app_nil_r. auto.
  - assert (Hs : In s pieces) by (apply Hincl; left; reflexivity).
    assert (Hincl' : incl todo pieces)
      by (intros x Hx; apply Hincl; right; exact Hx).
    cbn [fold_left].
    destruct (chunk_step C (chunks, cur) s) as [chunks1 cur1] eqn:Hstep.
    unfold chunk_step in Hstep.
    destruct ((C <? length cur + length s) && (0 <? length cur)) eqn:Hc;
      injection Hstep as <- <-.
    + apply andb_prop in Hc. destruct Hc as [H1 H2].
      apply Nat.ltb_lt in H1. apply Nat.ltb_lt in H2.
      assert (Hadm : admissible s).
      { destruct (Nat.le_gt_cases (length s) C); [left; assumption|].
        right. split; assumption. }
      destruct (IH (chunks ++ [trim cur]) s Hincl' Hadm)
        as [fl [cur' [Hf [Hcat [Hall Hc']]]]].
      exists (cur :: fl), cur'. simpl.
      rewrite Hf, <- !app_assoc. simpl.
      repeat split; auto. rewrite Hcat. reflexivity.
    + assert (Hadm : admissible (cur ++ s)).
      { apply andb_false_iff in Hc. destruct Hc as [Hc|Hc].
        - apply Nat.ltb_ge in Hc. left. rewrite length_app. exact Hc.
        - apply Nat.ltb_ge in Hc. destruct cur; simpl in Hc; [|lia].
          simpl. destruct (Nat.le_gt_cases (length s) C);
            [left; assumption|right; split; assumption]. }
      destruct (IH chunks (cur ++ s) Hincl' Hadm)
        as [fl [cur' [Hf [Hcat [Hall Hc']]]]].
      exists fl, cur'. rewrite Hf. repeat split; auto.
      rewrite Hcat, <- app_assoc. reflexivity.
Qed.

Lemma pushed_chunks_snoc (flushed : list jsstring) (cur : jsstring) :
  pushed_chunks (flushed ++ [cur])
  = map trim flushed ++ (if truthy (trim cur) then [trim cur] else []).
Proof.
  unfold pushed_chunks. rewrite removelast_last, last_last. reflexivity.
Qed.

End Chunking.

Lemma split_short (t : jsstring) (C : nat) :
  length t <= C -> splitTranscriptIntoChunks t C = [t].
Proof.
  intros H. unfold splitTranscriptIntoChunks.
  apply Nat.leb_le in H. rewrite H. reflexivity.
Qed.

Lemma split_long_slices (t : jsstring) (C : nat) :
  C < length t ->
  exists slices,
    concat slices = t
    /\ splitTranscriptIntoChunks t C = pushed_chunks slices
    /\ Forall (admissible C (split_sentences t)) slices.
Proof.
  intros H. unfold splitTranscriptIntoChunks.
  apply Nat.leb_gt in H. rewrite H.
  destruct (chunk_loop_slices C (split_sentences t) (split_sentences t)
              [] [] (incl_refl _)) as [fl [cur [Hf [Hcat [Hall Hcur]]]]].
  { left. simpl. lia. }
  cbv zeta.
  match goal with
  | |- context [fold_left ?f ?l ?a] =>
      destruct (fold_left f l a) as [chunks currentChunk] eqn:Hfold
  end.
  assert (Heq : (chunks, currentChunk) = (map trim fl, cur))
    by (rewrite <- Hfold; exact Hf).
  injection Heq as -> ->.
  exists (fl ++ [cur]). repeat split.
  - rewrite concat_app. simpl. rewrite app_nil_r, Hcat.
    apply split_sentences_concat.
  - rewrite pushed_chunks_snoc.
    destruct (truthy (trim cur)); rewrite ?app_nil_r; reflexivity.
  - apply Forall_app. split; [exact Hall|].
    constructor; [exact Hcur|constructor].
Qed.

Lemma pushed_chunks_in (slices : list jsstring) (c : jsstring) :
  In c (pushed_chunks slices) -> exists s, In s slices /\ c = trim s.
Proof.
  destruct slices as [|s0 slices] using rev_ind.
  - unfold pushed_chunks. simpl. tauto.
  - rewrite pushed_chunks_snoc. intros Hin. apply in_app_or in Hin.
    destruct Hin as [Hin|Hin].
    + apply in_map_iff in Hin. destruct Hin as [s [Hs Hin]].
      exists s. split; [apply in_or_app; left; exact Hin|symmetry; exact Hs].
    + destruct (truthy (trim s0)); [|destruct Hin].
      destruct Hin as [<-|[]]. exists s0. split; [|reflexivity].
      apply in_or_app. right. left. reflexivity.
Qed.

(** X23: every chunk of a transcript longer than the limit is emitted
    trimmed: it has no white space at either end. *)
Lemma split_long_chunks_trimmed (t : jsstring) (C : nat) :
  C < length t ->
  Forall (fun c => trim c = c) (splitTranscriptIntoChunks t C).
Proof.
  intros H. destruct (split_long_slices t C H) as [slices [_ [-> _]]].
  apply Forall_forall. intros c Hc.
  destruct (pushed_chunks_in _ _ Hc) as [s [_ ->]]. apply trim_idempotent.
Qed.

(** A long transcript made of white space only, with no sentence-ending
    character, yields no chunk at all. *)
Lemma split_blank_is_empty :
  length transcript_blank = 8001
  /\ splitTranscriptIntoChunks transcript_blank 8000 = [].
Proof. split; vm_compute; reflexivity. Qed.

(** A run of sentence-ending characters is one piece of the split: 8001
    full stops come out as one chunk of 8001 characters. *)
Lemma split_full_stops_oversized :
  splitTranscriptIntoChunks transcript_full_stops 8000
  = [transcript_full_stops].
Proof. vm_compute. reflexivity. Qed.

(** C5 (as stated, refuted): the chunks of this transcript, longer than
    the limit of 8000, do not concatenate back to it; the space before the
    full stop, which ends the first chunk, is trimmed away. *)
Lemma chunks_do_not_reconstruct :
  8000 < length transcript_space_before_stop
  /\ concat (splitTranscriptIntoChunks transcript_space_before_stop 8000)
     <> transcript_space_before_stop.
Proof.
  split.
  - apply Nat.ltb_lt. vm_compute. reflexivity.
  - intros H.
    assert (E : Nat.eqb
                  (length (concat (splitTranscriptIntoChunks
                                     transcript_space_before_stop 8000)))
                  (length transcript_space_before_stop) = false)
      by (vm_compute; reflexivity).
    rewrite H, Nat.eqb_refl in E. discriminate E.
Qed.

(** C5 (amended): a transcript longer than the limit [C] is cut into
    consecutive slices whose concatenation is the transcript; the chunks
    are the slices with the white space at both ends trimmed away, the
    last one being dropped when nothing is left of it; every slice is
    within the limit or is a single piece of the split (a stretch without
    sentence-ending character, or a run of such characters), so every
    chunk is within the limit or is such a piece, trimmed. *)
Theorem split_chunks_are_trimmed_slices (t : jsstring) (C : nat) :
  C < length t ->
  exists slices,
    concat slices = t
    /\ splitTranscriptIntoChunks t C = pushed_chunks slices
    /\ Forall (admissible C (split_sentences t)) slices
    /\ Forall sentence_piece (split_sentences t)
    /\ Forall (fun c =>
                 length c <= C
                 \/ exists p, In p (split_sentences t)
                              /\ C < length p /\ c = trim p)
         (splitTranscriptIntoChunks t C).
Proof.
  intros H. destruct (split_long_slices t C H) as [slices [Hcat [Heq Hall]]].
  exists slices. repeat split; auto using split_sentences_pieces.
  rewrite Heq. apply Forall_forall. intros c Hc.
  destruct (pushed_chunks_in _ _ Hc) as [s [Hs ->]].
  rewrite Forall_forall in Hall. destruct (Hall s Hs) as [Hle|[Hgt Hin]].
  - left. etransitivity; [apply trim_length|exact Hle].
  - right. exists s. auto.
Qed.

Lemma split_chunks_are_trimmed_slices_witness :
  8000 < length transcript_space_before_stop
  /\ exists slices,
       concat slices = transcript_space_before_stop
       /\ splitTranscriptIntoChunks transcript_space_before_stop 8000
          = pushed_chunks slices
       /\ Forall (admissible 8000
                    (split_sentences transcript_space_before_stop)) slices
       /\ Forall sentence_piece
            (split_sentences transcript_space_before_stop)
       /\ Forall (fun c =>
                    length c <= 8000
                    \/ exists p,
                         In p (split_sentences transcript_space_before_stop)
                         /\ 8000 < length p /\ c = trim p)
            (splitTranscriptIntoChunks transcript_space_before_stop 8000).
Proof.
  assert (H : 8000 < length transcript_space_before_stop)
    by (apply Nat.ltb_lt; vm_compute; reflexivity).
  split; [exact H|].
  exact (split_chunks_are_trimmed_slices transcript_space_before_stop 8000 H).
Defined.

(** C10 (the code at the failing input): a chunk of white space that is
    flushed inside the loop is pushed as the empty string, not dropped;
    only the last chunk is tested before it is pushed. *)
Theorem blank_chunk_is_pushed_empty :
  8000 < length transcript_blank_then_letter
  /\ splitTranscriptIntoChunks transcript_blank_then_letter 8000
     = [[]; [97%N]].
Proof.
  split.
  - apply Nat.ltb_lt. vm_compute. reflexivity.
  - vm_compute. reflexivity.
Qed.


(** ** transcribeSingleFile *)

Lemma startsWith_prefix (p s : jsstring) :
  startsWith s p = true <-> exists rest, s = p ++ rest.
Proof.
  revert s. induction p as [|x p IH]; intros s.
  - split; [intros _; exists s; reflexivity|destruct s; reflexivity].
  - destruct s as [|y s]; cbn [startsWith].
    + split; [discriminate|intros [rest H]; discriminate H].
    + rewrite andb_true_iff, N.eqb_eq, IH. split.
      * intros [-> [rest ->]]. exists rest. reflexivity.
      * intros [rest H]. injection H as -> ->.
        split; [reflexivity|exists rest; reflexivity].
Qed.

Lemma includes_occurs (p s : jsstring) :
  includes s p = true <-> occurs_in p s.
Proof.
  unfold occurs_in. induction s as [|c s IH]; cbn [includes].
  - rewrite orb_false_r, startsWith_prefix. split.
    + intros [rest H]. exists [], rest. exact H.
    + intros [before [after H]]. destruct before; [|discriminate H].
      exists after. exact H.
  - rewrite orb_true_iff, startsWith_prefix, IH. split.
    + intros [[rest H]|[before [after H]]].
      * exists [], rest. exact H.
      * exists (c :: before), after. rewrite H. reflexivity.
    + intros [[|b before] [after H]].
      * left. exists after. exact H.
      * right. injection H as _ H. exists before, after. exact H.
Qed.

Lemma code_is_eq (c : option jsstring) (name : jsstring) :
  code_is c name = true <-> c = Some name.
Proof.
  destruct c as [x|]; cbn [code_is]; [|split; discriminate].
  unfold JS.eqb. destruct (list_eq_dec N.eq_dec x name) as [->|Hne].
  - split; reflexivity.
  - split; [discriminate|]. intros H. injection H as H. contradiction.
Qed.

(** The test of the [catch] block is the class of the network failures. *)
Lemma isNetworkError_network_failure (e : js_error) :
  isNetworkError e = true <-> network_failure e.
Proof.
  unfold isNetworkError, network_failure.
  rewrite !orb_true_iff, !code_is_eq, !includes_occurs. tauto.
Qed.

Section Retry.

Variable E : env.
Variable filePath : jsstring.

Lemma grown_grown (w : world) (t u : list effect) :
  grown (grown w t) u = grown w (t ++ u).
Proof. unfold grown. simpl. rewrite app_assoc. reflexivity. Qed.

(** One attempt: the request, then the provider's answer. *)
Lemma attempt_run (attempt : nat) (w : world) :
  (emit (Transcribe filePath attempt) ;;
   await (speech_to_text E filePath attempt)) w
  = (speech_to_text E filePath attempt,
     grown w [Transcribe filePath attempt]).
Proof. reflexivity. Qed.

(** The loop stops at the first attempt [k] whose answer is not a
    network failure, or at the last attempt allowed. *)
Lemma transcribe_attempts_spec (maxRetries : nat) :
  forall remaining attempt w,
    attempt + remaining = maxRetries + 1 ->
    1 <= remaining ->
    exists k,
      attempt <= k <= maxRetries
      /\ (forall a, attempt <= a < k ->
            exists e, speech_to_text E filePath a = Thrown e
                      /\ isNetworkError e = true)
      /\ match speech_to_text E filePath k with
         | Returned _ => True
         | Thrown e => isNetworkError e = false \/ k = maxRetries
         end
      /\ transcribe_attempts E filePath maxRetries remaining attempt w
         = (speech_to_text E filePath k,
            grown w (attempts_trace filePath attempt (S k - attempt))).
Proof.
  induction remaining as [|remaining IH]; intros attempt w Hsum Hpos;
    [lia|].
  assert (Hstop : forall o,
             speech_to_text E filePath attempt = o ->
             match o with
             | Returned _ => True
             | Thrown e => isNetworkError e = false \/ attempt = maxRetries
             end ->
             exists k,
               attempt <= k <= maxRetries
               /\ (forall a, attempt <= a < k ->
                     exists e, speech_to_text E filePath a = Thrown e
                               /\ isNetworkError e = true)
               /\ match speech_to_text E filePath k with
                  | Returned _ => True
                  | Thrown e => isNetworkError e = false \/ k = maxRetries
                  end
               /\ (o, grown w [Transcribe filePath attempt])
                  = (speech_to_text E filePath k,
                     grown w (attempts_trace filePath attempt
                                (S k - attempt)))).
  { intros o Ho Hfinal. exists attempt.
    split; [lia|]. split; [intros a Ha; lia|].
    split; [rewrite Ho; exact Hfinal|].
    rewrite Ho. replace (S attempt - attempt) with 1 by lia. reflexivity. }
  cbn [transcribe_attempts]. unfold try_catch at 1.
  rewrite attempt_run.
  destruct (speech_to_text E filePath attempt) as [text|e] eqn:Hstt.
  - apply (Hstop _ eq_refl). exact I.
  - destruct (isNetworkError e) eqn:Hnet; cbn [andb].
    + destruct (attempt <? maxRetries) eqn:Hlt.
      * apply Nat.ltb_lt in Hlt.
        unfold bind at 1. cbn [emit].
        destruct (IH (S attempt)
                    (mkWorld
                       (trace (grown w [Transcribe filePath attempt])
                        ++ [Sleep (retry_delay attempt)])
                       (dirs (grown w [Transcribe filePath attempt]))
                       (files (grown w [Transcribe filePath attempt]))
                       (progress (grown w [Transcribe filePath attempt]))))
          as [k [Hk [Hbefore [Hlast Hrun]]]]; [lia|lia|].
        exists k. split; [lia|]. split; [|split; [exact Hlast|]].
        -- intros a Ha. destruct (Nat.eq_dec a attempt) as [->|Hne].
           ++ exists e. split; assumption.
           ++ apply Hbefore. lia.
        -- rewrite Hrun. f_equal.
           replace (S k - attempt) with (S (S k - S attempt)) by lia.
           cbn [attempts_trace].
           destruct (S k - S attempt) as [|j] eqn:Hj; [lia|].
           unfold grown. cbn [trace dirs files progress].
           rewrite <- !app_assoc. reflexivity.
      * apply Nat.ltb_ge in Hlt.
        apply (Hstop _ eq_refl). right. lia.
    + apply (Hstop _ eq_refl). left. exact Hnet.
Qed.

Lemma sleeps_attempts_trace (k first : nat) :
  sleeps (attempts_trace filePath first k)
  = map retry_delay (seq first (k - 1)).
Proof.
  revert first. induction k as [|k IH]; intros first; [reflexivity|].
  cbn [attempts_trace]. destruct k as [|k]; [reflexivity|].
  change (sleeps (Transcribe filePath first :: Sleep (retry_delay first)
                    :: attempts_trace filePath (S first) (S k)))
    with (retry_delay first
            :: sleeps (attempts_trace filePath (S first) (S k))).
  rewrite IH. replace (S (S k) - 1) with (S (S k - 1)) by lia.
  reflexivity.
Qed.

(** The back-off doubles from one second on. *)
Lemma retry_delay_doubles (attempt : nat) :
  1 <= attempt -> retry_delay (S attempt) = (2 * retry_delay attempt)%Z.
Proof.
  intros H. unfold retry_delay.
  replace (Z.of_nat (S attempt - 1)) with (Z.succ (Z.of_nat (attempt - 1)))
    by lia.
  rewrite Z.pow_succ_r by lia. lia.
Qed.

Lemma retry_delay_values :
  map retry_delay [1; 2; 3] = [1000; 2000; 4000]%Z.
Proof. reflexivity. Qed.

(** C4 (amended): [transcribeSingleFile] makes [k] attempts with
    [1 <= k <= 3].  Every attempt before the last met a failure of the
    network (a cause coded ECONNRESET, ETIMEDOUT or ENOTFOUND, or a
    message that mentions ECONNRESET or 'fetch failed') and was followed
    by a back-off of [2^(attempt-1)] seconds: one second after the first
    attempt, two after the second, and nothing after the third, which is
    the last.  The answer to the last attempt is the result as it is: a
    text, an error that is no failure of the network, which is thrown at
    once, or the error of the third attempt, which is thrown whatever it
    is.  Nothing else is touched. *)
Theorem transcribeSingleFile_retry_policy (w : world) :
  exists k,
    1 <= k <= 3
    /\ (forall a, 1 <= a < k ->
          exists e, speech_to_text E filePath a = Thrown e
                    /\ network_failure e)
    /\ match speech_to_text E filePath k with
       | Returned _ => True
       | Thrown e => ~ network_failure e \/ k = 3
       end
    /\ fst (transcribeSingleFile E filePath w) = speech_to_text E filePath k
    /\ snd (transcribeSingleFile E filePath w)
       = grown w (attempts_trace filePath 1 k)
    /\ sleeps (attempts_trace filePath 1 k)
       = firstn (k - 1) [1000; 2000]%Z.
Proof.
  unfold transcribeSingleFile, transcribeSingleFile_n.
  destruct (transcribe_attempts_spec 3 3 1 w) as [k [Hk [Hb [Hl Hrun]]]];
    [lia|lia|].
  exists k. rewrite Hrun. replace (S k - 1) with k by lia.
  split; [lia|]. split.
  { intros a Ha. destruct (Hb a Ha) as [e [He Hnet]].
    exists e. split; [exact He|].
    apply isNetworkError_network_failure. exact Hnet. }
  split.
  { destruct (speech_to_text E filePath k) as [text|e]; [exact I|].
    destruct Hl as [Hnet|Hlast]; [left|right; exact Hlast].
    rewrite <- isNetworkError_network_failure, Hnet. discriminate. }
  split; [reflexivity|]. split; [reflexivity|].
  rewrite sleeps_attempts_trace.
  destruct k as [|[|[|[|k]]]]; try lia; reflexivity.
Qed.

End Retry.

(** Three network failures in a row: three attempts, back-offs of one and
    two seconds, and the third error is thrown. *)
Example three_network_failures :
  let r := transcribeSingleFile (flaky_env 3) (lit "/tmp/a.mp3")
             initial_world in
  fst r = Thrown connection_reset
  /\ trace (snd r)
     = [Transcribe (lit "/tmp/a.mp3") 1; Sleep 1000;
        Transcribe (lit "/tmp/a.mp3") 2; Sleep 2000;
        Transcribe (lit "/tmp/a.mp3") 3].
Proof. split; reflexivity. Qed.

(** With a fourth attempt allowed the third back-off is four seconds. *)
Example four_attempts_backoff :
  sleeps (trace (snd (transcribeSingleFile_n (flaky_env 3) (lit "/tmp/a.mp3") 4
                        initial_world)))
  = [1000; 2000; 4000]%Z.
Proof. reflexivity. Qed.

(** C4 (as stated, refuted).  When the network fails three times in a
    row, the error thrown is the provider's own, as it was caught, and not
    an error of the transcription ('Max retries reached for
    transcription' is never thrown); the waits were of one and two
    seconds, and none of four.  And an expired certificate, which is no
    connection reset, no time-out and no DNS failure, is retried all the
    same, because [fetch] reports it as 'fetch failed'. *)
Lemma exhausted_retries_rethrow_the_last_error :
  let r := transcribeSingleFile (flaky_env 3) (lit "/tmp/a.mp3")
             initial_world in
  let r' := transcribeSingleFile expired_once_env (lit "/tmp/a.mp3")
              initial_world in
  fst r = Thrown connection_reset
  /\ e_message connection_reset = lit "Connection error."
  /\ connection_reset
     <> new_Error (lit "Max retries reached for transcription")
  /\ sleeps (trace (snd r)) = [1000; 2000]%Z
  /\ ~ In 4000%Z (sleeps (trace (snd r)))
  /\ e_cause_code certificate_expired = Some (lit "CERT_HAS_EXPIRED")
  /\ fst r' = Returned (lit "hello")
  /\ trace (snd r')
     = [Transcribe (lit "/tmp/a.mp3") 1; Sleep 1000;
        Transcribe (lit "/tmp/a.mp3") 2].
Proof.
  cbv zeta. split; [reflexivity|]. split; [reflexivity|].
  split; [discriminate|]. split; [reflexivity|].
  split; [vm_compute; intros [H|[H|[]]]; discriminate H|].
  split; [reflexivity|]. split; reflexivity.
Qed.
(** ** The progress band of transcribeLargeAudio *)

Section ProgressBand.

Lemma round_half_even_between (n : Z) (d : positive) (lo hi : Z) :
  (lo * Z.pos d <= n <= hi * Z.pos d)%Z ->
  (lo <= round_half_even n d <= hi)%Z.
Proof.
  intros [Hlo Hhi]. unfold round_half_even.
  pose proof (Z.div_mod n (Z.pos d) ltac:(discriminate)) as Hdm.
  pose proof (Z.mod_pos_bound n (Z.pos d) ltac:(reflexivity)) as Hr.
  set (q := (n / Z.pos d)%Z) in *. set (r := (n mod Z.pos d)%Z) in *.
  destruct (Z.compare_spec (2 * r) (Z.pos d)) as [H|H|H];
    [destruct (Z.even q)| |]; nia.
Qed.

Lemma round_half_even_near (n : Z) (d : positive) :
  (- Z.pos d <= 2 * (round_half_even n d * Z.pos d - n) <= Z.pos d)%Z.
Proof.
  unfold round_half_even.
  pose proof (Z.div_mod n (Z.pos d) ltac:(discriminate)) as Hdm.
  pose proof (Z.mod_pos_bound n (Z.pos d) ltac:(reflexivity)) as Hr.
  set (q := (n / Z.pos d)%Z) in *. set (r := (n mod Z.pos d)%Z) in *.
  destruct (Z.compare_spec (2 * r) (Z.pos d)) as [H|H|H];
    [destruct (Z.even q)| |]; nia.
Qed.

(** The exponent is reached: [2^e <= n / d]. *)
Lemma binade_reached (n d : positive) :
  match binade n d with
  | Zneg k => (Z.pos d <= Z.pos n * 2 ^ Z.pos k)%Z
  | e => (2 ^ e * Z.pos d <= Z.pos n)%Z
  end.
Proof.
  unfold binade.
  destruct (Z.log2_spec (Z.pos n) ltac:(reflexivity)) as [Hn _].
  destruct (Z.log2_spec (Z.pos d) ltac:(reflexivity)) as [_ Hd].
  pose proof (Z.log2_nonneg (Z.pos n)) as Hln.
  pose proof (Z.log2_nonneg (Z.pos d)) as Hld.
  set (ln := Z.log2 (Z.pos n)) in *. set (ld := Z.log2 (Z.pos d)) in *.
  clearbody ln ld. set (e := (ln - ld)%Z).
  match goal with
  | |- match (if ?b then _ else _) with _ => _ end => destruct b eqn:Hb
  end.
  - destruct e; apply Z.leb_le; exact Hb.
  - clear Hb.
    assert (Hpow : forall a b, (0 <= a)%Z -> (0 <= b)%Z ->
                               (2 ^ (a + b) = 2 ^ a * 2 ^ b)%Z)
      by (intros; apply Z.pow_add_r; assumption).
    destruct (e - 1)%Z as [|k|k] eqn:He.
    + (* e = 1 *)
      assert (ln = ld + 1)%Z by lia. subst ln.
      rewrite Z.pow_0_r. unfold Z.succ in Hd. lia.
    + assert (Hl : (ln = Z.pos k + (ld + 1))%Z) by lia.
      rewrite Hl, Hpow in Hn by lia. unfold Z.succ in Hd.
      pose proof (Z.pow_pos_nonneg 2 (Z.pos k) ltac:(lia) ltac:(lia)).
      nia.
    + assert (Hl : (ld + 1 = ln + Z.pos k)%Z) by lia.
      unfold Z.succ in Hd. rewrite Hl, Hpow in Hd by lia. nia.
Qed.

(** With [k] the number of places the significand is shifted by, it is
    [2^52] at least. *)
Lemma significand_large (n d k : positive) :
  (52 - binade n d = Z.pos k)%Z ->
  (2 ^ 52 * Z.pos d <= Z.pos n * 2 ^ Z.pos k)%Z.
Proof.
  intros Hk. pose proof (binade_reached n d) as He.
  destruct (binade n d) as [|e|j] eqn:Hb.
  - rewrite Z.pow_0_r in He. injection Hk as <-. lia.
  - assert (Hs : (52 = Z.pos e + Z.pos k)%Z) by lia.
    rewrite Hs, Z.pow_add_r by lia.
    pose proof (Z.pow_pos_nonneg 2 (Z.pos k) ltac:(lia) ltac:(lia)). nia.
  - assert (Hs : (Z.pos k = Z.pos j + 52)%Z) by lia.
    rewrite Hs, Z.pow_add_r by lia.
    pose proof (Z.pow_pos_nonneg 2 52 ltac:(lia) ltac:(lia)). nia.
Qed.

Lemma binade_small (n d : positive) :
  (Z.pos n < 2 ^ 52 * Z.pos d)%Z ->
  exists k, (52 - binade n d = Z.pos k)%Z.
Proof.
  intros Hx. pose proof (binade_reached n d) as He.
  destruct (binade n d) as [|e|j] eqn:Hb.
  - exists 52%positive. reflexivity.
  - destruct (Z.le_gt_cases 52 (Z.pos e)) as [Hge|Hlt].
    + exfalso.
      pose proof (Z.pow_le_mono_r 2 52 (Z.pos e) ltac:(lia) Hge). nia.
    + exists (Z.to_pos (52 - Z.pos e)). lia.
  - exists (52 + j)%positive. lia.
Qed.

(** Rounding does not cross a half of an integer. *)
Lemma double_between (x : Q) (lo hi : Z) :
  (0 <= lo)%Z -> (hi < 2 ^ 53)%Z ->
  (lo # 2 <= x)%Q -> (x <= hi # 2)%Q ->
  (lo # 2 <= double x)%Q /\ (double x <= hi # 2)%Q.
Proof.
  intros Hlo0 Hhi53. destruct x as [xn xd]. unfold Qle, double.
  cbn [Qnum Qden]. intros Hlo Hhi.
  pose proof (Pos2Z.is_pos xd) as Hxd.
  destruct xn as [|n|n].
  - cbn. split.
    + assert (lo <= 0)%Z by nia. lia.
    + assert (0 <= hi)%Z by nia. lia.
  - destruct (binade_small n xd ltac:(nia)) as [k Hk].
    unfold round_significand. rewrite Hk. cbn [Qnum Qden].
    rewrite Pos2Z.inj_pow.
    assert (Htwo : (2 ^ Z.pos k = 2 * 2 ^ (Z.pos k - 1))%Z).
    { rewrite <- Z.pow_succ_r by lia. f_equal. lia. }
    pose proof (Z.pow_pos_nonneg 2 (Z.pos k - 1) ltac:(lia) ltac:(lia))
      as Hp.
    destruct (round_half_even_between (Z.pos n * 2 ^ Z.pos k) xd
                (lo * 2 ^ (Z.pos k - 1)) (hi * 2 ^ (Z.pos k - 1)))
      as [H1 H2]; [rewrite Htwo; nia|].
    set (R := round_half_even (Z.pos n * 2 ^ Z.pos k) xd) in *.
    rewrite Htwo. nia.
  - exfalso. nia.
Qed.

(** The relative error of a rounding is [2^-53] at most. *)
Lemma double_relative (x : Q) :
  (0 < x)%Q -> (x < inject_Z (2 ^ 52))%Q ->
  (x * inject_Z (2 ^ 53 - 1) <= double x * inject_Z (2 ^ 53))%Q
  /\ (double x * inject_Z (2 ^ 53) <= x * inject_Z (2 ^ 53 + 1))%Q.
Proof.
  destruct x as [xn xd]. unfold Qlt, Qle, double, Qmult, inject_Z.
  cbn [Qnum Qden]. intros Hpos Hsmall.
  destruct xn as [|n|n]; [lia| |lia].
  destruct (binade_small n xd ltac:(lia)) as [k Hk].
  unfold round_significand. rewrite Hk. cbn [Qnum Qden].
  rewrite !Pos2Z.inj_mul, Pos2Z.inj_pow.
  pose proof (significand_large n xd k Hk) as Hs.
  pose proof (round_half_even_near (Z.pos n * 2 ^ Z.pos k) xd) as Hnear.
  set (R := round_half_even (Z.pos n * 2 ^ Z.pos k) xd) in *.
  set (P := (2 ^ Z.pos k)%Z) in *.
  change (2 ^ 53 - 1)%Z with 9007199254740991%Z.
  change (2 ^ 53 + 1)%Z with 9007199254740993%Z.
  change (2 ^ 53)%Z with 9007199254740992%Z.
  change (2 ^ 52)%Z with 4503599627370496%Z in Hs.
  lia.
Qed.


Lemma Qfloor_between (x : Q) (lo hi : Z) :
  (lo # 2 <= x)%Q -> (x <= hi # 2)%Q ->
  (Qfloor (lo # 2) <= Qfloor x <= Qfloor (hi # 2))%Z.
Proof. intros H1 H2. split; apply Qfloor_resp_le; assumption. Qed.

(** The numbers of a segment, as rationals. *)
Lemma segment_numbers (i n : nat) :
  i < n ->
  let I := inject_Z (Z.of_nat i) in
  let N := inject_Z (Z.of_nat n) in
  (0 <= I)%Q /\ (I + 1 <= N)%Q
  /\ (N * (inject_Z 55 / N) == inject_Z 55)%Q
  /\ (N * ((I + 1) / N) == I + 1)%Q.
Proof.
  intros H. cbv zeta.
  assert (H0 : (0 <= inject_Z (Z.of_nat i))%Q)
    by (rewrite <- (Zle_Qle 0); lia).
  assert (H1 : (inject_Z (Z.of_nat i) + 1 <= inject_Z (Z.of_nat n))%Q).
  { change 1%Q with (inject_Z 1). rewrite <- inject_Z_plus, <- Zle_Qle.
    lia. }
  assert (Hn : ~ (inject_Z (Z.of_nat n) == 0)%Q) by lra.
  repeat split; try assumption; field; exact Hn.
Qed.

(** The weight of a segment, [55 / n] rounded. *)
Lemma chunkWeight_bounds (n : nat) :
  0 < n ->
  let q := (inject_Z 55 / inject_Z (Z.of_nat n))%Q in
  (0 < q)%Q /\ (q <= inject_Z 55)%Q
  /\ (q * inject_Z (2 ^ 53 - 1) <= double q * inject_Z (2 ^ 53))%Q
  /\ (double q * inject_Z (2 ^ 53) <= q * inject_Z (2 ^ 53 + 1))%Q.
Proof.
  intros H. cbv zeta.
  destruct (segment_numbers 0 n H) as (_ & HN & Hq & _).
  cbv zeta in HN, Hq. change (inject_Z (Z.of_nat 0)) with 0%Q in HN.
  set (N := inject_Z (Z.of_nat n)) in *.
  set (q := (inject_Z 55 / N)%Q) in *.
  assert (Hpos : (0 < q)%Q).
  { apply Qlt_shift_div_l; [lra|]. change (inject_Z 55) with (55 # 1)%Q. lra. }
  assert (Hle : (q <= inject_Z 55)%Q).
  { apply Qle_shift_div_r; [lra|].
    change (inject_Z 55) with (55 # 1)%Q. nra. }
  split; [exact Hpos|]. split; [exact Hle|].
  apply double_relative; [exact Hpos|].
  change (inject_Z 55) with (55 # 1)%Q in Hle.
  change (inject_Z (2 ^ 52)) with (4503599627370496 # 1)%Q. lra.
Qed.

(** Every value reported for a segment lies in the band; a completion
    value never exceeds 80. *)
Lemma progress_in_band (i n : nat) :
  i < n ->
  (30 <= Qfloor (startP i n) <= 85)%Z /\ (30 <= endP i n <= 80)%Z.
Proof.
  intros H.
  destruct (segment_numbers i n H) as (HI & HN & Hq & Hu).
  destruct (chunkWeight_bounds n ltac:(lia)) as (Hpos & Hle & _ & Hrel).
  cbv zeta in HI, HN, Hq, Hu, Hpos, Hle, Hrel.
  unfold startP, endP.
  set (I := inject_Z (Z.of_nat i)) in *.
  set (N := inject_Z (Z.of_nat n)) in *.
  set (q := (inject_Z 55 / N)%Q) in *.
  change (inject_Z 55) with (55 # 1)%Q in *.
  change (inject_Z (2 ^ 53)) with (9007199254740992 # 1)%Q in Hrel.
  change (inject_Z (2 ^ 53 + 1)) with (9007199254740993 # 1)%Q in Hrel.
  split.
  - (* the start of the segment *)
    set (a := double q) in *.
    assert (Ha : (0 <= a)%Q).
    { destruct (double_between q 0 110) as [Hlo _];
        [lia|reflexivity|lra|lra|]. fold a in Hlo. lra. }
    assert (Hp : (0 <= I * a)%Q /\ (I * a <= 111 # 2)%Q).
    { split; [nra|].
      assert ((I * a) * (9007199254740992 # 1)%Q
              <= (N - 1) * q * (9007199254740993 # 1)%Q)%Q by nra.
      assert ((N - 1) * q <= 55 # 1)%Q by nra.
      nra. }
    destruct Hp as [Hp0 Hp1].
    destruct (double_between (I * a) 0 111) as [Hb0 Hb1];
      [lia|reflexivity|lra|exact Hp1|].
    set (b := double (I * a)%Q) in *.
    destruct (double_between (inject_Z 30 + b) 60 171) as [Hs0 Hs1];
      [lia|reflexivity|change (inject_Z 30) with (30 # 1)%Q; lra
      |change (inject_Z 30) with (30 # 1)%Q; lra|].
    apply (Qfloor_between _ 60 171); assumption.
  - (* its completion *)
    replace (Z.of_nat (i + 1)) with (Z.of_nat i + 1)%Z by lia.
    rewrite inject_Z_plus. fold I. change (inject_Z 1) with 1%Q.
    set (u := ((I + 1) / N)%Q) in *.
    assert (Hu01 : (0 <= u)%Q /\ (u <= 1)%Q).
    { split.
      - apply Qle_shift_div_l; lra.
      - apply Qle_shift_div_r; lra. }
    destruct Hu01 as [Hu0 Hu1].
    destruct (double_between u 0 2) as [Hd0 Hd1];
      [lia|reflexivity|lra|lra|].
    set (du := double u) in *.
    destruct (double_between (du * inject_Z 50) 0 100) as [Hv0 Hv1];
      [lia|reflexivity|change (inject_Z 50) with (50 # 1)%Q; lra
      |change (inject_Z 50) with (50 # 1)%Q; lra|].
    pose proof (Qfloor_between _ 0 100 Hv0 Hv1) as Hf.
    change (Qfloor (0 # 2)%Q) with 0%Z in Hf.
    change (Qfloor (100 # 2)%Q) with 50%Z in Hf. lia.
Qed.

(** From fourteen segments on, the last segment is reported complete
    with a smaller value than it was started with. *)
Lemma last_segment_drops (n : nat) :
  14 <= n ->
  (endP (n - 1) n = 80 /\ 81 <= Qfloor (startP (n - 1) n))%Z.
Proof.
  intros H.
  destruct (segment_numbers (n - 1) n ltac:(lia)) as (HI & HN & Hq & Hu).
  destruct (chunkWeight_bounds n ltac:(lia)) as (Hpos & Hle & Hrel & Hrel').
  cbv zeta in HI, HN, Hq, Hu, Hpos, Hle, Hrel, Hrel'.
  assert (HIN : (inject_Z (Z.of_nat (n - 1)) + 1
                 == inject_Z (Z.of_nat n))%Q).
  { change 1%Q with (inject_Z 1). rewrite <- inject_Z_plus.
    replace (Z.of_nat (n - 1) + 1)%Z with (Z.of_nat n) by lia.
    reflexivity. }
  assert (H14 : (14 # 1 <= inject_Z (Z.of_nat n))%Q).
  { change (14 # 1)%Q with (inject_Z 14). rewrite <- Zle_Qle. lia. }
  unfold startP, endP.
  set (I := inject_Z (Z.of_nat (n - 1))) in *.
  set (N := inject_Z (Z.of_nat n)) in *.
  set (q := (inject_Z 55 / N)%Q) in *.
  change (inject_Z 55) with (55 # 1)%Q in *.
  change (inject_Z (2 ^ 53)) with (9007199254740992 # 1)%Q in *.
  change (inject_Z (2 ^ 53 + 1)) with (9007199254740993 # 1)%Q in *.
  change (inject_Z (2 ^ 53 - 1)) with (9007199254740991 # 1)%Q in *.
  split.
  - replace (Z.of_nat (n - 1 + 1)) with (Z.of_nat (n - 1) + 1)%Z by lia.
    rewrite inject_Z_plus. fold I. change (inject_Z 1) with 1%Q.
    set (u := ((I + 1) / N)%Q) in *.
    assert (Hu1 : (u == 1)%Q).
    { unfold u. rewrite HIN. field. lra. }
    destruct (double_between u 2 2) as [Hd0 Hd1];
      [lia|reflexivity|lra|lra|].
    set (du := double u) in *.
    destruct (double_between (du * inject_Z 50) 100 100) as [Hv0 Hv1];
      [lia|reflexivity|change (inject_Z 50) with (50 # 1)%Q; lra
      |change (inject_Z 50) with (50 # 1)%Q; lra|].
    pose proof (Qfloor_between _ 100 100 Hv0 Hv1) as Hf.
    change (Qfloor (100 # 2)%Q) with 50%Z in Hf. lia.
  - set (a := double q) in *.
    assert (Ha : (0 <= a)%Q).
    { destruct (double_between q 0 110) as [Hlo _];
        [lia|reflexivity|lra|lra|]. fold a in Hlo. lra. }
    assert (Hp : (102 # 2 <= I * a)%Q /\ (I * a <= 111 # 2)%Q).
    { assert (Hq14 : (q <= 55 # 14)%Q).
      { unfold q. apply Qle_shift_div_r; [lra|]. nra. }
      split.
      - assert ((N - 1) * q * (9007199254740991 # 1)%Q
                <= (I * a) * (9007199254740992 # 1)%Q)%Q by nra.
        assert ((55 # 1)%Q - (55 # 14)%Q <= (N - 1) * q)%Q by nra.
        nra.
      - assert ((I * a) * (9007199254740992 # 1)%Q
                <= (N - 1) * q * (9007199254740993 # 1)%Q)%Q by nra.
        assert ((N - 1) * q <= 55 # 1)%Q by nra.
        nra. }
    destruct Hp as [Hp0 Hp1].
    destruct (double_between (I * a) 102 111) as [Hb0 Hb1];
      [lia|reflexivity|exact Hp0|exact Hp1|].
    set (b := double (I * a)%Q) in *.
    destruct (double_between (inject_Z 30 + b) 162 171) as [Hs0 Hs1];
      [lia|reflexivity|change (inject_Z 30) with (30 # 1)%Q; lra
      |change (inject_Z 30) with (30 # 1)%Q; lra|].
    pose proof (Qfloor_between _ 162 171 Hs0 Hs1) as Hf.
    change (Qfloor (162 # 2)%Q) with 81%Z in Hf. lia.
Qed.

(** The rounding at work: a tenth, the sum of a tenth and of a fifth, and
    a completion that exact arithmetic would report as 59. *)
Example double_examples :
  (double (1 # 10) == 3602879701896397 # 36028797018963968)%Q
  /\ (double (double (1 # 10) + double (2 # 10))
      == 1351079888211149 # 4503599627370496)%Q
  /\ endP 28 50 = 58%Z
  /\ (30 + (50 * (28 + 1)) / 50 = 59)%Z.
Proof. repeat split; vm_compute; reflexivity. Qed.

Lemma nondecreasing_sorted (l : list Z) :
  nondecreasing l = true <-> Sorted Z.le l.
Proof.
  induction l as [|x [|y l] IH].
  - split; [constructor|reflexivity].
  - split; [repeat constructor|reflexivity].
  - change (nondecreasing (x :: y :: l))
      with ((x <=? y)%Z && nondecreasing (y :: l)).
    rewrite andb_true_iff, IH, Z.leb_le. split.
    + intros [Hxy Hs]. constructor; [exact Hs|constructor; exact Hxy].
    + intros Hs. inversion Hs as [|? ? Hs' Hhd]; subst.
      inversion Hhd; subst. split; assumption.
Qed.

End ProgressBand.

(** C6 (the code at the failing input): 2500 seconds of audio make 14
    segments; the values reported during transcription go down three
    times, from 73 to 72, from 77 to 76 and from 81 to 80, because a
    segment starts on a scale of 55 points and completes on one of 50. *)
Theorem progress_drops_with_14_segments :
  let w := snd (run fourteen_env
                  good_request) in
  progress_values transcribing (trace w)
  = [30; 30; 33; 33; 37; 37; 40; 41; 44; 45; 47; 49; 51; 53; 55; 57; 58; 61;
     62; 65; 65; 69; 69; 73; 72; 77; 76; 81; 80]%Z
  /\ ~ Sorted Z.le (progress_values transcribing (trace w)).
Proof.
  cbv zeta.
  assert (H : progress_values transcribing
                (trace (snd (run fourteen_env
                               good_request)))
              = [30; 30; 33; 33; 37; 37; 40; 41; 44; 45; 47; 49; 51; 53; 55;
                 57; 58; 61; 62; 65; 65; 69; 69; 73; 72; 77; 76; 81; 80]%Z)
    by (vm_compute; reflexivity).
  split; [exact H|].
  rewrite H, <- nondecreasing_sorted. vm_compute. discriminate.
Qed.

(** C7 (the code at the failing input): with a single segment the
    completion is reported as 80, the whole of a 50-point span, where an
    equal share of the 55-point span gives 85. *)
Theorem single_segment_completes_at_80 :
  let w := snd (run minute_env
                  good_request) in
  progress_values transcribing (trace w) = [30; 30; 80]%Z
  /\ endP 0 1 = 80%Z
  /\ (inject_Z 30 + inject_Z 1 * (inject_Z 55 / inject_Z 1) == inject_Z 85)%Q.
Proof.
  cbv zeta. split; [vm_compute; reflexivity|].
  split; [vm_compute; reflexivity|]. reflexivity.
Qed.

(** ** Effects of the stages *)

Section Preservation.

Variable R : world -> world -> Prop.
Hypothesis R_refl : forall w, R w w.
Hypothesis R_trans : forall w1 w2 w3, R w1 w2 -> R w2 w3 -> R w1 w3.

Lemma preserves_ret {A : Type} (a : A) : preserves R (ret a).
Proof. intros w. apply R_refl. Qed.

Lemma preserves_throw {A : Type} (e : js_error) : preserves R (@throw A e).
Proof. intros w. apply R_refl. Qed.

Lemma preserves_await {A : Type} (o : outcome A) : preserves R (await o).
Proof. intros w. apply R_refl. Qed.

Lemma preserves_bind {A B : Type} (m : M A) (k : A -> M B) :
  preserves R m -> (forall a, preserves R (k a)) -> preserves R (bind m k).
Proof.
  intros Hm Hk w. unfold bind. specialize (Hm w).
  destruct (m w) as [[a|e] w1]; cbn [snd] in Hm.
  - eapply R_trans; [exact Hm|apply Hk].
  - exact Hm.
Qed.

Lemma preserves_try_catch {A : Type} (m : M A) (h : js_error -> M A) :
  preserves R m -> (forall e, preserves R (h e)) ->
  preserves R (try_catch m h).
Proof.
  intros Hm Hh w. unfold try_catch. specialize (Hm w).
  destruct (m w) as [[a|e] w1]; cbn [snd] in Hm.
  - exact Hm.
  - eapply R_trans; [exact Hm|apply Hh].
Qed.

End Preservation.

Section Effects.

Variable P : effect -> Prop.

Lemma adds_refl (w : world) : adds P w w.
Proof. exists []. rewrite app_nil_r. auto. Qed.

Lemma adds_trans (w1 w2 w3 : world) :
  adds P w1 w2 -> adds P w2 w3 -> adds P w1 w3.
Proof.
  intros [t [Ht [Hp Hd]]] [u [Hu [Hq He]]]. exists (t ++ u).
  split; [rewrite Hu, Ht, app_assoc; reflexivity|].
  split; [apply Forall_app; auto|congruence].
Qed.

Lemma keeps_ret {A : Type} (a : A) : keeps P (ret a).
Proof. intros w. apply adds_refl. Qed.

Lemma keeps_emit (x : effect) : P x -> keeps P (emit x).
Proof.
  intros Hx w. exists [x]. simpl. auto.
Qed.

Lemma keeps_bind {A B : Type} (m : M A) (k : A -> M B) :
  keeps P m -> (forall a, keeps P (k a)) -> keeps P (bind m k).
Proof.
  intros Hm Hk w. unfold bind. specialize (Hm w).
  destruct (m w) as [[a|e] w1]; simpl in Hm.
  - eapply adds_trans; [exact Hm|apply Hk].
  - exact Hm.
Qed.

End Effects.

Lemma inner_quiet (s : stage) (x : effect) :
  s <> done -> s <> error -> inner_effect s x -> quiet x.
Proof.
  intros Hd He. destruct x; simpl; try tauto. intros ->. auto.
Qed.

Section Returns.





End Returns.

(** *** The transcription pipeline, for any relation on worlds *)

Section TranscribePipeline.

Variable R : world -> world -> Prop.
Hypothesis R_refl : forall w, R w w.
Hypothesis R_trans : forall w1 w2 w3, R w1 w2 -> R w2 w3 -> R w1 w3.

Variable E : env.

(** The relation admits the passive effects and the rewriting of the
    names in the job's directory. *)
Hypothesis R_passive : forall x, passive x -> preserves R (emit x).
Hypothesis R_files :
  forall w names, R w (mkWorld (trace w) (dirs w) names (progress w)).

(** It admits the two reports of a segment. *)
Variable callback : Z -> M unit.
Hypothesis R_start :
  forall i total, i < total ->
                  preserves R (callback (Qfloor (startP i total))).
Hypothesis R_end :
  forall i total, i < total -> preserves R (callback (endP i total)).

Lemma preserves_transcribe_attempts (filePath : jsstring) (maxRetries : nat) :
  forall remaining attempt,
    preserves R (transcribe_attempts E filePath maxRetries remaining attempt).
Proof.
  induction remaining as [|remaining IH]; intros attempt;
    cbn [transcribe_attempts].
  - apply (preserves_throw R R_refl).
  - apply (preserves_try_catch R R_trans).
    + apply (preserves_bind R R_trans); [apply R_passive; exact I|].
      intros _. apply (preserves_await R R_refl).
    + intros e.
      destruct (isNetworkError e && (attempt <? maxRetries));
        [|apply (preserves_throw R R_refl)].
      apply (preserves_bind R R_trans); [apply R_passive; exact I|].
      intros _. apply IH.
Qed.

Lemma preserves_process_chunks (chunks : list jsstring) :
  forall i total acc,
    i + length chunks = total ->
    preserves R (process_chunks E callback chunks i total acc).
Proof.
  induction chunks as [|c chunks IH]; intros i total acc Hlen;
    cbn [process_chunks].
  - apply (preserves_ret R R_refl).
  - cbn [length] in Hlen.
    apply (preserves_bind R R_trans); [apply R_start; lia|]. intros _.
    apply (preserves_bind R R_trans);
      [apply preserves_transcribe_attempts|]. intros text.
    apply (preserves_bind R R_trans); [apply R_end; lia|]. intros _.
    apply IH. lia.
Qed.

Lemma preserves_segment (inputPath originalExt tempDir : jsstring) :
  preserves R (segment E inputPath originalExt tempDir).
Proof.
  unfold segment.
  apply (preserves_bind R R_trans).
  { unfold ffprobe.
    apply (preserves_bind R R_trans); [apply R_passive; exact I|].
    intros _.
    apply (preserves_bind R R_trans); [apply (preserves_await R R_refl)|].
    intros d. apply (preserves_ret R R_refl). }
  intros duration. destruct (Qle_bool duration CHUNK_SIZE);
    [apply (preserves_ret R R_refl)|].
  apply (preserves_bind R R_trans).
  { unfold ffmpeg_split.
    apply (preserves_bind R R_trans); [apply R_passive; exact I|].
    intros _.
    apply (preserves_bind R R_trans); [apply (preserves_await R R_refl)|].
    intros n w. apply R_files. }
  intros _. apply (preserves_bind R R_trans).
  { unfold readdir.
    apply (preserves_bind R R_trans); [apply R_passive; exact I|].
    intros _ w. apply R_refl. }
  intros names. apply (preserves_ret R R_refl).
Qed.

Lemma preserves_transcribeLargeAudio
  (inputPath originalExt tempDir : jsstring) :
  preserves R (transcribeLargeAudio E inputPath originalExt tempDir callback).
Proof.
  unfold transcribeLargeAudio.
  apply (preserves_bind R R_trans); [apply preserves_segment|].
  intros chunks. apply preserves_process_chunks. reflexivity.
Qed.

End TranscribePipeline.

(** *** The summarization, for any relation on worlds *)

Section SummarizePipeline.

Variable R : world -> world -> Prop.
Hypothesis R_refl : forall w, R w w.
Hypothesis R_trans : forall w1 w2 w3, R w1 w2 -> R w2 w3 -> R w1 w3.

Variable E : env.

(** The relation admits a call to the model, a notice, and the heartbeats
    that fire during a call. *)
Hypothesis R_call :
  forall model content isPartial,
    preserves R (emit (CallModel model content isPartial)).
Hypothesis R_notice : forall n, preserves R (send (notice_event n)).
Hypothesis R_beats :
  forall site model content isPartial,
    preserves R
      (heartbeats onHeartbeat
         (fst (chat_completion E site model content isPartial))).

Lemma preserves_callModel (site : call_site) (model content : jsstring)
  (isPartial : bool) :
  preserves R (callModel E onHeartbeat site model content isPartial).
Proof.
  unfold callModel.
  apply (preserves_bind R R_trans); [apply R_call|]. intros _.
  pose proof (R_beats site model content isPartial) as Hb.
  destruct (chat_completion E site model content isPartial)
    as [randoms reply].
  apply (preserves_bind R R_trans); [exact Hb|]. intros _.
  apply (preserves_await R R_refl).
Qed.

Lemma preserves_summarize_chunks (chunks : list jsstring) :
  forall i total acc,
    preserves R (summarize_chunks E onHeartbeat send chunks i total acc).
Proof.
  induction chunks as [|c chunks IH]; intros i total acc;
    cbn [summarize_chunks].
  - apply (preserves_ret R R_refl).
  - apply (preserves_bind R R_trans); [apply R_notice|]. intros _.
    apply (preserves_bind R R_trans); [|intros s; apply IH].
    apply (preserves_try_catch R R_trans).
    + apply (preserves_bind R R_trans); [apply preserves_callModel|].
      intros r. apply (preserves_ret R R_refl).
    + intros e. destruct (rate_limited e);
        [|apply (preserves_throw R R_refl)].
      apply (preserves_bind R R_trans); [apply R_notice|]. intros _.
      apply (preserves_bind R R_trans); [apply preserves_callModel|].
      intros r. apply (preserves_ret R R_refl).
Qed.

Lemma preserves_summarizeTranscript (transcript : jsstring) :
  preserves R (summarizeTranscript E transcript onHeartbeat send).
Proof.
  unfold summarizeTranscript. apply (preserves_try_catch R R_trans).
  - destruct (CHUNK_THRESHOLD <? length transcript).
    + apply (preserves_bind R R_trans); [apply R_notice|]. intros _.
      apply (preserves_bind R R_trans);
        [apply preserves_summarize_chunks|]. intros sums.
      apply (preserves_bind R R_trans); [apply R_notice|]. intros _.
      apply (preserves_bind R R_trans); [apply preserves_callModel|].
      intros r. apply (preserves_ret R R_refl).
    + apply (preserves_bind R R_trans);
        [|intros r; apply (preserves_ret R R_refl)].
      apply (preserves_try_catch R R_trans); [apply preserves_callModel|].
      intros e. destruct (rate_limited e);
        [|apply (preserves_throw R R_refl)].
      apply (preserves_bind R R_trans); [apply R_notice|]. intros _.
      apply preserves_callModel.
  - intros e. apply (preserves_throw R R_refl).
Qed.

End SummarizePipeline.

Section StageEffects.

Variable E : env.

Let Tr := inner_effect transcribing.
Let Su := inner_effect summarizing.

Lemma keeps_passive (P : effect -> Prop) :
  (forall x, passive x -> P x) ->
  forall x, passive x -> keeps P (emit x).
Proof. intros HP x Hx. apply keeps_emit. apply HP. exact Hx. Qed.

Lemma adds_files (P : effect -> Prop) (w : world) (names : list jsstring) :
  adds P w (mkWorld (trace w) (dirs w) names (progress w)).
Proof. exists []. cbn. rewrite app_nil_r. auto. Qed.

Lemma passive_inner (s : stage) (x : effect) : passive x -> inner_effect s x.
Proof. destruct x; cbn; tauto. Qed.

Lemma passive_in_band (x : effect) : passive x -> in_band x.
Proof. destruct x; cbn; tauto. Qed.

Lemma keeps_onProgress (p : Z) : keeps Tr (onProgress p).
Proof. apply keeps_emit. reflexivity. Qed.

Lemma keeps_transcribeLargeAudio (inputPath originalExt tempDir : jsstring) :
  keeps Tr (transcribeLargeAudio E inputPath originalExt tempDir onProgress).
Proof.
  apply (preserves_transcribeLargeAudio (adds Tr) (adds_refl Tr)
           (adds_trans Tr) E
           (keeps_passive Tr (passive_inner transcribing))
           (adds_files Tr) onProgress).
  - intros i total _. apply keeps_onProgress.
  - intros i total _. apply keeps_onProgress.
Qed.

(** X19: whatever the outside world answers, every event sent during the
    transcription is a report of the transcribing stage whose value lies
    within the band [30, 85]; no directory is made or removed, and
    nothing else is sent. *)
Lemma transcribeLargeAudio_in_band
  (inputPath originalExt tempDir : jsstring) :
  keeps in_band
    (transcribeLargeAudio E inputPath originalExt tempDir onProgress).
Proof.
  apply (preserves_transcribeLargeAudio (adds in_band) (adds_refl in_band)
           (adds_trans in_band) E
           (keeps_passive in_band passive_in_band)
           (adds_files in_band) onProgress).
  - intros i total Hi. apply keeps_emit. split; [reflexivity|].
    eexists. split; [reflexivity|].
    pose proof (progress_in_band i total Hi). lia.
  - intros i total Hi. apply keeps_emit. split; [reflexivity|].
    eexists. split; [reflexivity|].
    pose proof (progress_in_band i total Hi). lia.
Qed.


Lemma keeps_onHeartbeat (r : Q) : keeps Su (onHeartbeat r).
Proof.
  intros w. exists [Send (progress_event summarizing
                            (Qfloor (Math_min (progress w + r * (2 # 10))%Q
                                       (inject_Z 98))))].
  split; [reflexivity|]. split; [|reflexivity].
  constructor; [reflexivity|constructor].
Qed.

Lemma keeps_heartbeats (randoms : list Q) :
  keeps Su (heartbeats onHeartbeat randoms).
Proof.
  induction randoms as [|r randoms IH]; cbn [heartbeats].
  - apply keeps_ret.
  - apply keeps_bind; [apply keeps_onHeartbeat|]. intros _. exact IH.
Qed.

Lemma keeps_notice (n : notice) : keeps Su (send (notice_event n)).
Proof. apply keeps_emit. reflexivity. Qed.

Lemma keeps_summarizeTranscript (transcript : jsstring) :
  keeps Su (summarizeTranscript E transcript onHeartbeat send).
Proof.
  apply (preserves_summarizeTranscript (adds Su) (adds_refl Su)
           (adds_trans Su) E).
  - intros model content isPartial. apply keeps_emit. exact I.
  - apply keeps_notice.
  - intros site model content isPartial. apply keeps_heartbeats.
Qed.



End StageEffects.

(** ** The five stages *)

Section Stages.

Variable E : env.

Lemma transcribing_quiet (t : list effect) :
  Forall (inner_effect transcribing) t -> Forall quiet t.
Proof.
  apply Forall_impl. intros x. apply inner_quiet; discriminate.
Qed.

Lemma summarizing_quiet (t : list effect) :
  Forall (inner_effect summarizing) t -> Forall quiet t.
Proof.
  apply Forall_impl. intros x. apply inner_quiet; discriminate.
Qed.

Ltac quiet_list :=
  repeat first
    [ apply Forall_nil
    | apply Forall_cons; [first [exact I | split; discriminate]|]
    | apply Forall_app; split
    | apply transcribing_quiet; assumption
    | apply summarizing_quiet; assumption ].

Lemma bind_run {A B : Type} (m : M A) (k : A -> M B) (w : world) :
  bind m k w
  = match m w with
    | (Returned a, w1) => k a w1
    | (Thrown e, w1) => (Thrown e, w1)
    end.
Proof. reflexivity. Qed.

Lemma emit_run (x : effect) (w : world) :
  emit x w = (Returned tt, grown w [x]).
Proof. reflexivity. Qed.

Lemma send_run (ev : event) (w : world) :
  send ev w = (Returned tt, grown w [Send ev]).
Proof. reflexivity. Qed.

Lemma mkdirAsync_spec (d : jsstring) (w : world) :
  match mkdirAsync E d w with
  | (Returned _, w1) =>
      mkdir_result E = Returned tt
      /\ trace w1 = trace w ++ [Mkdir d] /\ dirs w1 = d :: dirs w
  | (Thrown _, w1) =>
      trace w1 = trace w ++ [Mkdir d] /\ dirs w1 = dirs w
  end.
Proof.
  unfold mkdirAsync, bind, emit, await.
  destruct (mkdir_result E) as [[]|e]; cbn; auto.
Qed.

Lemma parseXiaoyuzhouUrl_run (w : world) :
  parseXiaoyuzhouUrl E w = (resolve_result E, grown w [Resolve]).
Proof. reflexivity. Qed.

Lemma downloadAudioToStream_spec (url path : jsstring) (w : world) :
  match downloadAudioToStream E url path w with
  | (r, w1) =>
      r = download_result E
      /\ trace w1 = trace w ++ [Download url path] /\ dirs w1 = dirs w
  end.
Proof.
  unfold downloadAudioToStream, bind, emit, await.
  destruct (download_result E) as [x|e]; cbn; auto.
Qed.

Lemma rename_spec (from to name : jsstring) (w : world) :
  match rename E from to name w with
  | (r, w1) =>
      r = rename_result E
      /\ trace w1 = trace w ++ [Rename from to] /\ dirs w1 = dirs w
  end.
Proof.
  unfold rename, bind, emit, await.
  destruct (rename_result E) as [[]|e]; cbn; auto.
Qed.

Lemma set_progress_spec (p : Q) (w : world) :
  match set_progress p w with
  | (r, w1) => r = Returned tt /\ trace w1 = trace w /\ dirs w1 = dirs w
  end.
Proof. cbn. auto. Qed.

Lemma trace_grown (w : world) (t : list effect) :
  trace (grown w t) = trace w ++ t.
Proof. reflexivity. Qed.

Lemma dirs_grown (w : world) (t : list effect) :
  dirs (grown w t) = dirs w.
Proof. reflexivity. Qed.


(** The body of the inner [try]: either every stage returns and the
    [done] event is the last one sent, or a stage throws and nothing
    but quiet effects have happened since the directory was made. *)
Lemma run_stages_shape (d : jsstring) (w : world) :
  match run_stages E d w with
  | (Returned _, w') =>
      exists title transcript audioUrl result,
        succeeded E d w w' title transcript audioUrl result
  | (Thrown _, w') => failed d w w'
  end.
Proof.
  unfold run_stages.
  (* mkdir *)
  rewrite bind_run. pose proof (mkdirAsync_spec d w) as H1.
  destruct (mkdirAsync E d w) as [[[]|e] w1].
  2:{ destruct H1 as [Ht1 Hd1]. exists [].
      split; [exact Ht1|]. split; [constructor|left; exact Hd1]. }
  destruct H1 as [Hmk [Ht1 Hd1]].
  (* parsing *)
  rewrite bind_run, send_run. rewrite bind_run, emit_run.
  rewrite bind_run, send_run. rewrite !grown_grown. cbn [app].
  rewrite bind_run, parseXiaoyuzhouUrl_run. rewrite !grown_grown. cbn [app].
  destruct (resolve_result E) as [[audioUrl title]|e] eqn:Hres.
  2:{ eexists. split; [rewrite trace_grown, Ht1, <- app_assoc; reflexivity|].
      split; [quiet_list|right; exact Hd1]. }
  (* downloading *)
  rewrite bind_run, send_run. rewrite !grown_grown. cbn [app].
  rewrite bind_run.
  match goal with
  | |- context [downloadAudioToStream E ?u ?p ?w0] =>
      pose proof (downloadAudioToStream_spec u p w0) as H2;
      destruct (downloadAudioToStream E u p w0) as [r2 w2]
  end.
  destruct H2 as [-> [Ht2 Hd2]].
  rewrite trace_grown, Ht1 in Ht2. rewrite dirs_grown, Hd1 in Hd2.
  destruct (download_result E) as [x|e] eqn:Hdl.
  2:{ eexists. split; [rewrite Ht2, <- !app_assoc; reflexivity|].
      split; [quiet_list|right; exact Hd2]. }
  rewrite bind_run.
  match goal with
  | |- context [rename E ?a ?b ?c ?w0] =>
      pose proof (rename_spec a b c w0) as H3;
      destruct (rename E a b c w0) as [r3 w3]
  end.
  destruct H3 as [-> [Ht3 Hd3]]. rewrite Ht2 in Ht3. rewrite Hd2 in Hd3.
  destruct (rename_result E) as [[]|e] eqn:Hrn.
  2:{ eexists. split; [rewrite Ht3, <- !app_assoc; reflexivity|].
      split; [quiet_list|right; exact Hd3]. }
  rewrite bind_run, send_run. rewrite bind_run, send_run.
  rewrite !grown_grown. cbn [app].
  (* transcribing *)
  rewrite bind_run.
  match goal with
  | |- context [transcribeLargeAudio E ?a ?b ?c ?f ?w0] =>
      pose proof (keeps_transcribeLargeAudio E a b c w0) as H4;
      destruct (transcribeLargeAudio E a b c f w0)
        as [[transcript|e] w4] eqn:Htr
  end; destruct H4 as [t1 [Ht4 [Hq1 Hd4]]]; cbn [snd] in Ht4, Hd4;
    rewrite trace_grown, Ht3 in Ht4; rewrite dirs_grown, Hd3 in Hd4.
  2:{ eexists. split; [rewrite Ht4, <- !app_assoc; reflexivity|].
      split; [quiet_list|right; exact Hd4]. }
  (* summarizing *)
  rewrite bind_run.
  pose proof (set_progress_spec (inject_Z 85) w4) as H5.
  destruct (set_progress (inject_Z 85) w4) as [r5 w5].
  destruct H5 as [-> [Ht5 Hd5]]. rewrite Ht4 in Ht5. rewrite Hd4 in Hd5.
  rewrite bind_run, send_run. rewrite bind_run.
  match goal with
  | |- context [summarizeTranscript E ?a ?f ?g ?w0] =>
      pose proof (keeps_summarizeTranscript E a w0) as H6;
      destruct (summarizeTranscript E a f g w0)
        as [[result|e] w6] eqn:Hsum
  end; destruct H6 as [t2 [Ht6 [Hq2 Hd6]]]; cbn [snd] in Ht6, Hd6;
    rewrite trace_grown, Ht5 in Ht6; rewrite dirs_grown, Hd5 in Hd6.
  2:{ eexists. split; [rewrite Ht6, <- !app_assoc; reflexivity|].
      split; [quiet_list|right; exact Hd6]. }
  (* done *)
  rewrite bind_run, send_run, emit_run, grown_grown. cbn [app].
  exists title, transcript, audioUrl, result, x, t1, t2.
  do 4 eexists.
  split; [exact Hmk|]. split; [exact Hres|]. split; [exact Hdl|].
  split; [exact Hrn|]. split; [exact Htr|]. split; [exact Hsum|].
  split.
  { rewrite trace_grown, Ht6. unfold stage_prefix.
    rewrite <- !app_assoc. reflexivity. }
  split; [exact Hq1|]. split; [exact Hq2|].
  rewrite dirs_grown. exact Hd6.
Qed.

End Stages.

(** ** The handler *)

Ltac flatten_app :=
  repeat first [rewrite <- app_assoc | progress cbn [app tl]].

Section Handler.

Variable E : env.

Lemma job_dir_truthy : truthy (job_dir E) = true.
Proof.
  unfold job_dir, path_join. destruct (tmpdir E); reflexivity.
Qed.

(** [POST_gate] neither throws nor touches the world. *)
Lemma POST_gate_run (r : request) (w : world) :
  exists resp, POST_gate E r w = (Returned resp, w).
Proof.
  unfold POST_gate, try_catch, bind, await, cleanup, ret.
  destruct (destructure_url r) as [url|e]; cbn; [|eauto].
  destruct (truthy (api_key_of E r)); cbn; [|eauto].
  destruct (url_includes url) as [[|]|e]; cbn; eauto.
Qed.

(** What [POST_gate] answers. *)
Lemma POST_gate_answer (r : request) (w : world) :
  fst (POST_gate E r w)
  = Returned
      match destructure_url r with
      | Thrown _ => Json 500 (lit "Server Error")
      | Returned url =>
          if truthy (api_key_of E r) then
            match url_includes url with
            | Thrown _ => Json 500 (lit "Server Error")
            | Returned true => EventStream
            | Returned false => Json 400 invalid_link_message
            end
          else Json 401 missing_key_message
      end.
Proof.
  unfold POST_gate, try_catch, bind, await, cleanup, ret.
  destruct (destructure_url r) as [url|e]; cbn; [|reflexivity].
  destruct (truthy (api_key_of E r)); cbn; [|reflexivity].
  destruct (url_includes url) as [[|]|e]; reflexivity.
Qed.

Lemma cleanup_spec (d : jsstring) (w : world) :
  truthy d = true ->
  trace (snd (cleanup E d w)) = trace w ++ [Rm d]
  /\ (rm_result E = Returned tt ->
      dirs (snd (cleanup E d w))
      = filter (fun x => negb (JS.eqb x d)) (dirs w))
  /\ (forall e, rm_result E = Thrown e ->
                dirs (snd (cleanup E d w)) = dirs w).
Proof.
  intros Hd. unfold cleanup. rewrite Hd.
  unfold try_catch, rmAsync, bind, emit, await, ret.
  destruct (rm_result E) as [[]|e]; cbn.
  - split; [reflexivity|]. split; [reflexivity|]. intros e H. discriminate H.
  - split; [reflexivity|]. split; [intros H; discriminate H|reflexivity].
Qed.

(** The stream: the directory is made first, the terminal event is sent
    once, the stream is closed, and the removal of the directory comes
    last. *)
Lemma stream_start_shape (w : world) :
  let d := job_dir E in
  let w' := snd (stream_start E w) in
  exists t ev,
    fst (stream_start E w) = Returned tt
    /\ trace w' = trace w ++ Mkdir d :: t ++ [Send ev; Close; Rm d]
    /\ Forall quiet t
    /\ ((exists w1 title transcript audioUrl result,
           ev = done_event (mkPayload title transcript audioUrl result)
           /\ succeeded E d w w1 title transcript audioUrl result
           /\ trace w1 = trace w ++ Mkdir d :: t ++ [Send ev; Close])
        \/ (ev_stage ev = error
            /\ exists e w1,
                 run_stages E d w = (Thrown e, w1)
                 /\ ev = error_event (stream_error_message e)))
    /\ (rm_result E = Returned tt ->
        dirs w' = filter (fun x => negb (JS.eqb x d)) (dirs w))
    /\ (forall e, rm_result E = Thrown e ->
                  dirs w' = dirs w \/ dirs w' = d :: dirs w).
Proof.
  cbv zeta. unfold stream_start, try_finally, try_catch.
  pose proof (run_stages_shape E (job_dir E) w) as Hshape.
  destruct (run_stages E (job_dir E) w) as [[[]|e] w1] eqn:Hrun.
  - destruct Hshape as (title & transcript & audioUrl & result & Hshape).
    pose proof Hshape as Hs.
    destruct Hs as (x & t1 & t2
                    & wa & wb & wc & wd & Hmk & Hres & Hdl & Hrn & Htr
                    & Hsum & Htrace & Hq1 & Hq2 & Hdirs).
    destruct (cleanup_spec (job_dir E) w1 job_dir_truthy)
      as [Hct [Hok Hko]].
    exists (tl (stage_prefix (job_dir E) audioUrl x) ++ t1
            ++ [Send (progress_event summarizing 85)] ++ t2),
      (done_event (mkPayload title transcript audioUrl result)).
    cbn [fst snd].
    split; [reflexivity|]. split.
    { rewrite Hct, Htrace. unfold stage_prefix. flatten_app.
      reflexivity. }
    split.
    { unfold stage_prefix. cbn [tl].
      repeat first
        [ apply Forall_nil
        | apply Forall_cons; [first [exact I | split; discriminate]|]
        | apply Forall_app; split
        | apply transcribing_quiet; assumption
        | apply summarizing_quiet; assumption ]. }
    split.
    { left. exists w1, title, transcript, audioUrl, result.
      split; [reflexivity|]. split; [exact Hshape|].
      rewrite Htrace. unfold stage_prefix. flatten_app. reflexivity. }
    split.
    { intros H. rewrite (Hok H), Hdirs. cbn [filter].
      assert (Hd : JS.eqb (job_dir E) (job_dir E) = true)
        by (apply eqb_eq; reflexivity).
      rewrite Hd. reflexivity. }
    { intros e H. right. rewrite (Hko e H). exact Hdirs. }
  - destruct Hshape as [t [Htrace [Hq Hdirs]]].
    rewrite bind_run, send_run, emit_run, grown_grown. cbn [app].
    match goal with
    | |- context [cleanup E ?d ?w0] =>
        destruct (cleanup_spec d w0 job_dir_truthy) as [Hct [Hok Hko]]
    end.
    rewrite trace_grown in Hct. rewrite dirs_grown in Hok, Hko.
    exists t, (error_event (stream_error_message e)).
    cbn [fst snd].
    split; [reflexivity|]. split.
    { rewrite Hct, Htrace. flatten_app. reflexivity. }
    split; [exact Hq|]. split.
    { right. split; [reflexivity|]. exists e, w1. split; reflexivity. }
    split.
    { intros H. rewrite (Hok H). destruct Hdirs as [-> | ->];
        [reflexivity|].
      cbn [filter].
      assert (Hd : JS.eqb (job_dir E) (job_dir E) = true)
        by (apply eqb_eq; reflexivity).
      rewrite Hd. reflexivity. }
    { intros e' H. rewrite (Hko e' H). exact Hdirs. }
Qed.

(** The handler never throws, and a request it rejects leaves no trace
    and no directory. *)
Lemma run_rejected (r : request) :
  match fst (POST_gate E r initial_world) with
  | Returned EventStream =>
      run E r = (Returned EventStream, snd (stream_start E initial_world))
  | Returned resp => run E r = (Returned resp, initial_world)
  | Thrown _ => False
  end.
Proof.
  unfold run, POST. rewrite bind_run.
  destruct (POST_gate_run r initial_world) as [resp Hgate].
  rewrite Hgate. cbn [fst].
  destruct resp as [status message|]; [reflexivity|].
  rewrite bind_run.
  destruct (stream_start_shape initial_world) as [t [ev [Hret _]]].
  destruct (stream_start E initial_world) as [[[]|e] w1];
    [reflexivity|discriminate Hret].
Qed.

End Handler.

(** ** Properties of the handler *)

Section Projections.

Lemma sent_app (t u : list effect) : sent (t ++ u) = sent t ++ sent u.
Proof. apply flat_map_app. Qed.

Lemma made_app (t u : list effect) : made (t ++ u) = made t ++ made u.
Proof. apply flat_map_app. Qed.

Lemma removed_app (t u : list effect) :
  removed (t ++ u) = removed t ++ removed u.
Proof. apply flat_map_app. Qed.

Lemma terminal_events_app (t u : list effect) :
  terminal_events (t ++ u) = terminal_events t ++ terminal_events u.
Proof. unfold terminal_events. rewrite sent_app. apply filter_app. Qed.

Lemma quiet_made (t : list effect) : Forall quiet t -> made t = [].
Proof.
  induction 1 as [|x t Hx _ IH]; [reflexivity|].
  destruct x; cbn in *; try exact IH; contradiction.
Qed.

Lemma quiet_removed (t : list effect) : Forall quiet t -> removed t = [].
Proof.
  induction 1 as [|x t Hx _ IH]; [reflexivity|].
  destruct x; cbn in *; try exact IH; contradiction.
Qed.

Lemma quiet_terminal (t : list effect) :
  Forall quiet t -> terminal_events t = [].
Proof.
  induction 1 as [|x t Hx _ IH]; [reflexivity|].
  destruct x; try exact IH; try contradiction.
  destruct Hx as [Hd He]. unfold terminal_events in *. cbn.
  destruct (ev_stage ev); cbn; try exact IH; congruence.
Qed.


Lemma terminal_of_shape (d : jsstring) (t : list effect) (ev : event) :
  Forall quiet t ->
  ev_stage ev = done \/ ev_stage ev = error ->
  terminal_events (Mkdir d :: t ++ [Send ev; Close; Rm d]) = [ev].
Proof.
  intros Hq Hstage.
  change (Mkdir d :: t ++ [Send ev; Close; Rm d])
    with ([Mkdir d] ++ t ++ [Send ev; Close; Rm d]).
  rewrite !terminal_events_app, (quiet_terminal t Hq).
  unfold terminal_events. cbn.
  destruct Hstage as [-> | ->]; reflexivity.
Qed.


End Projections.

Section Claims.

Variable E : env.

Lemma run_stream (r : request) :
  fst (run E r) = Returned EventStream ->
  run E r = (Returned EventStream, snd (stream_start E initial_world)).
Proof.
  intros H. pose proof (run_rejected E r) as Hr.
  destruct (fst (POST_gate E r initial_world)) as [[s m|]|e];
    [|exact Hr|contradiction].
  rewrite Hr in H. discriminate H.
Qed.

(** A request that is not answered by a stream leaves no trace and no
    directory. *)
Lemma rejected_request_leaves_nothing (r : request) :
  fst (run E r) <> Returned EventStream -> snd (run E r) = initial_world.
Proof.
  intros H. pose proof (run_rejected E r) as Hr.
  destruct (fst (POST_gate E r initial_world)) as [[s m|]|e];
    [rewrite Hr; reflexivity| |contradiction].
  rewrite Hr in H. contradiction H. reflexivity.
Qed.

(** The handler always answers. *)
Lemma run_answers (r : request) : exists resp, fst (run E r) = Returned resp.
Proof.
  pose proof (run_rejected E r) as Hr.
  destruct (fst (POST_gate E r initial_world)) as [[s m|]|e];
    [| |contradiction]; rewrite Hr; eexists; reflexivity.
Qed.

(** C2 (amended): a request answered by a stream makes the transient
    directory once, before anything else; then come effects that
    neither make nor remove a directory and send no terminal event;
    then exactly one terminal event, [done] or [error], the closing of
    the stream, and last the one removal of the directory.  When the
    removal succeeds no transient directory is left; when it throws, the
    error is swallowed and the directory stays, unless it could not be
    made.  A request answered otherwise, which includes every exit taken
    before the stream exists, has made no directory and has nothing to
    remove. *)
Theorem transient_directory_lifecycle (r : request) :
  let d := job_dir E in
  let w := snd (run E r) in
  match fst (run E r) with
  | Returned EventStream =>
      exists t ev,
        trace w = Mkdir d :: t ++ [Send ev; Close; Rm d]
        /\ Forall quiet t
        /\ (ev_stage ev = done \/ ev_stage ev = error)
        /\ made (trace w) = [d]
        /\ removed (trace w) = [d]
        /\ terminal_events (trace w) = [ev]
        /\ match rm_result E with
           | Returned _ => dirs w = []
           | Thrown _ => dirs w = [] \/ dirs w = [d]
           end
  | Returned (Json _ _) => w = initial_world
  | Thrown _ => False
  end.
Proof.
  cbv zeta. destruct (fst (run E r)) as [[s m|]|e] eqn:H.
  - apply rejected_request_leaves_nothing. rewrite H. discriminate.
  - rewrite (run_stream r H). cbn [snd].
    destruct (stream_start_shape E initial_world)
      as (t & ev & _ & Htrace & Hq & Hev & Hok & Hko).
    cbv zeta in Htrace, Hok, Hko. cbn [trace dirs initial_world app] in *.
    assert (Hstage : ev_stage ev = done \/ ev_stage ev = error).
    { destruct Hev as [(w1 & ti & tr & au & re & -> & _)|[He _]];
        [left; reflexivity|right; exact He]. }
    exists t, ev. rewrite Htrace.
    split; [reflexivity|]. split; [exact Hq|]. split; [exact Hstage|].
    split.
    { change (Mkdir (job_dir E) :: t ++ [Send ev; Close; Rm (job_dir E)])
        with ([Mkdir (job_dir E)] ++ t ++ [Send ev; Close; Rm (job_dir E)]).
      rewrite !made_app, (quiet_made t Hq). reflexivity. }
    split.
    { change (Mkdir (job_dir E) :: t ++ [Send ev; Close; Rm (job_dir E)])
        with ([Mkdir (job_dir E)] ++ t ++ [Send ev; Close; Rm (job_dir E)]).
      rewrite !removed_app, (quiet_removed t Hq). reflexivity. }
    split; [apply terminal_of_shape; assumption|].
    destruct (rm_result E) as [[]|e'];
      [apply Hok; reflexivity|apply (Hko e'); reflexivity].
  - destruct (run_answers r) as [resp Hr]. congruence.
Qed.


End Claims.

(** C2 (as stated, refuted): the removal of the directory fails, the
    error is caught and logged, and the directory is still there after
    the [done] event has been sent and the stream closed. *)
Lemma directory_survives_failed_removal :
  let w := snd (run stuck_env good_request) in
  fst (run stuck_env good_request) = Returned EventStream
  /\ map ev_stage (terminal_events (trace w)) = [done]
  /\ made (trace w) = [job_dir stuck_env]
  /\ removed (trace w) = [job_dir stuck_env]
  /\ dirs w = [job_dir stuck_env].
Proof. vm_compute. repeat split. Qed.



(** ** The heartbeat of the summarizing stage *)

Section Heartbeat.








Variable E : env.

(** [Math.random()] is never negative. *)
Hypothesis random_nonnegative :
  forall site model content isPartial,
    Forall (fun r => (0 <= r)%Q)
      (fst (chat_completion E site model content isPartial)).


End Heartbeat.

Ltac run_steps :=
  repeat first
    [ rewrite bind_run | rewrite emit_run | rewrite send_run
    | progress unfold await, ret | progress cbv beta iota ].

Section DoneEvent.

Variable E : env.





End DoneEvent.



(** ** summarizeTranscript: the fallback *)

(** C3 (the code at the failing input): on the chunked path the final
    call is made with the primary model outside any fallback; a single
    rate-limit answer to it is turned into the quota error at once: the
    fallback model is never called and no notice names it. *)
Theorem final_call_has_no_fallback :
  let r := summarizeTranscript final_limited_env long_transcript
             onHeartbeat send initial_world in
  rate_limited rate_limit_429 = true
  /\ fst r = Thrown (new_Error (quota_message (lit "7m12.5s.")))
  /\ models_called (trace (snd r)) = [MODELS_PRIMARY; MODELS_PRIMARY]
  /\ notices (trace (snd r))
     = [LongTranscript 15; AnalysingChunk 1 1; Merging].
Proof. cbv zeta. repeat apply conj; vm_compute; reflexivity. Qed.

(** The direct call does fall back: one notice, one call to the fallback
    model, and the result is the fallback's answer. *)
Example direct_call_falls_back :
  let r := summarizeTranscript (primary_limited_env (Returned heading_answer))
             (lit "hello") onHeartbeat send initial_world in
  fst r = Returned (mkResult universal (lit "# Episode"))
  /\ models_called (trace (snd r)) = [MODELS_PRIMARY; MODELS_FALLBACK]
  /\ notices (trace (snd r)) = [FallbackDirect (lit "7m12.5s.")].
Proof. cbv zeta. repeat apply conj; vm_compute; reflexivity. Qed.

(** Rate limited twice, the direct call ends in the quota error, which
    carries the delay read in the message. *)
Example direct_call_quota_exhausted :
  let r := summarizeTranscript (primary_limited_env (Thrown rate_limit_429))
             (lit "hello") onHeartbeat send initial_world in
  fst r = Thrown (new_Error (quota_message (lit "7m12.5s.")))
  /\ models_called (trace (snd r)) = [MODELS_PRIMARY; MODELS_FALLBACK]
  /\ notices (trace (snd r)) = [FallbackDirect (lit "7m12.5s.")].
Proof. cbv zeta. repeat apply conj; vm_compute; reflexivity. Qed.

(** So does a chunk call. *)
Example chunk_call_falls_back :
  let r := summarize_chunks
             (primary_limited_env (Returned (Some (lit "notes"))))
             onHeartbeat send [lit "chunk one"] 0 1 [] initial_world in
  fst r = Returned [lit "notes"]
  /\ models_called (trace (snd r)) = [MODELS_PRIMARY; MODELS_FALLBACK]
  /\ notices (trace (snd r)) = [AnalysingChunk 1 1; FallbackChunk 1].
Proof. cbv zeta. repeat apply conj; vm_compute; reflexivity. Qed.

(** The final [catch] looks at the status only: a second rate-limit
    error that carries the code but not the status 429 is reported as a
    failure of the analysis. *)
Example code_only_rate_limit_is_a_failure :
  let r := summarizeTranscript
             (primary_limited_env (Thrown rate_limit_code_only))
             (lit "hello") onHeartbeat send initial_world in
  rate_limited rate_limit_code_only = true
  /\ fst r = Thrown (new_Error (failure_message (lit "Rate limit reached"))).
Proof. cbv zeta. split; vm_compute; reflexivity. Qed.

(** Any other failure of a call is reported with its message, and the
    fallback model is not called. *)
Example other_failure_is_reported :
  let r := summarizeTranscript failing_model_env (lit "hello")
             onHeartbeat send initial_world in
  rate_limited server_error_500 = false
  /\ fst r
     = Thrown (new_Error (failure_message (lit "500 Internal Server Error")))
  /\ models_called (trace (snd r)) = [MODELS_PRIMARY]
  /\ notices (trace (snd r)) = [].
Proof. cbv zeta. repeat apply conj; vm_compute; reflexivity. Qed.

(** A long transcript of white space yields no chunk: the chunked path
    makes no chunk call and goes on to the final call with an empty
    merged content. *)
Lemma blank_transcript_no_chunk_summary :
  let r := summarizeTranscript minute_env
             blank_long_transcript onHeartbeat send initial_world in
  splitTranscriptIntoChunks blank_long_transcript 8000 = []
  /\ fst r = Returned (mkResult universal (lit "# Episode"))
  /\ trace (snd r)
     = [Send (notice_event (LongTranscript 15));
        Send (notice_event Merging);
        CallModel MODELS_PRIMARY (finalPrompt []) false].
Proof. cbv zeta. repeat apply conj; vm_compute; reflexivity. Qed.

(** ** The Segmenter *)

(** C1 (the code at the failing input): with 1001 windows the file names
    run from chunk000 to chunk1000 and the default sort puts chunk1000
    between chunk100 and chunk101: the last window of the audio is the
    102nd segment, and it is transcribed 102nd. *)
Theorem segments_out_of_order_past_1000 :
  let d := lit "/tmp/job" in
  let r := segment marathon_env (path_join d (lit "input.mp3")) (lit ".mp3") d
             initial_world in
  exists chunks,
    fst r = Returned chunks
    /\ length chunks = 1001
    /\ nth 100 chunks [] = path_join d (lit "chunk100.mp3")
    /\ nth 101 chunks [] = path_join d (segment_name (lit ".mp3") 1000)
    /\ nth 102 chunks [] = path_join d (lit "chunk101.mp3")
    /\ nth 1000 chunks [] = path_join d (lit "chunk999.mp3")
    /\ nth 101 (transcribed (trace (snd (run marathon_env good_request)))) []
       = path_join (job_dir marathon_env) (lit "chunk1000.mp3").
Proof.
  cbv zeta.
  exists (map (path_join (lit "/tmp/job"))
            (JS.sort (map (segment_name (lit ".mp3")) (seq 0 1001)))).
  repeat apply conj; vm_compute; reflexivity.
Qed.

(** *** The default sort *)

Section DefaultSort.

Lemma leb_cases (a b : jsstring) :
  JS.leb a b = true <-> JS.compare a b = Lt \/ a = b.
Proof.
  unfold JS.leb. split.
  - destruct (JS.compare a b) eqn:Hc; intros H;
      [right; apply compare_eq; exact Hc|left; reflexivity|discriminate H].
  - intros [H|H]; [rewrite H; reflexivity|].
    subst b. rewrite compare_refl. reflexivity.
Qed.

Lemma ltb_lt (a b : jsstring) : JS.ltb a b = true <-> JS.compare a b = Lt.
Proof.
  unfold JS.ltb. destruct (JS.compare a b); split; congruence.
Qed.

Lemma js_le_trans (a b c : jsstring) : js_le a b -> js_le b c -> js_le a c.
Proof.
  unfold js_le. rewrite !leb_cases.
  intros [Hab| ->] [Hbc| ->]; auto.
  left. eapply compare_trans; eassumption.
Qed.

Lemma js_le_antisym (a b : jsstring) : js_le a b -> js_le b a -> a = b.
Proof.
  unfold js_le. rewrite !leb_cases. intros [Hab|Hab] [Hba|Hba]; auto.
  rewrite compare_antisym, Hab in Hba. discriminate Hba.
Qed.

Lemma js_le_total (a b : jsstring) : js_le a b \/ js_le b a.
Proof.
  unfold js_le, JS.leb. rewrite (compare_antisym a b).
  destruct (JS.compare a b); cbn; auto.
Qed.

Lemma insert_perm (x : jsstring) (l : list jsstring) :
  Permutation (x :: l) (JS.insert x l).
Proof.
  induction l as [|y l IH]; cbn [JS.insert]; [reflexivity|].
  destruct (JS.leb x y); [reflexivity|].
  etransitivity; [apply perm_swap|]. apply perm_skip. exact IH.
Qed.

Lemma sort_perm (l : list jsstring) : Permutation l (JS.sort l).
Proof.
  induction l as [|x l IH]; [reflexivity|].
  change (JS.sort (x :: l)) with (JS.insert x (JS.sort l)).
  etransitivity; [apply perm_skip; exact IH|apply insert_perm].
Qed.

Lemma insert_sorted (x : jsstring) (l : list jsstring) :
  Sorted js_le l -> Sorted js_le (JS.insert x l).
Proof.
  induction 1 as [|y l Hs IH Hhd]; cbn [JS.insert].
  - repeat constructor.
  - destruct (JS.leb x y) eqn:Hxy.
    + constructor; [constructor; assumption|constructor; exact Hxy].
    + constructor; [exact IH|].
      assert (Hyx : js_le y x).
      { destruct (js_le_total x y) as [H|H]; [|exact H].
        unfold js_le in H. congruence. }
      destruct l as [|z l]; cbn [JS.insert].
      * constructor. exact Hyx.
      * destruct (JS.leb x z); constructor; [exact Hyx|].
        inversion Hhd; subst. assumption.
Qed.

Lemma sort_sorted (l : list jsstring) : Sorted js_le (JS.sort l).
Proof.
  induction l as [|x l IH]; [constructor|].
  change (JS.sort (x :: l)) with (JS.insert x (JS.sort l)).
  apply insert_sorted. exact IH.
Qed.

(** A list has one sorted arrangement only. *)
Lemma sorted_unique (l1 : list jsstring) :
  forall l2,
    StronglySorted js_le l1 -> StronglySorted js_le l2 ->
    Permutation l1 l2 -> l1 = l2.
Proof.
  induction l1 as [|a l1 IH]; intros l2 H1 H2 Hp.
  - apply Permutation_nil in Hp. symmetry. exact Hp.
  - destruct l2 as [|b l2];
      [apply Permutation_sym, Permutation_nil in Hp; discriminate Hp|].
    inversion H1 as [|? ? Hs1 Ha]; subst.
    inversion H2 as [|? ? Hs2 Hb]; subst.
    rewrite Forall_forall in Ha, Hb.
    assert (Hab : a = b).
    { assert (Ha2 : In a (b :: l2))
        by (eapply Permutation_in; [exact Hp|left; reflexivity]).
      assert (Hb1 : In b (a :: l1))
        by (eapply Permutation_in;
            [apply Permutation_sym; exact Hp|left; reflexivity]).
      destruct Ha2 as [Ha2|Ha2]; [congruence|].
      destruct Hb1 as [Hb1|Hb1]; [congruence|].
      apply js_le_antisym; [apply Ha; exact Hb1|apply Hb; exact Ha2]. }
    subst b. f_equal. apply IH; try assumption.
    eapply Permutation_cons_inv. exact Hp.
Qed.

Lemma strictly_increasing_sorted (l : list jsstring) :
  strictly_increasing l = true -> Sorted js_le l.
Proof.
  induction l as [|x [|y l] IH]; intros H.
  - constructor.
  - repeat constructor.
  - change (strictly_increasing (x :: y :: l))
      with (JS.ltb x y && strictly_increasing (y :: l)) in H.
    apply andb_prop in H. destruct H as [Hxy H].
    constructor; [apply IH; exact H|]. constructor.
    apply leb_cases. left. apply ltb_lt. exact Hxy.
Qed.

Lemma strictly_increasing_firstn (n : nat) (l : list jsstring) :
  strictly_increasing l = true -> strictly_increasing (firstn n l) = true.
Proof.
  revert l. induction n as [|n IH]; intros l H; [reflexivity|].
  destruct l as [|x [|y l]]; try reflexivity.
  - cbn [firstn]. destruct n; reflexivity.
  - change (strictly_increasing (x :: y :: l))
      with (JS.ltb x y && strictly_increasing (y :: l)) in H.
    apply andb_prop in H. destruct H as [Hxy H].
    specialize (IH (y :: l) H).
    cbn [firstn] in *. destruct n as [|n]; [reflexivity|].
    cbn [firstn] in *.
    change (JS.ltb x y && strictly_increasing (y :: firstn n l) = true).
    rewrite Hxy. exact IH.
Qed.

Lemma firstn_seq_prefix (n m start : nat) :
  n <= m -> firstn n (seq start m) = seq start n.
Proof.
  revert m start. induction n as [|n IH]; intros m start H; [reflexivity|].
  destruct m as [|m]; [lia|]. cbn [seq firstn]. f_equal. apply IH. lia.
Qed.

Lemma filter_permutation (f : jsstring -> bool) (l l' : list jsstring) :
  Permutation l l' -> Permutation (filter f l) (filter f l').
Proof.
  induction 1 as [|x l l' _ IH|x y l|l l' l'' _ IH1 _ IH2]; cbn [filter].
  - constructor.
  - destruct (f x); [apply perm_skip|]; exact IH.
  - destruct (f x), (f y); try reflexivity. apply perm_swap.
  - etransitivity; eassumption.
Qed.

Lemma filter_all (f : jsstring -> bool) (l : list jsstring) :
  Forall (fun x => f x = true) l -> filter f l = l.
Proof.
  induction 1 as [|x l Hx _ IH]; cbn [filter]; [reflexivity|].
  rewrite Hx, IH. reflexivity.
Qed.

Lemma filter_none (f : jsstring -> bool) (l : list jsstring) :
  Forall (fun x => f x = false) l -> filter f l = [].
Proof.
  induction 1 as [|x l Hx _ IH]; cbn [filter]; [reflexivity|].
  rewrite Hx, IH. reflexivity.
Qed.

End DefaultSort.

(** *** The order of the segments *)

Section Segmenter.

Variable E : env.

(** Up to a thousand windows the names of the pattern [chunk%03d] are in
    the order of the default sort. *)
Lemma segment_names_increasing (x : extension) (n : nat) :
  n <= 1000 ->
  strictly_increasing (map (segment_name (ext_string x)) (seq 0 n)) = true.
Proof.
  intros H. rewrite <- (firstn_seq_prefix n 1000 0 H), <- firstn_map.
  apply strictly_increasing_firstn.
  destruct x; vm_compute; reflexivity.
Qed.

Lemma startsWith_app (p s : jsstring) : startsWith (p ++ s) p = true.
Proof.
  induction p as [|c p IH]; cbn [app startsWith].
  - destruct s; reflexivity.
  - rewrite N.eqb_refl. exact IH.
Qed.

Lemma segment_names_are_chunks (originalExt : jsstring) (l : list nat) :
  Forall (fun f => startsWith f (lit "chunk") = true)
    (map (segment_name originalExt) l).
Proof.
  apply Forall_forall. intros f Hf. apply in_map_iff in Hf.
  destruct Hf as [i [<- _]]. apply startsWith_app.
Qed.

(** A failure of the probe is fatal. *)
Lemma segment_probe_failure (inputPath originalExt tempDir : jsstring)
  (w : world) (e : js_error) :
  ffprobe_result E = Thrown e ->
  segment E inputPath originalExt tempDir w
  = (Thrown e, grown w [Probe inputPath]).
Proof.
  intros H. unfold segment, ffprobe. run_steps. rewrite H. reflexivity.
Qed.

(** At most 180 seconds, or no duration at all: the input file is the
    only segment, and ffmpeg is not run. *)
Lemma segment_short (inputPath originalExt tempDir : jsstring) (w : world)
  (d : option Q) :
  ffprobe_result E = Returned d ->
  match d with
  | Some q => (q <= inject_Z 180)%Q
  | None => True
  end ->
  segment E inputPath originalExt tempDir w
  = (Returned [inputPath], grown w [Probe inputPath]).
Proof.
  intros H Hd. unfold segment, ffprobe. run_steps. rewrite H. run_steps.
  assert (Hle : Qle_bool match d with
                         | Some q => q
                         | None => inject_Z 0
                         end CHUNK_SIZE = true).
  { apply Qle_bool_iff. destruct d as [q|]; [exact Hd|discriminate]. }
  rewrite Hle. reflexivity.
Qed.

(** More than 180 seconds and a failure of ffmpeg: fatal as well. *)
Lemma segment_split_failure (inputPath originalExt tempDir : jsstring)
  (w : world) (q : Q) (e : js_error) :
  ffprobe_result E = Returned (Some q) ->
  (inject_Z 180 < q)%Q ->
  ffmpeg_result E = Thrown e ->
  fst (segment E inputPath originalExt tempDir w) = Thrown e.
Proof.
  intros H Hq He. unfold segment, ffprobe. run_steps. rewrite H. run_steps.
  assert (Hle : Qle_bool q CHUNK_SIZE = false).
  { destruct (Qle_bool q CHUNK_SIZE) eqn:Hb; [|reflexivity].
    apply Qle_bool_iff in Hb. unfold CHUNK_SIZE in Hb.
    contradiction (Qlt_not_le _ _ Hq Hb). }
  rewrite Hle. unfold ffmpeg_split. run_steps. rewrite He. reflexivity.
Qed.

(** X18: more than 180 seconds, and up to a thousand windows: whatever
    the order in which the directory is listed, the segments come out in
    the order of the audio. *)
Lemma segment_chronological (x : extension) (inputPath tempDir : jsstring)
  (w : world) (q : Q) (n : nat) (listing : list jsstring) :
  ffprobe_result E = Returned (Some q) ->
  (inject_Z 180 < q)%Q ->
  ffmpeg_result E = Returned n ->
  n <= 1000 ->
  Forall (fun f => startsWith f (lit "chunk") = false) (files w) ->
  readdir_result E
    (files w ++ map (segment_name (ext_string x)) (seq 0 n))
  = Returned listing ->
  Permutation listing
    (files w ++ map (segment_name (ext_string x)) (seq 0 n)) ->
  fst (segment E inputPath (ext_string x) tempDir w)
  = Returned (chronological tempDir (ext_string x) n).
Proof.
  intros H Hq Hn Hle Hfiles Hread Hperm.
  unfold segment, ffprobe. run_steps. rewrite H. run_steps.
  assert (Hgt : Qle_bool q CHUNK_SIZE = false).
  { destruct (Qle_bool q CHUNK_SIZE) eqn:Hb; [|reflexivity].
    apply Qle_bool_iff in Hb. unfold CHUNK_SIZE in Hb.
    contradiction (Qlt_not_le _ _ Hq Hb). }
  rewrite Hgt. unfold ffmpeg_split, readdir. run_steps. rewrite Hn.
  run_steps. cbn [files grown]. rewrite Hread. run_steps. cbn [fst].
  unfold chronological. do 2 f_equal.
  apply sorted_unique.
  - apply Sorted_StronglySorted; [exact js_le_trans|apply sort_sorted].
  - apply Sorted_StronglySorted; [exact js_le_trans|].
    apply strictly_increasing_sorted, segment_names_increasing. exact Hle.
  - etransitivity; [apply Permutation_sym, sort_perm|].
    etransitivity; [apply filter_permutation; exact Hperm|].
    rewrite filter_app, (filter_none _ _ Hfiles).
    rewrite (filter_all _ _ (segment_names_are_chunks _ _)). reflexivity.
Qed.

End Segmenter.

(** *** The fallback of the direct call *)

Section Fallback.

Variable E : env.

Lemma beats_silent (t : list effect) :
  Forall beat t -> models_called t = [] /\ notices t = [].
Proof.
  induction 1 as [|x t [p ->] _ [IHm IHn]]; [split; reflexivity|].
  split; [exact IHm|exact IHn].
Qed.

Lemma heartbeats_run (randoms : list Q) :
  forall w, exists t w',
    heartbeats onHeartbeat randoms w = (Returned tt, w')
    /\ trace w' = trace w ++ t /\ Forall beat t.
Proof.
  induction randoms as [|r randoms IH]; intros w; cbn [heartbeats].
  - exists [], w. rewrite app_nil_r. repeat split. constructor.
  - rewrite bind_run. unfold onHeartbeat at 1. rewrite send_run.
    match goal with
    | |- context [heartbeats onHeartbeat randoms ?w0] =>
        destruct (IH w0) as (t & w' & Hrun & Ht & Hb)
    end.
    rewrite Hrun. eexists. exists w'. split; [reflexivity|].
    split.
    + rewrite Ht. cbn [trace grown]. rewrite <- app_assoc. reflexivity.
    + constructor; [eexists; reflexivity|exact Hb].
Qed.

(** A call: the request, the heartbeats that fire meanwhile, then the
    answer. *)
Lemma callModel_run (site : call_site) (model content : jsstring)
  (isPartial : bool) (w : world) :
  exists t w',
    callModel E onHeartbeat site model content isPartial w
    = (snd (chat_completion E site model content isPartial), w')
    /\ trace w' = trace w ++ CallModel model content isPartial :: t
    /\ Forall beat t.
Proof.
  unfold callModel. rewrite bind_run, emit_run.
  destruct (chat_completion E site model content isPartial)
    as [randoms reply].
  cbv beta iota. rewrite bind_run.
  destruct (heartbeats_run randoms
              (grown w [CallModel model content isPartial]))
    as (t & w' & Hrun & Ht & Hb).
  rewrite Hrun. exists t, w'. split; [reflexivity|].
  split; [|exact Hb].
  rewrite Ht. cbn [trace grown]. rewrite <- app_assoc. reflexivity.
Qed.

Lemma models_called_app (t u : list effect) :
  models_called (t ++ u) = models_called t ++ models_called u.
Proof. apply flat_map_app. Qed.

Lemma notices_app (t u : list effect) :
  notices (t ++ u) = notices t ++ notices u.
Proof. unfold notices. rewrite sent_app. apply flat_map_app. Qed.

(** X21: a transcript within the threshold is summarized in one call to
    the primary model.  When that call is rate limited, and only then, one
    notice is sent and the fallback model is called once, at once; its
    answer, or the error made of its failure, is the result.  The error
    of a failure is the quota error for the status 429 and the failure
    message for anything else. *)
Lemma direct_call_policy (transcript : jsstring) (w : world) :
  length transcript <= CHUNK_THRESHOLD ->
  let r := summarizeTranscript E transcript onHeartbeat send w in
  exists t,
    trace (snd r) = trace w ++ t
    /\ match snd (chat_completion E DirectCall MODELS_PRIMARY transcript
                    false) with
       | Returned c =>
           fst r = Returned (mkResult universal
                               (content_or c generation_failed))
           /\ models_called t = [MODELS_PRIMARY]
           /\ notices t = []
       | Thrown e =>
           if rate_limited e then
             models_called t = [MODELS_PRIMARY; MODELS_FALLBACK]
             /\ notices t = [FallbackDirect (announced_delay e)]
             /\ fst r
                = match snd (chat_completion E DirectCall MODELS_FALLBACK
                               transcript false) with
                  | Returned c =>
                      Returned (mkResult universal
                                  (content_or c generation_failed))
                  | Thrown e' => Thrown (summarization_error e')
                  end
           else
             models_called t = [MODELS_PRIMARY]
             /\ notices t = []
             /\ fst r = Thrown (summarization_error e)
       end.
Proof.
  intros Hlen. cbv zeta.
  remember (summarizeTranscript E transcript onHeartbeat send w) as r eqn:Hr.
  unfold summarizeTranscript in Hr.
  apply Nat.ltb_ge in Hlen. rewrite Hlen in Hr.
  unfold try_catch at 1 in Hr. rewrite bind_run in Hr.
  unfold try_catch at 1 in Hr.
  destruct (callModel_run DirectCall MODELS_PRIMARY transcript false w)
    as (t1 & w1 & Hrun1 & Ht1 & Hb1).
  rewrite Hrun1 in Hr. destruct (beats_silent t1 Hb1) as [Hm1 Hn1].
  destruct (snd (chat_completion E DirectCall MODELS_PRIMARY transcript false))
    as [c|e].
  - subst r. exists (CallModel MODELS_PRIMARY transcript false :: t1).
    cbn [fst snd ret]. split; [exact Ht1|]. split; [reflexivity|].
    change (CallModel MODELS_PRIMARY transcript false :: t1)
      with ([CallModel MODELS_PRIMARY transcript false] ++ t1).
    rewrite models_called_app, notices_app, Hm1, Hn1. split; reflexivity.
  - destruct (rate_limited e) eqn:Hrl.
    + rewrite bind_run, send_run in Hr.
      destruct (callModel_run DirectCall MODELS_FALLBACK transcript false
                  (grown w1 [Send (notice_event
                                     (FallbackDirect
                                        match retry_after (e_message e) with
                                        | Some t => t
                                        | None => some_time
                                        end))]))
        as (t2 & w2 & Hrun2 & Ht2 & Hb2).
      rewrite Hrun2 in Hr. destruct (beats_silent t2 Hb2) as [Hm2 Hn2].
      exists (([CallModel MODELS_PRIMARY transcript false] ++ t1)
              ++ [Send (notice_event (FallbackDirect (announced_delay e)))]
              ++ [CallModel MODELS_FALLBACK transcript false] ++ t2).
      split.
      { subst r.
        destruct (snd (chat_completion E DirectCall MODELS_FALLBACK
                         transcript false));
          cbn [fst snd ret throw]; rewrite Ht2; cbn [trace grown];
          rewrite Ht1; unfold announced_delay; flatten_app; reflexivity. }
      rewrite !models_called_app, !notices_app, Hm1, Hn1, Hm2, Hn2.
      split; [reflexivity|]. split; [reflexivity|]. subst r.
      destruct (snd (chat_completion E DirectCall MODELS_FALLBACK
                       transcript false)); reflexivity.
    + subst r. exists (CallModel MODELS_PRIMARY transcript false :: t1).
      cbn [fst snd throw]. split; [exact Ht1|].
      change (CallModel MODELS_PRIMARY transcript false :: t1)
        with ([CallModel MODELS_PRIMARY transcript false] ++ t1).
      rewrite models_called_app, notices_app, Hm1, Hn1.
      split; [reflexivity|]. split; reflexivity.
Qed.

(** On the chunked path the final call is made bare: when it fails, its
    error is turned into the error of the summarization at once, rate
    limited or not; nothing follows the call but the heartbeats that
    fired during it. *)
Lemma final_call_policy (transcript : jsstring) (w w1 : world)
  (chunkSummaries : list jsstring) (e : js_error) :
  CHUNK_THRESHOLD < length transcript ->
  summarize_chunks E onHeartbeat send
    (splitTranscriptIntoChunks transcript 8000) 0
    (length (splitTranscriptIntoChunks transcript 8000)) []
    (grown w [Send (notice_event
                      (LongTranscript (round_thousands (length transcript))))])
  = (Returned chunkSummaries, w1) ->
  snd (chat_completion E FinalCall MODELS_PRIMARY
         (finalPrompt (join summary_separator chunkSummaries)) false)
  = Thrown e ->
  let r := summarizeTranscript E transcript onHeartbeat send w in
  exists t,
    fst r = Thrown (summarization_error e)
    /\ trace (snd r)
       = trace w1
         ++ Send (notice_event Merging)
            :: CallModel MODELS_PRIMARY
                 (finalPrompt (join summary_separator chunkSummaries)) false
            :: t
    /\ Forall beat t.
Proof.
  intros Hlen Hchunks Hfinal. cbv zeta.
  remember (summarizeTranscript E transcript onHeartbeat send w) as r eqn:Hr.
  unfold summarizeTranscript in Hr.
  apply Nat.ltb_lt in Hlen. rewrite Hlen in Hr.
  unfold try_catch at 1 in Hr. rewrite bind_run, send_run in Hr.
  cbv zeta in Hr.
  rewrite bind_run, Hchunks in Hr.
  rewrite bind_run, send_run, bind_run in Hr.
  destruct (callModel_run FinalCall MODELS_PRIMARY
              (finalPrompt (join summary_separator chunkSummaries)) false
              (grown w1 [Send (notice_event Merging)]))
    as (t & w2 & Hrun & Ht & Hb).
  rewrite Hrun, Hfinal in Hr. subst r. exists t. cbn [fst snd throw].
  split; [reflexivity|]. split; [|exact Hb].
  rewrite Ht. cbn [trace grown]. rewrite <- app_assoc. reflexivity.
Qed.

(** One turn of the chunk loop: the chunk is announced and sent to the
    primary model; when that call is rate limited, and only then, one
    notice is sent and the fallback model is called once.  The loop goes
    on with the summary appended, or stops on the error. *)
Lemma chunk_call_policy (chunk : jsstring) (rest : list jsstring)
  (i total : nat) (acc : list jsstring) (w : world) :
  let go := summarize_chunks E onHeartbeat send in
  exists t w1,
    trace w1 = trace w ++ t
    /\ match snd (chat_completion E (ChunkCall i) MODELS_PRIMARY chunk true)
       with
       | Returned c =>
           go (chunk :: rest) i total acc w
           = go rest (S i) total (acc ++ [content_or c []]) w1
           /\ models_called t = [MODELS_PRIMARY]
           /\ notices t = [AnalysingChunk (i + 1) total]
       | Thrown e =>
           if rate_limited e then
             models_called t = [MODELS_PRIMARY; MODELS_FALLBACK]
             /\ notices t = [AnalysingChunk (i + 1) total;
                             FallbackChunk (i + 1)]
             /\ go (chunk :: rest) i total acc w
                = match snd (chat_completion E (ChunkCall i) MODELS_FALLBACK
                               chunk true) with
                  | Returned c =>
                      go rest (S i) total (acc ++ [content_or c []]) w1
                  | Thrown e' => (Thrown e', w1)
                  end
           else
             models_called t = [MODELS_PRIMARY]
             /\ notices t = [AnalysingChunk (i + 1) total]
             /\ go (chunk :: rest) i total acc w = (Thrown e, w1)
       end.
Proof.
  cbv zeta.
  remember (summarize_chunks E onHeartbeat send (chunk :: rest) i total acc w)
    as r eqn:Hr.
  cbn [summarize_chunks] in Hr.
  rewrite bind_run, send_run, bind_run in Hr. unfold try_catch at 1 in Hr.
  rewrite bind_run in Hr.
  destruct (callModel_run (ChunkCall i) MODELS_PRIMARY chunk true
              (grown w [Send (notice_event (AnalysingChunk (i + 1) total))]))
    as (t1 & w1 & Hrun1 & Ht1 & Hb1).
  rewrite Hrun1 in Hr. destruct (beats_silent t1 Hb1) as [Hm1 Hn1].
  cbn [trace grown] in Ht1. rewrite <- app_assoc in Ht1. cbn [app] in Ht1.
  destruct (snd (chat_completion E (ChunkCall i) MODELS_PRIMARY chunk true))
    as [c|e].
  - eexists. exists w1. split; [exact Ht1|]. cbn [ret] in Hr.
    split; [exact Hr|].
    change (Send (notice_event (AnalysingChunk (i + 1) total))
            :: CallModel MODELS_PRIMARY chunk true :: t1)
      with ([Send (notice_event (AnalysingChunk (i + 1) total));
             CallModel MODELS_PRIMARY chunk true] ++ t1).
    rewrite models_called_app, notices_app, Hm1, Hn1. split; reflexivity.
  - destruct (rate_limited e) eqn:Hrl.
    + rewrite bind_run, send_run, bind_run in Hr.
      destruct (callModel_run (ChunkCall i) MODELS_FALLBACK chunk true
                  (grown w1 [Send (notice_event (FallbackChunk (i + 1)))]))
        as (t2 & w2 & Hrun2 & Ht2 & Hb2).
      rewrite Hrun2 in Hr. destruct (beats_silent t2 Hb2) as [Hm2 Hn2].
      cbn [trace grown] in Ht2. rewrite Ht1 in Ht2.
      exists (([Send (notice_event (AnalysingChunk (i + 1) total));
                CallModel MODELS_PRIMARY chunk true] ++ t1)
              ++ [Send (notice_event (FallbackChunk (i + 1)));
                  CallModel MODELS_FALLBACK chunk true] ++ t2), w2.
      split; [rewrite Ht2; flatten_app; reflexivity|].
      rewrite !models_called_app, !notices_app, Hm1, Hn1, Hm2, Hn2.
      split; [reflexivity|]. split; [reflexivity|]. subst r.
      destruct (snd (chat_completion E (ChunkCall i) MODELS_FALLBACK chunk
                       true)); reflexivity.
    + eexists. exists w1. split; [exact Ht1|].
      change (Send (notice_event (AnalysingChunk (i + 1) total))
              :: CallModel MODELS_PRIMARY chunk true :: t1)
        with ([Send (notice_event (AnalysingChunk (i + 1) total));
               CallModel MODELS_PRIMARY chunk true] ++ t1).
      rewrite models_called_app, notices_app, Hm1, Hn1.
      split; [reflexivity|]. split; [reflexivity|]. exact Hr.
Qed.

End Fallback.
(** * Further properties *)

(** ** Scans of strings *)

Section Scans.

Variable f : N -> bool.

Lemma takeWhile_dropWhile (s : jsstring) :
  takeWhile f s ++ dropWhile f s = s.
Proof.
  induction s as [|c s IH]; [reflexivity|].
  cbn [takeWhile dropWhile]. destruct (f c); [|reflexivity].
  cbn [app]. rewrite IH. reflexivity.
Qed.

Lemma takeWhile_all (s : jsstring) : forallb f (takeWhile f s) = true.
Proof.
  induction s as [|c s IH]; [reflexivity|].
  cbn [takeWhile]. destruct (f c) eqn:Hc; [|reflexivity].
  cbn [forallb]. rewrite Hc, IH. reflexivity.
Qed.

Lemma takeWhile_app (ws body : jsstring) :
  forallb f ws = true ->
  match body with [] => True | c :: _ => f c = false end ->
  takeWhile f (ws ++ body) = ws /\ dropWhile f (ws ++ body) = body.
Proof.
  intros Hws Hbody. induction ws as [|c ws IH].
  - cbn [app]. destruct body as [|c body]; [split; reflexivity|].
    cbn [takeWhile dropWhile]. rewrite Hbody. split; reflexivity.
  - cbn [forallb] in Hws. apply andb_prop in Hws. destruct Hws as [Hc Hws].
    cbn [app takeWhile dropWhile]. rewrite Hc.
    destruct (IH Hws) as [Ht Hd]. rewrite Ht, Hd. split; reflexivity.
Qed.

End Scans.

Lemma Forall_firstn {A : Type} (P : A -> Prop) (n : nat) (l : list A) :
  Forall P l -> Forall P (firstn n l).
Proof.
  intros H. revert n. induction H as [|x l Hx Hl IH]; intros [|n];
    cbn [firstn]; constructor; auto.
Qed.

Lemma terminator_is_whitespace (c : N) :
  is_line_terminator c = true -> is_whitespace c = true.
Proof.
  unfold is_line_terminator, is_whitespace. intros H.
  repeat (apply orb_prop in H; destruct H as [H|H]);
    apply N.eqb_eq in H; subst c; reflexivity.
Qed.

(** ** The highlights *)

Section Highlights.

(** The match at the head of a string is a bulleted text, and what follows
    it starts with a line terminator. *)
Lemma bullet_line_spec (s m : jsstring) :
  bullet_line s = Some m ->
  exists body post,
    s = m ++ post
    /\ bulleted m body
    /\ strip_bullet m = body
    /\ match post with
       | [] => True
       | c :: _ => is_line_terminator c = true
       end.
Proof.
  destruct s as [|b s1]; [discriminate|]. cbn [bullet_line].
  destruct (is_bullet b) eqn:Hb; [|discriminate].
  pose proof (takeWhile_dropWhile is_whitespace s1) as Hsplit.
  pose proof (takeWhile_all is_whitespace s1) as Hws.
  pose proof (dropWhile_head is_whitespace s1) as Hhead.
  set (ws := takeWhile is_whitespace s1) in *.
  set (rest := dropWhile is_whitespace s1) in *.
  set (line := fun x => negb (is_line_terminator x)).
  pose proof (takeWhile_dropWhile line rest) as Hrest.
  pose proof (takeWhile_all line rest) as Hbody.
  pose proof (dropWhile_head line rest) as Hpost.
  destruct ws as [|w ws'] eqn:Hw; [discriminate|].
  intros Hm. injection Hm as Hm.
  exists (takeWhile line rest), (dropWhile line rest).
  assert (Hfirst : match takeWhile line rest with
                   | [] => True
                   | c :: _ => is_whitespace c = false
                   end).
  { destruct rest as [|c rest']; [exact I|]. cbn [takeWhile].
    destruct (line c); [exact Hhead|exact I]. }
  split.
  { rewrite <- Hm. cbn [app]. rewrite <- app_assoc, Hrest.
    change (b :: s1 = b :: (w :: ws') ++ rest). rewrite Hsplit.
    reflexivity. }
  split.
  { exists b, (w :: ws'). rewrite <- Hm.
    repeat split; try assumption; try reflexivity. discriminate. }
  split.
  { rewrite <- Hm. cbn [strip_bullet]. rewrite Hb.
    change (w :: ws' ++ takeWhile line rest)
      with ((w :: ws') ++ takeWhile line rest).
    destruct (takeWhile_app is_whitespace (w :: ws') (takeWhile line rest)
                Hws Hfirst) as [Ht Hd].
    rewrite Ht, Hd. reflexivity. }
  destruct (dropWhile line rest) as [|c post]; [exact I|].
  unfold line in Hpost. apply negb_false_iff in Hpost. exact Hpost.
Qed.

Lemma bullet_lines_spec (s : jsstring) :
  forall skip line_start pre,
    (line_start = true ->
     pre = [] \/ exists p c, pre = p ++ [c] /\ is_line_terminator c = true) ->
    Forall (fun m => exists pre' post,
                spans_lines (pre ++ s) pre' m post
                /\ bulleted m (strip_bullet m))
      (bullet_lines s skip line_start).
Proof.
  induction s as [|c s IH]; intros skip line_start pre Hstart;
    [constructor|].
  assert (Hnext : is_line_terminator c = true ->
                  pre ++ [c] = []
                  \/ exists p x, pre ++ [c] = p ++ [x]
                                 /\ is_line_terminator x = true).
  { intros Hc. right. exists pre, c. split; [reflexivity|exact Hc]. }
  assert (Hshift : pre ++ c :: s = (pre ++ [c]) ++ s).
  { rewrite <- app_assoc. reflexivity. }
  cbn [bullet_lines]. destruct skip as [|k].
  - destruct line_start.
    + destruct (bullet_line (c :: s)) as [m|] eqn:Hm.
      * constructor.
        { destruct (bullet_line_spec _ _ Hm)
            as [body [post [Hs [Hb [Hstrip Hpost]]]]].
          exists pre, post. split.
          - split; [rewrite Hs; reflexivity|].
            split; [apply Hstart; reflexivity|exact Hpost].
          - rewrite Hstrip. exact Hb. }
        rewrite Hshift. apply IH. exact Hnext.
      * rewrite Hshift. apply IH. exact Hnext.
    + rewrite Hshift. apply IH. exact Hnext.
  - rewrite Hshift. apply IH. exact Hnext.
Qed.

(** X1: the highlights of a summary are at most three, and each is the
    text of a bulleted line of the summary: it follows, at the start of a
    line, a star or a hyphen and a run of white space, it runs to the end
    of its line, and it neither holds a line terminator nor starts with
    white space. *)
Theorem highlights_are_bulleted_lines (summary : jsstring) :
  length (highlights summary) <= 3
  /\ Forall (fun h => exists pre m post,
                 spans_lines summary pre m post /\ bulleted m h)
       (highlights summary).
Proof.
  unfold highlights. split.
  - rewrite length_map. apply firstn_le_length.
  - apply Forall_map. apply Forall_firstn.
    pose proof (bullet_lines_spec summary 0 true []
                  (fun _ => or_introl eq_refl)) as H.
    cbn [app] in H. eapply Forall_impl; [|exact H].
    intros m [pre [post [Hspan Hb]]]. exists pre, m, post. auto.
Qed.

End Highlights.

(** ** The delay read in a rate-limit message *)

Section RetryAfter.

Lemma strip_prefix_inv (p s tail : jsstring) :
  strip_prefix s p = Some tail -> s = p ++ tail.
Proof.
  revert s. induction p as [|x p IH]; intros s H.
  - destruct s; cbn in H; injection H as H; subst; reflexivity.
  - destruct s as [|y s]; [discriminate|]. cbn [strip_prefix] in H.
    destruct (N.eqb x y) eqn:Hxy; [|discriminate].
    apply N.eqb_eq in Hxy. subst y. cbn [app]. rewrite (IH s H).
    reflexivity.
Qed.

Lemma strip_prefix_app (p tail : jsstring) :
  strip_prefix (p ++ tail) p = Some tail.
Proof.
  induction p as [|x p IH]; [destruct tail; reflexivity|].
  cbn [app strip_prefix]. rewrite N.eqb_refl. exact IH.
Qed.

Let phrase : jsstring := lit "try again in ".

(** X2: the delay read in a message is the longest run of letters,
    digits, underscores and dots that follows the leftmost
    [try again in ] which is followed by such a character; none is read
    exactly when no occurrence of the phrase is followed by such a
    character. *)
Theorem retry_after_reads_the_token_after_the_phrase (message : jsstring) :
  match retry_after message with
  | Some t =>
      t <> [] /\ forallb is_retry_char t = true
      /\ exists pre post,
           message = pre ++ lit "try again in " ++ t ++ post
           /\ match post with
              | [] => True
              | c :: _ => is_retry_char c = false
              end
           /\ forall pre' c post',
                message = pre' ++ lit "try again in " ++ c :: post' ->
                length pre' < length pre ->
                is_retry_char c = false
  | None =>
      forall pre c post,
        message = pre ++ lit "try again in " ++ c :: post ->
        is_retry_char c = false
  end.
Proof.
  fold phrase.
  assert (Hhere : forall s c post,
             s = phrase ++ c :: post ->
             match strip_prefix s phrase with
             | Some tail =>
                 match takeWhile is_retry_char tail with
                 | [] => is_retry_char c = false
                 | _ => True
                 end
             | None => False
             end).
  { intros s c post ->. rewrite strip_prefix_app. cbn [takeWhile].
    destruct (is_retry_char c); [exact I|reflexivity]. }
  induction message as [|x rest IH].
  - cbn. intros pre c post H. destruct pre; discriminate H.
  - change (retry_after (x :: rest))
      with (match strip_prefix (x :: rest) phrase with
            | Some tail =>
                match takeWhile is_retry_char tail with
                | [] => retry_after rest
                | g :: group => Some (g :: group)
                end
            | None => retry_after rest
            end).
    destruct (strip_prefix (x :: rest) phrase) as [tail|] eqn:Hstrip.
    + destruct (takeWhile is_retry_char tail) as [|g group] eqn:Hgroup.
      * (* the phrase is here, with no token after it *)
        destruct (retry_after rest) as [t|].
        -- destruct IH as [Hne [Hall [pre [post [Hm [Hpost Hleft]]]]]].
           split; [exact Hne|]. split; [exact Hall|].
           exists (x :: pre), post. split; [rewrite Hm; reflexivity|].
           split; [exact Hpost|].
           intros pre' c post' Hm' Hlen. destruct pre' as [|y pre'].
           ++ cbn [app] in Hm'. pose proof (Hhere _ _ _ Hm') as Hc.
              rewrite Hstrip, Hgroup in Hc. exact Hc.
           ++ cbn [app] in Hm'. injection Hm' as _ Hm'.
              apply (Hleft pre' c post' Hm'). cbn [length] in Hlen. lia.
        -- intros pre c post Hm'. destruct pre as [|y pre].
           ++ cbn [app] in Hm'. pose proof (Hhere _ _ _ Hm') as Hc.
              rewrite Hstrip, Hgroup in Hc. exact Hc.
           ++ cbn [app] in Hm'. injection Hm' as _ Hm'.
              apply (IH pre c post Hm').
      * (* the token is here *)
        split; [discriminate|]. split.
        { pose proof (takeWhile_all is_retry_char tail) as Hall.
          rewrite Hgroup in Hall. exact Hall. }
        exists [], (dropWhile is_retry_char tail). split.
        { pose proof (takeWhile_dropWhile is_retry_char tail) as Htail.
          rewrite Hgroup in Htail. rewrite Htail.
          rewrite (strip_prefix_inv _ _ _ Hstrip). reflexivity. }
        split.
        { pose proof (dropWhile_head is_retry_char tail) as Hd.
          destruct (dropWhile is_retry_char tail); [exact I|exact Hd]. }
        intros pre' c post' _ Hlen. cbn [length] in Hlen. lia.
    + destruct (retry_after rest) as [t|].
      * destruct IH as [Hne [Hall [pre [post [Hm [Hpost Hleft]]]]]].
        split; [exact Hne|]. split; [exact Hall|].
        exists (x :: pre), post. split; [rewrite Hm; reflexivity|].
        split; [exact Hpost|].
        intros pre' c post' Hm' Hlen. destruct pre' as [|y pre'].
        -- cbn [app] in Hm'. pose proof (Hhere _ _ _ Hm') as Hc.
           rewrite Hstrip in Hc. contradiction.
        -- cbn [app] in Hm'. injection Hm' as _ Hm'.
           apply (Hleft pre' c post' Hm'). cbn [length] in Hlen. lia.
      * intros pre c post Hm'. destruct pre as [|y pre].
        -- cbn [app] in Hm'. pose proof (Hhere _ _ _ Hm') as Hc.
           rewrite Hstrip in Hc. contradiction.
        -- cbn [app] in Hm'. injection Hm' as _ Hm'.
           apply (IH pre c post Hm').
Qed.

End RetryAfter.

(** ** File names *)

Section FileNames.

Let clean (s : jsstring) : bool := forallb (fun c => negb (is_forbidden c)) s.

Lemma replace_runs_clean (s : jsstring) (in_run : bool) :
  clean (replace_runs s in_run) = true.
Proof.
  revert in_run. induction s as [|c s IH]; intros in_run; [reflexivity|].
  cbn [replace_runs]. destruct (is_forbidden c) eqn:Hc.
  - destruct in_run; [apply IH|].
    unfold clean. cbn [forallb]. fold (clean (replace_runs s true)).
    rewrite IH. reflexivity.
  - unfold clean. cbn [forallb]. fold (clean (replace_runs s false)).
    rewrite Hc, IH. reflexivity.
Qed.

Lemma replace_runs_length (s : jsstring) (in_run : bool) :
  length (replace_runs s in_run) <= length s.
Proof.
  revert in_run. induction s as [|c s IH]; intros in_run; [apply le_n|].
  cbn [replace_runs length]. destruct (is_forbidden c).
  - destruct in_run.
    + specialize (IH true). lia.
    + cbn [length]. specialize (IH true). lia.
  - cbn [length]. specialize (IH false). lia.
Qed.

Lemma replace_runs_fixed (s : jsstring) (in_run : bool) :
  clean s = true -> replace_runs s in_run = s.
Proof.
  revert in_run. induction s as [|c s IH]; intros in_run H; [reflexivity|].
  unfold clean in H. cbn [forallb] in H. apply andb_prop in H.
  destruct H as [Hc H]. apply negb_true_iff in Hc.
  cbn [replace_runs]. rewrite Hc, (IH false H). reflexivity.
Qed.

Lemma safeFilename_empty (name : jsstring) :
  safeFilename name = [] <-> name = [].
Proof.
  split; [|intros ->; reflexivity].
  destruct name as [|c name]; [reflexivity|].
  unfold safeFilename. cbn [replace_runs].
  destruct (is_forbidden c); discriminate.
Qed.

(** X3: the name that replaces a file name holds none of the characters
    [< > : / \ | ? *] and no double quote, is not longer than the name,
    and is empty only for the empty name. *)
Theorem safeFilename_has_no_forbidden_character (name : jsstring) :
  forallb (fun c => negb (is_forbidden c)) (safeFilename name) = true
  /\ length (safeFilename name) <= length name
  /\ (safeFilename name = [] <-> name = []).
Proof.
  split; [apply (replace_runs_clean name false)|].
  split; [apply replace_runs_length|apply safeFilename_empty].
Qed.

(** X4: the replacement leaves alone exactly the names that hold none of
    the characters it replaces, so that replacing twice is replacing
    once. *)
Theorem safeFilename_keeps_clean_names (name : jsstring) :
  (safeFilename name = name
   <-> forallb (fun c => negb (is_forbidden c)) name = true)
  /\ safeFilename (safeFilename name) = safeFilename name.
Proof.
  split.
  - split.
    + intros H. rewrite <- H. apply (replace_runs_clean name false).
    + apply replace_runs_fixed.
  - apply replace_runs_fixed. apply replace_runs_clean.
Qed.

End FileNames.

(** ** Percent-encoding *)

Section PercentEncoding.

Lemma two_step_ind (P : jsstring -> Prop) :
  P [] -> (forall c, P [c]) ->
  (forall c d s, P s -> P (d :: s) -> P (c :: d :: s)) ->
  forall s, P s.
Proof.
  intros H0 H1 H2 s.
  assert (H : P s /\ forall c, P (c :: s)).
  { induction s as [|d s [IHs IHc]].
    - split; [exact H0|exact H1].
    - split; [apply IHc|]. intros c. apply H2; [exact IHs|apply IHc]. }
  exact (proj1 H).
Qed.

Let is_hex (c : N) : bool := existsb (N.eqb c) (lit "0123456789ABCDEF").

(** A character of the output: a percent sign, a hexadecimal digit, or
    an unreserved character of the input. *)
Let emitted (s : jsstring) (x : N) : Prop :=
  x = 37%N \/ is_hex x = true \/ (is_unreserved x = true /\ In x s).

Lemma hex_digit_hex (n : N) : is_hex (hex_digit n) = true.
Proof.
  unfold hex_digit.
  destruct (nth_in_or_default (N.to_nat n) (lit "0123456789ABCDEF") 48%N)
    as [Hin|Heq]; [|rewrite Heq; reflexivity].
  remember (nth (N.to_nat n) (lit "0123456789ABCDEF") 48%N) as x eqn:Hx.
  clear Hx. cbn in Hin.
  repeat (destruct Hin as [<-|Hin]; [reflexivity|]).
  contradiction.
Qed.

Lemma escape_emitted (s : jsstring) (cp : N) : Forall (emitted s) (escape cp).
Proof.
  unfold escape. apply Forall_flat_map. apply Forall_forall. intros b _.
  unfold percent.
  apply Forall_cons; [left; reflexivity|].
  apply Forall_cons; [right; left; apply hex_digit_hex|].
  apply Forall_cons; [right; left; apply hex_digit_hex|].
  apply Forall_nil.
Qed.

Lemma emitted_cons (c : N) (s : jsstring) (t : jsstring) :
  Forall (emitted s) t -> Forall (emitted (c :: s)) t.
Proof.
  apply Forall_impl. intros x [H|[H|[H Hin]]];
    [left; exact H|right; left; exact H|].
  right. right. split; [exact H|right; exact Hin].
Qed.

Lemma encodeURIComponent_emitted (s : jsstring) :
  forall t, encodeURIComponent s = Some t -> Forall (emitted s) t.
Proof.
  induction s as [| c | c d s IHs IHd] using two_step_ind; intros t H.
  - injection H as <-. constructor.
  - cbn [encodeURIComponent] in H.
    destruct (is_unreserved c) eqn:Hu.
    { injection H as <-. constructor; [|constructor].
      right. right. split; [exact Hu|left; reflexivity]. }
    destruct (is_low_surrogate c); [discriminate|].
    destruct (is_high_surrogate c); [discriminate|].
    injection H as <-. rewrite app_nil_r. apply escape_emitted.
  - change (encodeURIComponent (c :: d :: s))
      with (if is_unreserved c
            then option_map (cons c) (encodeURIComponent (d :: s))
            else if is_low_surrogate c then None
            else if is_high_surrogate c then
              if is_low_surrogate d then
                option_map
                  (app (escape ((c - 55296) * 1024 + (d - 56320) + 65536)%N))
                  (encodeURIComponent s)
              else None
            else option_map (app (escape c)) (encodeURIComponent (d :: s)))
      in H.
    destruct (is_unreserved c) eqn:Hu.
    { destruct (encodeURIComponent (d :: s)) as [t'|]; [|discriminate].
      injection H as <-. constructor.
      - right. right. split; [exact Hu|left; reflexivity].
      - apply emitted_cons. apply IHd. reflexivity. }
    destruct (is_low_surrogate c); [discriminate|].
    destruct (is_high_surrogate c).
    { destruct (is_low_surrogate d); [|discriminate].
      destruct (encodeURIComponent s) as [t'|]; [|discriminate].
      injection H as <-. apply Forall_app. split; [apply escape_emitted|].
      apply emitted_cons, emitted_cons. apply IHs. reflexivity. }
    destruct (encodeURIComponent (d :: s)) as [t'|]; [|discriminate].
    injection H as <-. apply Forall_app. split; [apply escape_emitted|].
    apply emitted_cons. apply IHd. reflexivity.
Qed.

Lemma emitted_not_separator (s : jsstring) (x : N) :
  emitted s x -> is_separator x = false.
Proof.
  intros [->|[H|[H _]]]; [reflexivity| |].
  - unfold is_hex in H. cbn in H.
    repeat (apply orb_prop in H; destruct H as [H|H];
            [apply N.eqb_eq in H; subst x; reflexivity|]).
    discriminate.
  - unfold is_separator. cbn. unfold is_unreserved in H.
    repeat match goal with
           | |- context [N.eqb x ?k] =>
               let E := fresh in
               destruct (N.eqb_spec x k) as [E|E];
               [subst x; discriminate H|]
           end.
    reflexivity.
Qed.

Lemma emitted_printable (s : jsstring) (x : N) :
  emitted s x -> is_unreserved x || (x =? 37)%N = true.
Proof.
  intros [->|[H|[H _]]]; [reflexivity| |rewrite H; reflexivity].
  unfold is_hex in H. cbn in H.
  repeat (apply orb_prop in H; destruct H as [H|H];
          [apply N.eqb_eq in H; subst x; reflexivity|]).
  discriminate.
Qed.

Lemma emitted_not_forbidden (s : jsstring) (x : N) :
  forallb (fun c => negb (is_forbidden c)) s = true ->
  emitted s x -> is_forbidden x = false.
Proof.
  intros Hs [->|[H|[_ Hin]]]; [reflexivity| |].
  - unfold is_hex in H. cbn in H.
    repeat (apply orb_prop in H; destruct H as [H|H];
            [apply N.eqb_eq in H; subst x; reflexivity|]).
    discriminate.
  - rewrite forallb_forall in Hs. apply negb_true_iff. apply Hs. exact Hin.
Qed.

Lemma surrogate_not_unreserved (c : N) :
  is_surrogate c = true -> is_unreserved c = false.
Proof.
  intros Hsur. destruct (is_unreserved c) eqn:Hu; [|reflexivity]. exfalso.
  unfold is_unreserved in Hu.
  unfold is_surrogate, is_high_surrogate, is_low_surrogate in Hsur.
  rewrite !orb_true_iff, !andb_true_iff, !N.leb_le in Hsur.
  rewrite !orb_true_iff, !andb_true_iff, !N.leb_le, !N.eqb_eq in Hu.
  lia.
Qed.

(** The replacement of a name that can be encoded can be encoded. *)
Lemma replace_runs_encoded (s : jsstring) :
  encodeURIComponent s <> None ->
  forall in_run, encodeURIComponent (replace_runs s in_run) <> None.
Proof.
  assert (Hunder : forall r, encodeURIComponent r <> None ->
                             encodeURIComponent (95%N :: r) <> None).
  { intros r Hr. cbn [encodeURIComponent].
    change (is_unreserved 95) with true. cbn iota.
    destruct (encodeURIComponent r); [discriminate|contradiction]. }
  assert (Hforbidden : forall c, is_forbidden c = true ->
                                 is_surrogate c = false).
  { intros c H. unfold is_forbidden in H.
    repeat (apply orb_prop in H; destruct H as [H|H]);
      apply N.eqb_eq in H; subst c; reflexivity. }
  induction s as [| c | c d s IHs IHd] using two_step_ind;
    intros H in_run.
  - discriminate.
  - cbn [replace_runs]. destruct (is_forbidden c).
    + destruct in_run; [discriminate|]. apply Hunder. discriminate.
    + exact H.
  - assert (Htail : is_surrogate c = false ->
                    encodeURIComponent (d :: s) <> None).
    { intros Hc. unfold is_surrogate in Hc. apply orb_false_elim in Hc.
      destruct Hc as [Hhi Hlo]. intros Hnone. apply H.
      change (encodeURIComponent (c :: d :: s))
        with (if is_unreserved c
              then option_map (cons c) (encodeURIComponent (d :: s))
              else if is_low_surrogate c then None
              else if is_high_surrogate c then
                if is_low_surrogate d then
                  option_map
                    (app (escape
                            ((c - 55296) * 1024 + (d - 56320) + 65536)%N))
                    (encodeURIComponent s)
                else None
              else option_map (app (escape c))
                     (encodeURIComponent (d :: s))).
      rewrite Hhi, Hlo, Hnone. destruct (is_unreserved c); reflexivity. }
    change (replace_runs (c :: d :: s) in_run)
      with (if is_forbidden c then
              if in_run then replace_runs (d :: s) true
              else 95%N :: replace_runs (d :: s) true
            else c :: replace_runs (d :: s) false).
    destruct (is_forbidden c) eqn:Hc.
    { specialize (Htail (Hforbidden c Hc)).
      destruct in_run; [apply IHd; exact Htail|].
      apply Hunder. apply IHd. exact Htail. }
    destruct (is_surrogate c) eqn:Hsur.
    + (* a pair: the low half is kept next to the high half *)
      change (encodeURIComponent (c :: d :: s))
        with (if is_unreserved c
              then option_map (cons c) (encodeURIComponent (d :: s))
              else if is_low_surrogate c then None
              else if is_high_surrogate c then
                if is_low_surrogate d then
                  option_map
                    (app (escape
                            ((c - 55296) * 1024 + (d - 56320) + 65536)%N))
                    (encodeURIComponent s)
                else None
              else option_map (app (escape c))
                     (encodeURIComponent (d :: s))) in H.
      assert (Hu : is_unreserved c = false).
      { apply surrogate_not_unreserved. exact Hsur. }
      unfold is_surrogate in Hsur.
      rewrite Hu in H.
      destruct (is_low_surrogate c) eqn:Hlo; [contradiction H; reflexivity|].
      destruct (is_high_surrogate c) eqn:Hhi; [|discriminate Hsur].
      destruct (is_low_surrogate d) eqn:Hd; [|contradiction H; reflexivity].
      assert (Hdf : is_forbidden d = false).
      { destruct (is_forbidden d) eqn:Hf; [|reflexivity].
        pose proof (Hforbidden d Hf) as Hs. unfold is_surrogate in Hs.
        rewrite Hd, orb_true_r in Hs. discriminate Hs. }
      cbn [replace_runs]. rewrite Hdf.
      change (encodeURIComponent (c :: d :: replace_runs s false))
        with (if is_unreserved c
              then option_map (cons c)
                     (encodeURIComponent (d :: replace_runs s false))
              else if is_low_surrogate c then None
              else if is_high_surrogate c then
                if is_low_surrogate d then
                  option_map
                    (app (escape
                            ((c - 55296) * 1024 + (d - 56320) + 65536)%N))
                    (encodeURIComponent (replace_runs s false))
                else None
              else option_map (app (escape c))
                     (encodeURIComponent (d :: replace_runs s false))).
      rewrite Hu, Hlo, Hhi, Hd.
      assert (Hs : encodeURIComponent s <> None).
      { intros Hnone. apply H. rewrite Hnone. reflexivity. }
      specialize (IHs Hs false).
      destruct (encodeURIComponent (replace_runs s false));
        [discriminate|contradiction].
    + specialize (IHd (Htail eq_refl) false).
      unfold is_surrogate in Hsur. apply orb_false_elim in Hsur.
      destruct Hsur as [Hhi Hlo].
      destruct (replace_runs (d :: s) false) as [|d' r] eqn:Hr.
      * cbn [encodeURIComponent]. rewrite Hhi, Hlo.
        destruct (is_unreserved c); discriminate.
      * change (encodeURIComponent (c :: d' :: r))
          with (if is_unreserved c
                then option_map (cons c) (encodeURIComponent (d' :: r))
                else if is_low_surrogate c then None
                else if is_high_surrogate c then
                  if is_low_surrogate d' then
                    option_map
                      (app (escape
                              ((c - 55296) * 1024 + (d' - 56320) + 65536)%N))
                      (encodeURIComponent r)
                  else None
                else option_map (app (escape c))
                       (encodeURIComponent (d' :: r))).
        rewrite Hhi, Hlo.
        destruct (encodeURIComponent (d' :: r)); [|contradiction].
        destruct (is_unreserved c); discriminate.
Qed.

End PercentEncoding.
(** ** Surrogates without their pair *)

Section LoneSurrogates.

Lemma high_not_low (c : N) :
  is_high_surrogate c = true -> is_low_surrogate c = false.
Proof.
  unfold is_high_surrogate, is_low_surrogate.
  rewrite andb_true_iff, andb_false_iff, !N.leb_le, !N.leb_gt. lia.
Qed.

Lemma low_not_high (c : N) :
  is_low_surrogate c = true -> is_high_surrogate c = false.
Proof.
  unfold is_high_surrogate, is_low_surrogate.
  rewrite andb_true_iff, andb_false_iff, !N.leb_le, !N.leb_gt. lia.
Qed.

Lemma option_map_none {A B : Type} (f : A -> B) (o : option A) :
  option_map f o = None <-> o = None.
Proof. destruct o; split; intros H; try discriminate H; reflexivity. Qed.

(** Where the encoding of a string with a head fails. *)
Lemma encodeURIComponent_fails_cons (c : N) (s : jsstring) :
  encodeURIComponent (c :: s) = None
  <-> is_low_surrogate c = true
      \/ (is_high_surrogate c = true
          /\ match s with
             | d :: s' =>
                 is_low_surrogate d = false \/ encodeURIComponent s' = None
             | [] => True
             end)
      \/ (is_surrogate c = false /\ encodeURIComponent s = None).
Proof.
  change (encodeURIComponent (c :: s))
    with (if is_unreserved c then option_map (cons c) (encodeURIComponent s)
          else if is_low_surrogate c then None
          else if is_high_surrogate c then
            match s with
            | d :: s' =>
                if is_low_surrogate d then
                  option_map
                    (app (escape
                            ((c - 55296) * 1024 + (d - 56320) + 65536)%N))
                    (encodeURIComponent s')
                else None
            | [] => None
            end
          else option_map (app (escape c)) (encodeURIComponent s)).
  destruct (is_surrogate c) eqn:Hsur.
  - rewrite (surrogate_not_unreserved c Hsur). unfold is_surrogate in Hsur.
    destruct (is_low_surrogate c) eqn:Hlo.
    { split; [left; reflexivity|reflexivity]. }
    rewrite orb_false_r in Hsur. rewrite Hsur.
    destruct s as [|d s'].
    { split; [intros _; right; left; split; [reflexivity|exact I]
             |reflexivity]. }
    destruct (is_low_surrogate d).
    + rewrite option_map_none. split.
      * intros H. right. left. split; [reflexivity|right; exact H].
      * intros [H|[[_ [H|H]]|[H _]]]; try discriminate H. exact H.
    + split; [|reflexivity]. intros _. right. left.
      split; [reflexivity|left; reflexivity].
  - unfold is_surrogate in Hsur. apply orb_false_elim in Hsur.
    destruct Hsur as [Hhi Hlo]. rewrite Hhi, Hlo.
    destruct (is_unreserved c); rewrite option_map_none; split.
    1,3: intros H; right; right; split; [reflexivity|exact H].
    all: intros [H|[[H _]|[_ H]]]; try discriminate H; exact H.
Qed.

Lemma lone_surrogate_nil : ~ lone_surrogate [].
Proof. intros ([|i] & x & Hx & _); discriminate Hx. Qed.

Lemma lone_surrogate_low (c : N) (s : jsstring) :
  is_low_surrogate c = true -> lone_surrogate (c :: s).
Proof.
  intros Hlo. exists 0, c. split; [reflexivity|]. right.
  split; [exact Hlo|]. intros j p Hj. discriminate Hj.
Qed.

Lemma lone_surrogate_high (c : N) (s : jsstring) :
  is_high_surrogate c = true ->
  (forall d, hd_error s = Some d -> is_low_surrogate d = false) ->
  lone_surrogate (c :: s).
Proof.
  intros Hhi Hnext. exists 0, c. split; [reflexivity|]. left.
  split; [exact Hhi|]. intros d Hd. apply Hnext.
  destruct s; [discriminate Hd|exact Hd].
Qed.

(** A character that is no surrogate can be passed over. *)
Lemma lone_surrogate_skip (c : N) (s : jsstring) :
  is_surrogate c = false -> (lone_surrogate (c :: s) <-> lone_surrogate s).
Proof.
  intros Hsur. unfold is_surrogate in Hsur. apply orb_false_elim in Hsur.
  destruct Hsur as [Hch Hcl]. split.
  - intros ([|i] & x & Hx & Hcase); cbn [nth_error] in Hx.
    + injection Hx as <-. destruct Hcase as [[H _]|[H _]]; congruence.
    + exists i, x. split; [exact Hx|].
      destruct Hcase as [[Hhi Hnext]|[Hlo Hprev]].
      * left. split; [exact Hhi|exact Hnext].
      * right. split; [exact Hlo|]. intros j p -> Hp.
        apply (Hprev (S j) p eq_refl Hp).
  - intros (i & x & Hx & Hcase). exists (S i), x. split; [exact Hx|].
    destruct Hcase as [[Hhi Hnext]|[Hlo Hprev]].
    + left. split; [exact Hhi|exact Hnext].
    + right. split; [exact Hlo|]. intros j p Hj Hp. injection Hj as <-.
      destruct i as [|i']; cbn [nth_error] in Hp.
      * injection Hp as <-. exact Hch.
      * apply (Hprev i' p eq_refl Hp).
Qed.

(** So can a pair. *)
Lemma lone_surrogate_pair (c d : N) (s : jsstring) :
  is_high_surrogate c = true -> is_low_surrogate d = true ->
  (lone_surrogate (c :: d :: s) <-> lone_surrogate s).
Proof.
  intros Hc Hd. split.
  - intros ([|[|i]] & x & Hx & Hcase); cbn [nth_error] in Hx.
    + injection Hx as <-. destruct Hcase as [[_ Hnext]|[Hlo _]].
      * specialize (Hnext d eq_refl). congruence.
      * rewrite (high_not_low c Hc) in Hlo. discriminate Hlo.
    + injection Hx as <-. destruct Hcase as [[Hhi _]|[_ Hprev]].
      * rewrite (low_not_high d Hd) in Hhi. discriminate Hhi.
      * specialize (Hprev 0 c eq_refl eq_refl). congruence.
    + exists i, x. split; [exact Hx|].
      destruct Hcase as [[Hhi Hnext]|[Hlo Hprev]].
      * left. split; [exact Hhi|exact Hnext].
      * right. split; [exact Hlo|]. intros j p -> Hp.
        apply (Hprev (S (S j)) p eq_refl Hp).
  - intros (i & x & Hx & Hcase). exists (S (S i)), x. split; [exact Hx|].
    destruct Hcase as [[Hhi Hnext]|[Hlo Hprev]].
    + left. split; [exact Hhi|exact Hnext].
    + right. split; [exact Hlo|]. intros j p Hj Hp. injection Hj as <-.
      destruct i as [|i']; cbn [nth_error] in Hp.
      * injection Hp as <-. apply low_not_high. exact Hd.
      * apply (Hprev i' p eq_refl Hp).
Qed.

(** [encodeURIComponent] throws exactly on the strings that hold a
    surrogate without its pair. *)
Lemma encodeURIComponent_fails (s : jsstring) :
  encodeURIComponent s = None <-> lone_surrogate s.
Proof.
  assert (Hnil : encodeURIComponent [] = None <-> lone_surrogate []).
  { split; [discriminate|]. intros H. destruct (lone_surrogate_nil H). }
  assert (Hstep : forall c s,
             (encodeURIComponent s = None <-> lone_surrogate s) ->
             (forall d s', s = d :: s' ->
                           (encodeURIComponent s' = None
                            <-> lone_surrogate s')) ->
             (encodeURIComponent (c :: s) = None
              <-> lone_surrogate (c :: s))).
  { intros c r IHr IHpair. rewrite encodeURIComponent_fails_cons.
    destruct (is_low_surrogate c) eqn:Hlo.
    { split; [intros _; apply lone_surrogate_low; exact Hlo
             |intros _; left; reflexivity]. }
    destruct (is_high_surrogate c) eqn:Hhi.
    - destruct r as [|d s'].
      + split; [|intros _; right; left; split; [reflexivity|exact I]].
        intros _. apply lone_surrogate_high; [exact Hhi|].
        intros d Hd. discriminate Hd.
      + destruct (is_low_surrogate d) eqn:Hd.
        * rewrite (lone_surrogate_pair c d s' Hhi Hd).
          rewrite <- (IHpair d s' eq_refl). split.
          -- intros [H|[[_ [H|H]]|[H _]]]; try discriminate H; [exact H|].
             unfold is_surrogate in H. rewrite Hhi in H. discriminate H.
          -- intros H. right. left. split; [reflexivity|right; exact H].
        * split; [|intros _; right; left;
                   split; [reflexivity|left; reflexivity]].
          intros _. apply lone_surrogate_high; [exact Hhi|].
          intros x Hx. injection Hx as <-. exact Hd.
    - assert (Hsur : is_surrogate c = false)
        by (unfold is_surrogate; rewrite Hhi, Hlo; reflexivity).
      rewrite (lone_surrogate_skip c r Hsur), <- IHr. split.
      + intros [H|[[H _]|[_ H]]]; try discriminate H. exact H.
      + intros H. right. right. split; [exact Hsur|exact H]. }
  induction s as [| c | c d s IHs IHd] using two_step_ind.
  - exact Hnil.
  - apply Hstep; [exact Hnil|]. intros d s' H. discriminate H.
  - apply Hstep; [exact IHd|]. intros d' s' H. injection H as <- <-.
    exact IHs.
Qed.

(** The replacement in file names neither makes nor breaks a pair. *)
Lemma replace_runs_fails (s : jsstring) :
  forall in_run,
    encodeURIComponent (replace_runs s in_run) = None
    <-> encodeURIComponent s = None.
Proof.
  intros in_run. split.
  - intros H. destruct (encodeURIComponent s) eqn:Hs; [|reflexivity].
    exfalso. apply (replace_runs_encoded s) with (in_run := in_run).
    + rewrite Hs. discriminate.
    + exact H.
  - revert in_run.
    assert (Hforbidden : forall c, is_forbidden c = true ->
                                   is_surrogate c = false).
    { intros c H. unfold is_forbidden in H.
      repeat (apply orb_prop in H; destruct H as [H|H]);
        apply N.eqb_eq in H; subst c; reflexivity. }
    assert (Hunder : forall r, encodeURIComponent r = None ->
                               encodeURIComponent (95%N :: r) = None).
    { intros r Hr. apply encodeURIComponent_fails_cons. right. right.
      split; [reflexivity|exact Hr]. }
    induction s as [| c | c d s IHs IHd] using two_step_ind;
      intros in_run H.
    + discriminate H.
    + cbn [replace_runs]. destruct (is_forbidden c) eqn:Hf; [|exact H].
      apply encodeURIComponent_fails_cons in H.
      pose proof (Hforbidden c Hf) as Hsur. unfold is_surrogate in Hsur.
      apply orb_false_elim in Hsur. destruct Hsur as [Hhi Hlo].
      destruct H as [H|[[H _]|[_ H]]]; try congruence. discriminate H.
    + change (replace_runs (c :: d :: s) in_run)
        with (if is_forbidden c then
                if in_run then replace_runs (d :: s) true
                else 95%N :: replace_runs (d :: s) true
              else c :: replace_runs (d :: s) false).
      apply encodeURIComponent_fails_cons in H.
      destruct (is_forbidden c) eqn:Hf.
      { pose proof (Hforbidden c Hf) as Hsur. unfold is_surrogate in Hsur.
        apply orb_false_elim in Hsur. destruct Hsur as [Hhi Hlo].
        destruct H as [H|[[H _]|[_ H]]]; try congruence.
        destruct in_run; [apply IHd; exact H|].
        apply Hunder. apply IHd. exact H. }
      apply encodeURIComponent_fails_cons.
      destruct H as [H|[[Hhi H]|[Hsur H]]].
      * left. exact H.
      * right. left. split; [exact Hhi|].
        change (replace_runs (d :: s) false)
          with (if is_forbidden d then 95%N :: replace_runs s true
                else d :: replace_runs s false).
        destruct (is_forbidden d) eqn:Hdf; [left; reflexivity|].
        destruct H as [H|H]; [left; exact H|right].
        apply IHs. exact H.
      * right. right. split; [exact Hsur|]. apply IHd. exact H.
Qed.

End LoneSurrogates.

(** ** The download of the audio *)

Section Downloads.

Lemma escape_nonempty (cp : N) : escape cp <> [].
Proof.
  unfold escape, utf8.
  destruct (cp <? 128)%N; [discriminate|].
  destruct (cp <? 2048)%N; [discriminate|].
  destruct (cp <? 65536)%N; discriminate.
Qed.

Lemma encodeURIComponent_nonempty (s t : jsstring) :
  encodeURIComponent s = Some t -> s <> [] -> t <> [].
Proof.
  destruct s as [|c s]; [intros _ H; contradiction H; reflexivity|].
  intros H _. cbn [encodeURIComponent] in H.
  assert (Happ : forall (a : jsstring) o,
             a <> [] -> option_map (app a) o = Some t -> t <> []).
  { intros a [r|] Ha Hr; [|discriminate]. injection Hr as <-.
    intros Hnil. apply app_eq_nil in Hnil. destruct Hnil as [Hnil _].
    contradiction. }
  destruct (is_unreserved c).
  { destruct (encodeURIComponent s); [|discriminate].
    injection H as <-. discriminate. }
  destruct (is_low_surrogate c); [discriminate|].
  destruct (is_high_surrogate c).
  - destruct s as [|d s]; [discriminate|].
    destruct (is_low_surrogate d); [|discriminate].
    eapply Happ; [apply escape_nonempty|exact H].
  - eapply Happ; [apply escape_nonempty|exact H].
Qed.

Lemma safeFilename_default (name fallback : jsstring) :
  safeFilename fallback = fallback ->
  safeFilename (or_else name fallback)
  = or_else (safeFilename name) fallback.
Proof.
  intros Hf. destruct name as [|c name]; [exact Hf|].
  unfold or_else at 1. cbn [truthy].
  destruct (safeFilename (c :: name)) as [|x r] eqn:Hs; [|reflexivity].
  pose proof (proj1 (safeFilename_empty _) Hs) as Hn. discriminate Hn.
Qed.

Let printable (c : N) : bool :=
  (is_unreserved c || (c =? 37)%N) && negb (is_forbidden c).

(** The name between the quotes of the header. *)
Lemma encoded_safe_name (filename name : jsstring) :
  encodeURIComponent (safeFilename filename) = Some name ->
  forallb printable name = true.
Proof.
  intros H. apply forallb_forall. intros x Hx.
  pose proof (encodeURIComponent_emitted _ _ H) as Hall.
  rewrite Forall_forall in Hall. specialize (Hall x Hx).
  unfold printable. apply andb_true_iff. split.
  - apply (emitted_printable _ _ Hall).
  - apply negb_true_iff.
    apply (emitted_not_forbidden (safeFilename filename));
      [apply (replace_runs_clean filename false)|exact Hall].
Qed.

(** The safe name of the endpoint can be encoded exactly when the file
    name asked for holds no surrogate without its pair. *)
Lemma safe_name_fails (filename : jsstring) :
  encodeURIComponent (safeFilename (or_else filename (lit "podcast"))) = None
  <-> lone_surrogate filename.
Proof.
  unfold safeFilename. rewrite replace_runs_fails, encodeURIComponent_fails.
  destruct filename as [|c r]; [|reflexivity].
  split; [|intros H; destruct (lone_surrogate_nil H)].
  unfold or_else. cbn [truthy]. rewrite <- encodeURIComponent_fails.
  discriminate.
Qed.

(** X5: what the conversion endpoint answers, case by case.  Without an
    address (the parameter missing or empty) it answers 400 and makes no
    request.  With one, it asks the source for the audio: when that
    request fails it answers 500; when it succeeds the conversion starts,
    and the answer is 500 if the file name holds a surrogate without its
    pair, and otherwise 200 with the content type audio/mpeg and a
    content disposition whose quoted file name is the percent-encoding of
    the safe name: it is not empty and holds only letters, digits,
    percent signs and the marks [- _ . ! ~ ' ( )], so no quote, no slash,
    no backslash and no control character. *)
Theorem conversion_endpoint_answers (url filename : option jsstring)
  (upstream : outcome unit) :
  let stem := or_else (or_empty filename) (lit "podcast") in
  let fetch := ProxyAudio.Fetch (or_empty url) in
  let failure := ProxyAudio.ErrorJson 500 (lit "Failed to process audio") in
  (or_empty url = [] ->
   ProxyAudio.GET url filename upstream
   = ([], ProxyAudio.ErrorJson 400 (lit "Missing url parameter")))
  /\ (or_empty url <> [] ->
      forall e, upstream = Thrown e ->
                ProxyAudio.GET url filename upstream = ([fetch], failure))
  /\ (or_empty url <> [] -> upstream = Returned tt ->
      lone_surrogate (or_empty filename) ->
      ProxyAudio.GET url filename upstream
      = ([fetch; ProxyAudio.Convert], failure))
  /\ (or_empty url <> [] -> upstream = Returned tt ->
      ~ lone_surrogate (or_empty filename) ->
      exists name,
        ProxyAudio.GET url filename upstream
        = ([fetch; ProxyAudio.Convert],
           ProxyAudio.Mp3Stream 200 (lit "audio/mpeg")
             (ProxyAudio.attachment name))
        /\ encodeURIComponent (safeFilename stem) = Some name
        /\ name <> []
        /\ forallb (fun c => (is_unreserved c || (c =? 37)%N)
                             && negb (is_forbidden c)) name = true).
Proof.
  cbv zeta. unfold ProxyAudio.GET.
  destruct (or_empty url) as [|c u] eqn:Hurl.
  { split; [reflexivity|].
    repeat split; intros H; contradiction H; reflexivity. }
  cbn [truthy negb]. split; [discriminate|].
  split; [intros _ e ->; reflexivity|].
  pose proof (safe_name_fails (or_empty filename)) as Hfails.
  set (stem := or_else (or_empty filename) (lit "podcast")) in *.
  split; intros _ -> Hlone.
  - apply Hfails in Hlone. rewrite Hlone. reflexivity.
  - destruct (encodeURIComponent (safeFilename stem)) as [name|] eqn:Hname;
      [|contradiction Hlone; apply Hfails; reflexivity].
    exists name. split; [reflexivity|]. split; [reflexivity|]. split.
    + apply (encodeURIComponent_nonempty _ _ Hname).
      intros Hnil. apply (proj1 (safeFilename_empty _)) in Hnil.
      unfold stem, or_else in Hnil.
      destruct (or_empty filename); discriminate Hnil.
    + apply (encoded_safe_name stem name Hname).
Qed.

(** X6: what a click on the download button does, case by case.  When
    neither the address nor the title holds a surrogate without its pair,
    the page follows a link that carries exactly the two parameters [url]
    and [filename], the percent-encodings of the address and of the
    title, which hold none of the characters [& = ? # +] and no space,
    and proposes a name that ends in [.mp3] after the safe name, which is
    not empty and holds none of the characters replaced in file names.
    When one of the two holds such a surrogate, the page opens the
    original address instead. *)
Theorem download_link_carries_two_parameters (url filename : jsstring) :
  (~ lone_surrogate url -> ~ lone_surrogate filename ->
   exists u f stem,
     Page.downloadAudio url filename
     = Page.Follow
         (lit "/api/proxy-audio?url=" ++ u ++ lit "&filename=" ++ f)
         (stem ++ lit ".mp3")
     /\ encodeURIComponent url = Some u
     /\ encodeURIComponent filename = Some f
     /\ forallb (fun c => negb (is_separator c)) u = true
     /\ forallb (fun c => negb (is_separator c)) f = true
     /\ stem = or_else (safeFilename filename) (lit "podcast")
     /\ stem <> []
     /\ forallb (fun c => negb (is_forbidden c)) stem = true)
  /\ (lone_surrogate url \/ lone_surrogate filename ->
      Page.downloadAudio url filename = Page.Open url).
Proof.
  assert (Hsep : forall s t, encodeURIComponent s = Some t ->
                             forallb (fun c => negb (is_separator c)) t
                             = true).
  { intros s t H. apply forallb_forall. intros x Hx.
    pose proof (encodeURIComponent_emitted _ _ H) as Hall.
    rewrite Forall_forall in Hall. apply negb_true_iff.
    apply (emitted_not_separator s). apply Hall. exact Hx. }
  unfold Page.downloadAudio. split.
  - intros Hurl Hname. rewrite <- encodeURIComponent_fails in Hurl, Hname.
    destruct (encodeURIComponent url) as [u|] eqn:Hu;
      [|contradiction Hurl; reflexivity].
    destruct (encodeURIComponent filename) as [f|] eqn:Hf;
      [|contradiction Hname; reflexivity].
    exists u, f, (or_else (safeFilename filename) (lit "podcast")).
    split; [reflexivity|]. split; [reflexivity|]. split; [reflexivity|].
    split; [apply (Hsep url u Hu)|]. split; [apply (Hsep filename f Hf)|].
    split; [reflexivity|]. unfold or_else.
    destruct (safeFilename filename) as [|x r] eqn:Hs; cbn [truthy].
    + split; [discriminate|reflexivity].
    + split; [discriminate|]. rewrite <- Hs.
      apply (replace_runs_clean filename false).
  - rewrite <- !encodeURIComponent_fails. intros [H|H]; rewrite H.
    + reflexivity.
    + destruct (encodeURIComponent url); reflexivity.
Qed.

(** X7: the name the page proposes for the audio is the name the
    conversion endpoint sends back for the link the page follows: the
    stem before [.mp3] is the endpoint's safe file name, which the
    endpoint percent-encodes between the quotes of the content
    disposition, whether the title is empty or not. *)
Theorem download_names_agree (url title href download : jsstring) :
  Page.downloadAudio url title = Page.Follow href download ->
  url <> [] ->
  exists stem encoded,
    download = stem ++ lit ".mp3"
    /\ encodeURIComponent stem = Some encoded
    /\ ProxyAudio.GET (Some url) (Some title) (Returned tt)
       = ([ProxyAudio.Fetch url; ProxyAudio.Convert],
          ProxyAudio.Mp3Stream 200 (lit "audio/mpeg")
            (ProxyAudio.attachment encoded)).
Proof.
  unfold Page.downloadAudio. intros H Hurl.
  destruct (encodeURIComponent url) as [u|]; [|discriminate].
  destruct (encodeURIComponent title) as [f|] eqn:Hf; [|discriminate].
  injection H as _ Hd.
  set (stem := safeFilename (or_else title (lit "podcast"))).
  assert (Hstem : encodeURIComponent stem <> None).
  { apply replace_runs_encoded. unfold or_else.
    destruct (truthy title); [rewrite Hf|]; discriminate. }
  destruct (encodeURIComponent stem) as [encoded|] eqn:He;
    [|contradiction Hstem; reflexivity].
  exists stem, encoded. split.
  { rewrite <- Hd. unfold stem.
    rewrite (safeFilename_default title (lit "podcast") eq_refl).
    reflexivity. }
  split; [exact He|].
  unfold ProxyAudio.GET. cbn [or_empty].
  destruct url as [|c url]; [contradiction Hurl; reflexivity|].
  cbn [truthy negb]. fold stem. rewrite He. reflexivity.
Qed.

End Downloads.

Lemma download_names_agree_witness :
  Page.downloadAudio (lit "https://media.example/a.m4a") (lit "a/b: c")
  = Page.Follow
      (lit "/api/proxy-audio?url=https%3A%2F%2Fmedia.example%2Fa.m4a"
       ++ lit "&filename=a%2Fb%3A%20c")
      (lit "a_b_ c.mp3")
  /\ lit "https://media.example/a.m4a" <> []
  /\ exists stem encoded,
       lit "a_b_ c.mp3" = stem ++ lit ".mp3"
       /\ encodeURIComponent stem = Some encoded
       /\ ProxyAudio.GET (Some (lit "https://media.example/a.m4a"))
            (Some (lit "a/b: c")) (Returned tt)
          = ([ProxyAudio.Fetch (lit "https://media.example/a.m4a");
              ProxyAudio.Convert],
             ProxyAudio.Mp3Stream 200 (lit "audio/mpeg")
               (ProxyAudio.attachment encoded)).
Proof.
  split; [vm_compute; reflexivity|]. split; [discriminate|].
  apply (download_names_agree (lit "https://media.example/a.m4a")
           (lit "a/b: c")
           (lit "/api/proxy-audio?url=https%3A%2F%2Fmedia.example%2Fa.m4a"
            ++ lit "&filename=a%2Fb%3A%20c")
           (lit "a_b_ c.mp3")).
  - vm_compute. reflexivity.
  - discriminate.
Defined.

(** ** The frames of the stream *)

Section Frames.

Let no_line_feed (s : jsstring) : bool := negb (existsb (N.eqb 10) s).

Lemma lines_from_line (a rest cur : jsstring) :
  no_line_feed a = true ->
  lines_from (a ++ 10%N :: rest) cur
  = (rev cur ++ a) :: lines_from rest [].
Proof.
  revert cur. induction a as [|c a IH]; intros cur Ha.
  - cbn [app lines_from N.eqb Pos.eqb]. rewrite reverse_rev, app_nil_r.
    reflexivity.
  - unfold no_line_feed in Ha. cbn [existsb] in Ha.
    apply negb_true_iff, orb_false_elim in Ha. destruct Ha as [Hc Ha].
    cbn [app lines_from]. rewrite N.eqb_sym, Hc.
    rewrite IH by (unfold no_line_feed; rewrite Ha; reflexivity).
    cbn [rev]. rewrite <- app_assoc. reflexivity.
Qed.

Lemma lines_from_frame (text rest : jsstring) :
  no_line_feed text = true ->
  lines_from (sse_frame text ++ rest) []
  = (lit "data: " ++ text ++ [32%N]) :: [] :: lines_from rest [].
Proof.
  intros Ht. unfold sse_frame.
  replace ((lit "data: " ++ text ++ [32; 10; 10]%N) ++ rest)
    with ((lit "data: " ++ text ++ [32%N]) ++ 10%N :: 10%N :: rest)
    by (rewrite <- !app_assoc; reflexivity).
  rewrite lines_from_line.
  - reflexivity.
  - unfold no_line_feed in *. rewrite !existsb_app.
    apply negb_true_iff in Ht. rewrite Ht. reflexivity.
Qed.

Lemma payload_text_line (text : jsstring) :
  payload_text (lit "data: " ++ text) = text.
Proof.
  unfold payload_text.
  destruct (lit "data: " ++ text) as [|c s] eqn:Hs; [discriminate Hs|].
  cbn [remove_first]. rewrite <- Hs, strip_prefix_app. reflexivity.
Qed.

(** X8: what the page cuts out of a read that holds whole frames is what
    the handler framed, in the same order, each text followed by the
    space the handler puts before the line feeds, provided that no text
    holds a line feed (as the texts of [JSON.stringify] do not). *)
Theorem frames_are_read_back (texts : list jsstring) :
  Forall (fun text => existsb (N.eqb 10) text = false) texts ->
  map payload_text (data_lines (concat (map sse_frame texts)))
  = map (fun text => text ++ [32%N]) texts.
Proof.
  intros H. unfold data_lines. induction H as [|text texts Ht _ IH].
  - reflexivity.
  - cbn [map concat]. rewrite lines_from_frame
      by (unfold no_line_feed; rewrite Ht; reflexivity).
    cbn [filter]. rewrite startsWith_app.
    change (startsWith [] (lit "data: ")) with false. cbn iota.
    cbn [map]. rewrite IH, payload_text_line. reflexivity.
Qed.

End Frames.

Lemma frames_are_read_back_witness :
  Forall (fun text => existsb (N.eqb 10) text = false)
    [lit "{}"; lit "[1, 2]"]
  /\ map payload_text
       (data_lines (concat (map sse_frame [lit "{}"; lit "[1, 2]"])))
     = [lit "{} "; lit "[1, 2] "].
Proof.
  assert (H : Forall (fun text => existsb (N.eqb 10) text = false)
                [lit "{}"; lit "[1, 2]"]).
  { repeat constructor. }
  split; [exact H|]. exact (frames_are_read_back _ H).
Defined.

(** ** The helpers that reach the platform *)

Section Platform.

(** X9: [parseXiaoyuzhouUrl] returns an audio address and a title that
    are never empty, the address being the one of the audio source or
    else of the page's metadata, the title the trimmed heading when it is
    not blank; it throws one of two messages only, the time-out message
    exactly for an axios error of code ECONNABORTED, so that the message
    it builds for a page without audio never reaches the caller. *)
Theorem parseXiaoyuzhouUrl_results
  (get : Helpers.failure + Helpers.episode_page) :
  match Helpers.parseXiaoyuzhouUrl get with
  | Returned (audioUrl, title) =>
      audioUrl <> [] /\ title <> []
      /\ exists page,
           get = inr page
           /\ audioUrl
              = or_else (or_empty (Helpers.audio_source_src page))
                  (or_empty (Helpers.og_audio page))
           /\ (trim (Helpers.h1_text page) <> [] ->
               title = trim (Helpers.h1_text page))
  | Thrown e =>
      e_message e <> Helpers.no_audio_link
      /\ ((e = new_Error Helpers.parse_timeout
           /\ exists f,
                get = inl f /\ Helpers.isAxiosError f = true
                /\ Helpers.code f = Some (lit "ECONNABORTED"))
          \/ (e = new_Error Helpers.parse_failed
              /\ forall f, get = inl f ->
                   Helpers.isAxiosError f = false
                   \/ Helpers.code f <> Some (lit "ECONNABORTED")))
  end.
Proof.
  unfold Helpers.parseXiaoyuzhouUrl, Helpers.parse_attempt.
  destruct get as [f|page].
  - cbn [Helpers.timed_out].
    destruct (Helpers.isAxiosError f) eqn:Hax; cbn [andb].
    + destruct (code_is (Helpers.code f) (lit "ECONNABORTED")) eqn:Hcode.
      * split; [discriminate|]. left. split; [reflexivity|].
        exists f. split; [reflexivity|]. split; [exact Hax|].
        unfold code_is in Hcode. destruct (Helpers.code f) as [c|];
          [|discriminate]. apply eqb_eq in Hcode. subst c. reflexivity.
      * split; [discriminate|]. right. split; [reflexivity|].
        intros f' Hf. injection Hf as <-. right. intros Hc.
        rewrite Hc in Hcode. discriminate Hcode.
    + split; [discriminate|]. right. split; [reflexivity|].
      intros f' Hf. injection Hf as <-. left. exact Hax.
  - set (source := or_else (or_empty (Helpers.audio_source_src page))
                     (or_empty (Helpers.og_audio page))).
    assert (Hsource : or_else source [] = source).
    { unfold or_else. destruct source; reflexivity. }
    rewrite Hsource. destruct source as [|c source'] eqn:Hs; cbn [truthy negb].
    + cbn [Helpers.timed_out]. split; [discriminate|]. right.
      split; [reflexivity|]. intros f Hf. discriminate Hf.
    + split; [discriminate|]. split.
      * unfold or_else.
        destruct (truthy (if truthy (trim (Helpers.h1_text page))
                          then trim (Helpers.h1_text page)
                          else or_empty (Helpers.og_title page))) eqn:Ht.
        -- intros Hnil. rewrite Hnil in Ht. discriminate Ht.
        -- discriminate.
      * exists page. split; [reflexivity|]. split; [exact (eq_sym Hs)|].
        intros Hh. unfold or_else.
        destruct (trim (Helpers.h1_text page));
          [contradiction Hh; reflexivity|].
        reflexivity.
Qed.

Lemma endsWith_exclusive (p a b : jsstring) (x y : N) :
  x <> y ->
  reverse a = x :: tl (reverse a) -> reverse b = y :: tl (reverse b) ->
  endsWith p a = true -> endsWith p b = false.
Proof.
  unfold endsWith. intros Hxy Ha Hb. rewrite Ha, Hb.
  destruct (reverse p) as [|c r]; [discriminate|].
  cbn [startsWith]. intros H. apply andb_prop in H. destruct H as [H _].
  apply N.eqb_eq in H. subst c.
  destruct (N.eqb_spec y x) as [E|E]; [congruence|reflexivity].
Qed.

(** X10: the extension [downloadAudioToStream] resolves to is [.m4a],
    [.mp4] or [.wav] exactly when the path of the address ends with it,
    and [.mp3] in every other case: another ending, as [.MP3] or none, or
    an address that does not parse. *)
Theorem extension_is_the_ending_of_the_path (pathname : option jsstring)
  (x : extension) :
  Helpers.extension_of pathname = x
  <-> match x with
      | mp3 =>
          forall p, pathname = Some p ->
                    endsWith p (lit ".m4a") = false
                    /\ endsWith p (lit ".mp4") = false
                    /\ endsWith p (lit ".wav") = false
      | _ => exists p, pathname = Some p /\ endsWith p (ext_string x) = true
      end.
Proof.
  assert (Hm4a_mp4 : forall p, endsWith p (lit ".m4a") = true ->
                               endsWith p (lit ".mp4") = false).
  { intros p. apply (endsWith_exclusive p _ _ 97%N 52%N); [discriminate|..];
      reflexivity. }
  assert (Hm4a_wav : forall p, endsWith p (lit ".m4a") = true ->
                               endsWith p (lit ".wav") = false).
  { intros p. apply (endsWith_exclusive p _ _ 97%N 118%N); [discriminate|..];
      reflexivity. }
  assert (Hmp4_wav : forall p, endsWith p (lit ".mp4") = true ->
                               endsWith p (lit ".wav") = false).
  { intros p. apply (endsWith_exclusive p _ _ 52%N 118%N); [discriminate|..];
      reflexivity. }
  unfold Helpers.extension_of. destruct pathname as [p|].
  - specialize (Hm4a_mp4 p). specialize (Hm4a_wav p).
    specialize (Hmp4_wav p).
    destruct (endsWith p (lit ".m4a")) eqn:H1;
      destruct (endsWith p (lit ".mp4")) eqn:H2;
      destruct (endsWith p (lit ".wav")) eqn:H3;
      try (specialize (Hm4a_mp4 eq_refl); discriminate);
      try (specialize (Hm4a_wav eq_refl); discriminate);
      try (specialize (Hmp4_wav eq_refl); discriminate);
      (split;
       [intros <-; cbn [ext_string];
        first [exists p; split; [reflexivity|assumption]
              |intros q Hq; injection Hq as <-; auto]
       |destruct x; cbn [ext_string];
        first [reflexivity
              |intros [q [Hq Hend]]; injection Hq as <-; congruence
              |intros H; destruct (H p eq_refl) as [? [? ?]]; congruence]]).
  - split.
    + intros <-. intros p Hp. discriminate Hp.
    + destruct x; first [reflexivity|intros [q [Hq _]]; discriminate Hq].
Qed.

End Platform.

(** ** The dialog of the API key *)

Section Dialog.

Import ApiKeyModal.

(** The key the dialog stored is one it accepted: it starts with [gsk_]
    and has no white space around. *)
Let accepted (k : jsstring) : Prop :=
  startsWith k (lit "gsk_") = true /\ trim k = k.

Lemma handleSubmit_cases (apiKey : jsstring) (st : state) :
  (accepted (trim apiKey)
   /\ handleSubmit apiKey st
      = mkState false [] (isShaking st) (Some (trim apiKey))
          (Some (trim apiKey)) (listening st))
  \/ (startsWith (trim apiKey) (lit "gsk_") = false
      /\ handleSubmit apiKey st
         = mkState (isOpen st) bad_key_format false (stored_key st)
             (page_key st) (listening st)).
Proof.
  unfold handleSubmit.
  destruct (startsWith (trim apiKey) (lit "gsk_")) eqn:H.
  - left. split; [|reflexivity]. split; [exact H|apply trim_idempotent].
  - right. split; reflexivity.
Qed.

(** X11: in a first visit, with no key stored, the dialog is open exactly
    as long as no key is stored; the key the page holds is the stored
    one; a stored key starts with [gsk_] and has no white space around;
    and the listener of the event that reopens the dialog is never
    registered, so that the event has no effect before the page is
    loaded again. *)
Theorem first_visit_keeps_the_dialog_until_a_key_is_accepted
  (inputs : list input) :
  let st := visit None inputs in
  listening st = false
  /\ page_key st = stored_key st
  /\ match stored_key st with
     | Some k =>
         isOpen st = false
         /\ startsWith k (lit "gsk_") = true /\ trim k = k
     | None => isOpen st = true
     end.
Proof.
  unfold visit.
  assert (Hinv : forall st,
             (listening st = false
              /\ page_key st = stored_key st
              /\ match stored_key st with
                 | Some k => isOpen st = false /\ accepted k
                 | None => isOpen st = true
                 end) ->
             forall inputs,
               let st' := fold_left step inputs st in
               listening st' = false
               /\ page_key st' = stored_key st'
               /\ match stored_key st' with
                  | Some k => isOpen st' = false /\ accepted k
                  | None => isOpen st' = true
                  end).
  { intros st Hst l. revert st Hst.
    induction l as [|i l IH]; intros st Hst; [exact Hst|].
    cbn [fold_left]. apply IH. destruct Hst as [Hl [Hp Hk]].
    destruct i as [apiKey|]; cbn [step].
    - destruct (handleSubmit_cases apiKey st) as [[Hacc ->]|[_ ->]];
        cbn [listening page_key stored_key isOpen].
      + split; [exact Hl|]. split; [reflexivity|].
        split; [reflexivity|exact Hacc].
      + split; [exact Hl|]. split; [exact Hp|exact Hk].
    - unfold open_event. rewrite Hl. split; [exact Hl|].
      split; [exact Hp|exact Hk]. }
  apply Hinv. cbn. repeat split.
Qed.

(** X12: a key the dialog stored in one visit is handed to the page when
    the page is loaded again, as it was stored, without the dialog being
    opened, and the event that reopens the dialog is then listened to. *)
Theorem stored_key_is_handed_over_at_the_next_visit
  (stored : option jsstring) (inputs : list input) (apiKey : jsstring) :
  let st := visit stored (inputs ++ [Submit apiKey]) in
  let next := visit (stored_key st) [] in
  if startsWith (trim apiKey) (lit "gsk_") then
    stored_key st = Some (trim apiKey)
    /\ page_key next = Some (trim apiKey)
    /\ isOpen next = false
    /\ isOpen (step next OpenEvent) = true
  else stored_key st = stored_key (visit stored inputs).
Proof.
  unfold visit. rewrite fold_left_app. cbn [fold_left step].
  set (st0 := fold_left step inputs (mount (loaded stored))).
  unfold handleSubmit.
  destruct (startsWith (trim apiKey) (lit "gsk_")) eqn:H;
    [|reflexivity].
  cbn [stored_key]. split; [reflexivity|].
  unfold mount, loaded. cbn [stored_key or_empty].
  destruct (trim apiKey) as [|c k]; [discriminate H|].
  cbn [truthy page_key isOpen step open_event listening]. repeat split.
Qed.

End Dialog.

(** ** The page and the handler *)

Section PageAndHandler.

Variable E : env.







Lemma read_all_concat (reads : list (list event)) (st : Page.state) :
  Page.read_all reads st = Page.receive_all (concat reads) st.
Proof.
  revert st. induction reads as [|lines reads IH]; intros st;
    [reflexivity|].
  cbn [Page.read_all concat]. revert st.
  induction lines as [|data lines IHl]; intros st.
  - cbn [Page.receive_all app]. apply IH.
  - cbn [Page.receive_all app].
    destruct (Page.receive data st) as [st' [m|]]; [reflexivity|].
    apply IHl.
Qed.

(** The events before the terminal one are received without a throw, and
    leave [loading] and [error] as they are. *)
Lemma receive_quiet (t : list effect) :
  Forall quiet t ->
  forall rest st,
    exists st1,
      Page.receive_all (sent t ++ rest) st = Page.receive_all rest st1
      /\ Page.ui_loading st1 = Page.ui_loading st
      /\ Page.ui_error st1 = Page.ui_error st.
Proof.
  induction 1 as [|x t Hx _ IH]; intros rest st.
  - exists st. repeat split.
  - destruct x; try (cbn [sent flat_map app]; apply IH).
    (* an event of a stage that is not terminal *)
    destruct Hx as [Hdone Herror].
    change (sent (Send ev :: t)) with (ev :: sent t).
    cbn [app Page.receive_all]. unfold Page.receive.
    assert (Hstage : stage_eqb (ev_stage ev) error = false).
    { destruct (ev_stage ev); try reflexivity.
      contradiction Herror. reflexivity. }
    rewrite Hstage.
    match goal with
    | |- context [Page.receive_all (sent t ++ rest) ?s] =>
        destruct (IH rest s) as [st1 [Hrun [Hl He]]]
    end.
    exists st1. split; [exact Hrun|].
    rewrite Hl, He.
    destruct (ev_message ev), (ev_progress ev), (ev_data ev);
      split; reflexivity.
Qed.

(** X14: the page's [handleSubmit] against the handler, for an address
    that is not blank and a stream cut into reads of whole frames.  When
    [fetch] refuses the key as a header value, the page ends with
    [loading] off, the stage [error] and the message of [fetch].  When
    [fetch] sends the request, with a header that HTTP carries, the page
    ends with [loading] off and either the stage [done], the progress
    100 and the data of the handler's [done] event as the result, or the
    stage [error] and an error text: the message of a JSON answer, or of
    the handler's [error] event, replaced by a default text when it is
    empty. *)
Theorem page_settles_on_done_or_error
  (portions : list event -> list (list event)) (rejection : jsstring)
  (refusal : Page.reply) (url apiKey : jsstring) (st : Page.state) :
  (forall l, concat (portions l) = l) ->
  truthy (trim url) = true ->
  (forall key, header_value apiKey = Some key ->
               forallb is_field_content key = true) ->
  let st' :=
    Page.handleSubmit (served E portions rejection refusal) url apiKey st in
  Page.ui_loading st' = false
  /\ match header_value apiKey with
     | None =>
         Page.ui_stage st' = Page.at_stage error
         /\ Page.ui_error st' = rejection
         /\ Page.ui_result st' = None
     | Some key =>
         let r := request_for url (Some key) in
         match fst (run E r) with
         | Returned (Json _ message) =>
             Page.ui_stage st' = Page.at_stage error
             /\ Page.ui_error st' = or_else message Page.connect_failed
             /\ Page.ui_result st' = None
         | Returned EventStream =>
             (exists d,
                terminal_events (trace (snd (run E r))) = [done_event d]
                /\ Page.ui_stage st' = Page.at_stage done
                /\ Page.ui_progress st' = 100%Z
                /\ Page.ui_result st' = Some d
                /\ Page.ui_error st' = [])
             \/ (exists message,
                   terminal_events (trace (snd (run E r)))
                   = [error_event message]
                   /\ Page.ui_stage st' = Page.at_stage error
                   /\ Page.ui_error st' = or_else message unknown_error)
         | Thrown _ => False
         end
     end.
Proof.
  intros Hportions Hurl Hfield st'. subst st'.
  unfold Page.handleSubmit. rewrite Hurl. cbn [negb].
  unfold served. cbn [request_for req_api_key req_body or_empty].
  destruct (header_value apiKey) as [key|]; [|cbn; repeat split].
  rewrite (Hfield key eq_refl). cbv zeta.
  change (mkRequest (Some (JObj [(lit "url", JStr url)])) (Some key))
    with (request_for url (Some key)).
  set (r := request_for url (Some key)).
  destruct (run_answers E r) as [resp Hresp].
  pose proof (run_stream E r) as Hstream.
  destruct (run E r) as [o w] eqn:Hrun. cbn [fst snd] in *. subst o.
  destruct resp as [status message|].
  - (* a JSON answer *)
    cbn. repeat split.
  - (* the stream *)
    specialize (Hstream eq_refl). injection Hstream as Hw.
    destruct (stream_start_shape E initial_world)
      as [t [ev [_ [Htrace [Hquiet [Hev _]]]]]].
    rewrite <- Hw in Htrace. cbn [trace initial_world app] in Htrace.
    assert (Hsent : sent (trace w) = sent t ++ [ev]).
    { rewrite Htrace. change (Mkdir (job_dir E) :: t ++ [Send ev; Close;
                                                         Rm (job_dir E)])
        with ([Mkdir (job_dir E)] ++ t ++ [Send ev; Close; Rm (job_dir E)]).
      rewrite !sent_app. reflexivity. }
    assert (Hterminal : ev_stage ev = done \/ ev_stage ev = error ->
                        terminal_events (trace w) = [ev]).
    { intros Hs. rewrite Htrace. apply terminal_of_shape; assumption. }
    rewrite read_all_concat, Hportions, Hsent.
    destruct (receive_quiet t Hquiet [ev]
                (Page.mkState true (Page.at_stage parsing) 0 None [] None))
      as [st1 [Hreceive [Hloading Herror]]].
    rewrite Hreceive. cbn [Page.receive_all].
    cbn [Page.ui_error Page.ui_loading] in Herror, Hloading.
    destruct Hev as [[w1 [title [transcript [audioUrl [result [Hd _]]]]]]
                    |[Hstage [e [w1 [_ He]]]]].
    + subst ev. cbn. split; [reflexivity|]. left.
      eexists. split; [apply Hterminal; left; reflexivity|].
      rewrite Herror. repeat split.
    + subst ev. cbn. split; [reflexivity|]. right.
      eexists. split; [apply Hterminal; right; reflexivity|].
      repeat split.
Qed.

End PageAndHandler.

Lemma page_settles_on_done_or_error_witness :
  (forall l : list event, concat [l] = l)
  /\ truthy (trim episode_url) = true
  /\ header_value (lit "gsk_key") = Some (lit "gsk_key")
  /\ forallb is_field_content (lit "gsk_key") = true
  /\ Page.ui_loading
       (Page.handleSubmit
          (served minute_env (fun l => [l]) (lit "TypeError") Page.NoBody)
          episode_url (lit "gsk_key") Page.initial)
     = false.
Proof.
  assert (H : forall l : list event, concat [l] = l).
  { intros l. cbn. apply app_nil_r. }
  assert (Hfield : forall key,
             header_value (lit "gsk_key") = Some key ->
             forallb is_field_content key = true).
  { intros key Hkey. vm_compute in Hkey. injection Hkey as <-.
    reflexivity. }
  split; [exact H|]. split; [reflexivity|]. split; [reflexivity|].
  split; [reflexivity|].
  exact (proj1 (page_settles_on_done_or_error minute_env (fun l => [l])
                  (lit "TypeError") Page.NoBody episode_url (lit "gsk_key")
                  Page.initial H eq_refl Hfield)).
Defined.

(** What [fetch] makes of a key: the white space at its ends is stripped,
    a key of spaces is sent as an empty header, and a key with a
    zero-width space or with a line feed inside is refused. *)
Example header_value_examples :
  header_value (lit " gsk_key ") = Some (lit "gsk_key")
  /\ header_value (lit " ") = Some []
  /\ header_value (lit "gsk_" ++ [8203%N]) = None
  /\ header_value (lit "gsk" ++ [10%N] ++ lit "key") = None.
Proof. repeat split; reflexivity. Qed.

(** A key of one space in storage is handed to the page as it is; the
    handler reads an empty header and, having no key of its own, answers
    401. *)
Example stored_blank_key_is_answered_401 :
  ApiKeyModal.page_key (ApiKeyModal.visit (Some (lit " ")) [])
  = Some (lit " ")
  /\ served minute_env (fun l => [l]) (lit "TypeError") Page.NoBody
       (request_for episode_url (Some (lit " ")))
     = Page.NotOk 401 (Some missing_key_message).
Proof. split; reflexivity. Qed.

(** ** The first failure of a job *)

Section FirstFailure.

Variable E : env.

Lemma adds_weaken (P Q : effect -> Prop) (w w' : world) :
  (forall x, P x -> Q x) -> adds P w w' -> adds Q w w'.
Proof.
  intros H [t [Ht [Hall Hd]]]. exists t. split; [exact Ht|].
  split; [|exact Hd]. eapply Forall_impl; [exact H|exact Hall].
Qed.

(** The stages after the renaming only add to the trace. *)
Lemma later_stages_grow (d audioUrl title : jsstring) (x : extension)
  (w : world) :
  let inputPath := path_join d (lit "input" ++ ext_string x) in
  let later :=
    send (progress_event downloading 25) ;;
    send (progress_event transcribing 30) ;;
    transcript <-
      transcribeLargeAudio E inputPath (ext_string x) d onProgress ;;
    set_progress (inject_Z 85) ;;
    send (progress_event summarizing 85) ;;
    result <- summarizeTranscript E transcript onHeartbeat send ;;
    send (done_event (mkPayload title transcript audioUrl result)) ;;
    emit Close in
  exists rest,
    trace (snd (later w))
    = trace w ++ [Send (progress_event downloading 25);
                  Send (progress_event transcribing 30)] ++ rest.
Proof.
  intros inputPath later. subst later.
  rewrite bind_run, send_run. rewrite bind_run, send_run.
  rewrite !grown_grown. cbn [app].
  rewrite bind_run.
  match goal with
  | |- context [transcribeLargeAudio E ?a ?b ?c ?f ?w0] =>
      pose proof (keeps_transcribeLargeAudio E a b c w0) as H4;
      destruct (transcribeLargeAudio E a b c f w0)
        as [[transcript|e] w4] eqn:Htr
  end; destruct H4 as [t1 [Ht4 _]]; cbn [snd] in Ht4;
    rewrite trace_grown in Ht4.
  2:{ exists t1. cbn [snd]. rewrite Ht4, <- app_assoc. reflexivity. }
  rewrite bind_run.
  pose proof (set_progress_spec (inject_Z 85) w4) as H5.
  destruct (set_progress (inject_Z 85) w4) as [r5 w5].
  destruct H5 as [-> [Ht5 _]]. rewrite Ht4 in Ht5.
  rewrite bind_run, send_run. rewrite bind_run.
  match goal with
  | |- context [summarizeTranscript E ?a ?f ?g ?w0] =>
      pose proof (keeps_summarizeTranscript E a w0) as H6;
      destruct (summarizeTranscript E a f g w0)
        as [[result|e] w6] eqn:Hsum
  end; destruct H6 as [t2 [Ht6 _]]; cbn [snd] in Ht6;
    rewrite trace_grown, Ht5 in Ht6.
  2:{ eexists. cbn [snd]. rewrite Ht6, <- !app_assoc. reflexivity. }
  rewrite bind_run, send_run, emit_run, grown_grown. cbn [app snd].
  eexists. rewrite trace_grown, Ht6, <- !app_assoc. reflexivity.
Qed.

Lemma mkdirAsync_run (d : jsstring) (w : world) :
  mkdirAsync E d w
  = match mkdir_result E with
    | Returned _ =>
        (Returned tt,
         mkWorld (trace w ++ [Mkdir d]) (d :: dirs w) (files w) (progress w))
    | Thrown e => (Thrown e, grown w [Mkdir d])
    end.
Proof.
  unfold mkdirAsync, bind, emit, await.
  destruct (mkdir_result E) as [[]|e]; reflexivity.
Qed.

Lemma downloadAudioToStream_run (url path : jsstring) (w : world) :
  downloadAudioToStream E url path w
  = match download_result E with
    | Returned x =>
        (Returned x,
         mkWorld (trace w ++ [Download url path]) (dirs w)
           (files w ++ [lit "download_audio_temp"]) (progress w))
    | Thrown e => (Thrown e, grown w [Download url path])
    end.
Proof.
  unfold downloadAudioToStream, bind, emit, await.
  destruct (download_result E) as [x|e]; reflexivity.
Qed.

Lemma rename_run (from to name : jsstring) (w : world) :
  rename E from to name w
  = match rename_result E with
    | Returned _ =>
        (Returned tt,
         mkWorld (trace w ++ [Rename from to]) (dirs w)
           (filter (fun f => negb (JS.eqb f (lit "download_audio_temp")))
              (files w) ++ [name])
           (progress w))
    | Thrown e => (Thrown e, grown w [Rename from to])
    end.
Proof.
  unfold rename, bind, emit, await.
  destruct (rename_result E) as [[]|e]; reflexivity.
Qed.

(** The body of the inner [try] up to the first failure. *)
Lemma run_stages_first_failure (d : jsstring) (w : world) :
  let out := run_stages E d w in
  match mkdir_result E with
  | Thrown e => fst out = Thrown e /\ trace (snd out) = trace w ++ [Mkdir d]
  | Returned _ =>
      match resolve_result E with
      | Thrown e =>
          fst out = Thrown e /\ trace (snd out) = trace w ++ parsed d
      | Returned (audioUrl, _) =>
          match download_result E with
          | Thrown e =>
              fst out = Thrown e
              /\ trace (snd out) = trace w ++ fetched d audioUrl
          | Returned x =>
              match rename_result E with
              | Thrown e =>
                  fst out = Thrown e
                  /\ trace (snd out) = trace w ++ renamed d audioUrl x
              | Returned _ =>
                  exists rest,
                    trace (snd out)
                    = trace w ++ stage_prefix d audioUrl x ++ rest
              end
          end
      end
  end.
Proof.
  intros out. subst out. unfold run_stages.
  rewrite bind_run, mkdirAsync_run.
  destruct (mkdir_result E) as [[]|e]; [|split; reflexivity].
  rewrite bind_run, send_run. rewrite bind_run, emit_run.
  rewrite bind_run, send_run. rewrite !grown_grown. cbn [app].
  rewrite bind_run, parseXiaoyuzhouUrl_run. rewrite !grown_grown. cbn [app].
  destruct (resolve_result E) as [[audioUrl title]|e].
  2:{ split; [reflexivity|]. cbn [snd]. rewrite trace_grown. cbn [trace].
      unfold parsed. rewrite <- app_assoc. reflexivity. }
  rewrite bind_run, send_run. rewrite !grown_grown. cbn [app].
  rewrite bind_run, downloadAudioToStream_run.
  destruct (download_result E) as [x|e].
  2:{ split; [reflexivity|]. cbn [snd]. rewrite !trace_grown. cbn [trace].
      unfold fetched, parsed. rewrite <- !app_assoc. reflexivity. }
  rewrite bind_run, rename_run.
  destruct (rename_result E) as [[]|e].
  2:{ split; [reflexivity|]. cbn [snd]. rewrite !trace_grown. cbn [trace].
      unfold renamed, fetched, parsed. rewrite <- !app_assoc. reflexivity. }
  match goal with
  | |- context [bind (send (progress_event downloading 25)) ?k ?w0] =>
      destruct (later_stages_grow d audioUrl title x w0) as [rest Hrest]
  end.
  exists rest. cbn zeta in Hrest. etransitivity; [exact Hrest|].
  unfold stage_prefix. cbn [trace grown]. flatten_app. reflexivity.
Qed.

(** X15: a job stops at its first failure.  When the directory cannot be
    made, the page cannot be resolved, the audio cannot be downloaded or
    the file cannot be renamed, the trace of the job is exactly the steps
    before the failure, then the [error] event with the message of that
    failure, the closing of the stream and the removal of the directory:
    nothing is downloaded, probed, transcribed or summarized after it.
    When the four steps succeed the trace starts with them and the first
    report of the transcribing stage. *)
Theorem job_stops_at_the_first_failure (r : request) :
  fst (run E r) = Returned EventStream ->
  let d := job_dir E in
  let t := trace (snd (run E r)) in
  match mkdir_result E with
  | Thrown e => t = Mkdir d :: report d e
  | Returned _ =>
      match resolve_result E with
      | Thrown e => t = parsed d ++ report d e
      | Returned (audioUrl, _) =>
          match download_result E with
          | Thrown e => t = fetched d audioUrl ++ report d e
          | Returned x =>
              match rename_result E with
              | Thrown e => t = renamed d audioUrl x ++ report d e
              | Returned _ =>
                  exists rest, t = stage_prefix d audioUrl x ++ rest
              end
          end
      end
  end.
Proof.
  intros Hstream d t. subst t. rewrite (run_stream E r Hstream). cbn [snd].
  unfold stream_start, try_finally, try_catch. fold d.
  pose proof (run_stages_first_failure d initial_world) as Hfirst.
  cbn zeta in Hfirst. cbn [trace initial_world app] in Hfirst.
  assert (Hreport : forall e w1,
             trace (snd (cleanup E d
                           (snd ((send (error_event (stream_error_message e))
                                  ;; emit Close) w1))))
             = trace w1 ++ report d e).
  { intros e w1.
    rewrite (proj1 (cleanup_spec E d _ (job_dir_truthy E))).
    rewrite bind_run, send_run, emit_run. cbn [snd].
    rewrite grown_grown, trace_grown. unfold report.
    rewrite <- app_assoc. reflexivity. }
  destruct (run_stages E d initial_world) as [[[]|e0] w1] eqn:Hrun;
    cbn [fst snd] in Hfirst; cbv beta iota.
  - (* every stage returned *)
    cbn [snd].
    destruct (mkdir_result E) as [[]|e]; [|destruct Hfirst; discriminate].
    destruct (resolve_result E) as [[audioUrl title]|e];
      [|destruct Hfirst; discriminate].
    destruct (download_result E) as [x|e]; [|destruct Hfirst; discriminate].
    destruct (rename_result E) as [[]|e]; [|destruct Hfirst; discriminate].
    destruct Hfirst as [rest Hrest].
    rewrite (proj1 (cleanup_spec E d _ (job_dir_truthy E))).
    cbn [snd]. rewrite Hrest. eexists. rewrite <- app_assoc. reflexivity.
  - (* a stage threw *)
    match goal with
    | |- context [let (r0, w') := ?p in _] =>
        change p with ((send (error_event (stream_error_message e0))
                        ;; emit Close) w1)
    end.
    destruct ((send (error_event (stream_error_message e0)) ;; emit Close) w1)
      as [r0 w2] eqn:Hhandler.
    cbn [snd].
    assert (Hw2 : w2 = snd ((send (error_event (stream_error_message e0))
                             ;; emit Close) w1))
      by (rewrite Hhandler; reflexivity).
    rewrite Hw2, Hreport.
    destruct (mkdir_result E) as [[]|e].
    2:{ destruct Hfirst as [He ->]. injection He as ->. reflexivity. }
    destruct (resolve_result E) as [[audioUrl title]|e].
    2:{ destruct Hfirst as [He ->]. injection He as ->. reflexivity. }
    destruct (download_result E) as [x|e].
    2:{ destruct Hfirst as [He ->]. injection He as ->. reflexivity. }
    destruct (rename_result E) as [[]|e].
    2:{ destruct Hfirst as [He ->]. injection He as ->. reflexivity. }
    destruct Hfirst as [rest ->]. eexists. rewrite <- app_assoc.
    reflexivity.
Qed.

End FirstFailure.

Lemma job_stops_at_the_first_failure_witness :
  let E := with_resolver minute_env
             (Helpers.parseXiaoyuzhouUrl page_without_audio) in
  fst (run E good_request) = Returned EventStream
  /\ trace (snd (run E good_request))
     = parsed (job_dir E)
       ++ report (job_dir E) (new_Error Helpers.parse_failed).
Proof.
  cbv zeta. split; [vm_compute; reflexivity|].
  exact (job_stops_at_the_first_failure
           (with_resolver minute_env
              (Helpers.parseXiaoyuzhouUrl page_without_audio))
           good_request eq_refl).
Defined.

(** ** The assembly of the transcript *)

Section Assembly.

Variable E : env.

Lemma transcribed_app (t u : list effect) :
  transcribed (t ++ u) = transcribed t ++ transcribed u.
Proof. apply flat_map_app. Qed.

Lemma transcribed_later_attempts (p : jsstring) (k : nat) :
  forall first, 2 <= first -> transcribed (attempts_trace p first k) = [].
Proof.
  induction k as [|k IH]; intros first Hfirst; [reflexivity|].
  cbn [attempts_trace]. destruct first as [|[|first]]; try lia.
  destruct k as [|k]; [reflexivity|].
  change (transcribed (Transcribe p (S (S first))
                       :: Sleep (retry_delay (S (S first)))
                       :: attempts_trace p (S (S (S first))) (S k)))
    with (transcribed (attempts_trace p (S (S (S first))) (S k))).
  apply IH. lia.
Qed.

Lemma transcribed_attempts (p : jsstring) (k : nat) :
  1 <= k -> transcribed (attempts_trace p 1 k) = [p].
Proof.
  destruct k as [|k]; [lia|]. intros _. cbn [attempts_trace].
  destruct k as [|k]; [reflexivity|].
  change (transcribed (Transcribe p 1 :: Sleep (retry_delay 1)
                       :: attempts_trace p 2 (S k)))
    with (p :: transcribed (attempts_trace p 2 (S k))).
  rewrite transcribed_later_attempts by lia. reflexivity.
Qed.

(** The text of a segment: what the provider answered at one of the three
    attempts. *)
Let answered (chunk text : jsstring) : Prop :=
  exists k, 1 <= k <= 3 /\ speech_to_text E chunk k = Returned text.

Lemma process_chunks_assembles (chunks : list jsstring) :
  forall i total acc transcript w w',
    process_chunks E onProgress chunks i total acc w
    = (Returned transcript, w') ->
    exists texts,
      Forall2 answered chunks texts
      /\ transcript = acc ++ concat (map (fun text => text ++ newline) texts)
      /\ transcribed (trace w') = transcribed (trace w) ++ chunks.
Proof.
  induction chunks as [|chunk chunks IH];
    intros i total acc transcript w w' Hrun.
  - cbn in Hrun. injection Hrun as <- <-. exists [].
    split; [constructor|]. cbn. rewrite !app_nil_r. split; reflexivity.
  - cbn [process_chunks] in Hrun.
    rewrite bind_run in Hrun. unfold onProgress at 1 in Hrun.
    rewrite send_run in Hrun. rewrite bind_run in Hrun.
    unfold transcribeSingleFile, transcribeSingleFile_n in Hrun.
    destruct (transcribe_attempts_spec E chunk 3 3 1
                (grown w [Send (progress_event transcribing
                                  (Qfloor (startP i total)))])
                eq_refl (le_n_S _ _ (Nat.le_0_l _)))
      as [k [Hk [_ [_ Hattempts]]]].
    rewrite Hattempts in Hrun. clear Hattempts.
    destruct (speech_to_text E chunk k) as [text|e] eqn:Htext;
      [|discriminate Hrun].
    rewrite bind_run in Hrun. unfold onProgress at 1 in Hrun.
    rewrite send_run in Hrun. rewrite !grown_grown in Hrun.
    destruct (IH _ _ _ _ _ _ Hrun) as [texts [Hall [Htr Htrace]]].
    exists (text :: texts). split.
    { constructor; [|exact Hall]. exists k. split; [exact Hk|exact Htext]. }
    split.
    { rewrite Htr. cbn [map concat]. rewrite <- !app_assoc. reflexivity. }
    rewrite Htrace, trace_grown, !transcribed_app.
    replace (S k - 1) with k by lia.
    rewrite transcribed_attempts by lia.
    cbn [transcribed flat_map app]. rewrite <- app_assoc. reflexivity.
Qed.

Lemma segment_transcribes_nothing (inputPath originalExt tempDir : jsstring)
  (w : world) :
  transcribed (trace (snd (segment E inputPath originalExt tempDir w)))
  = transcribed (trace w).
Proof.
  assert (Hnone : forall t u,
             transcribed u = [] ->
             transcribed (t ++ u) = transcribed t).
  { intros t u Hu. rewrite transcribed_app, Hu. apply app_nil_r. }
  unfold segment, ffprobe, ffmpeg_split, readdir, bind, emit, await, ret.
  destruct (ffprobe_result E) as [d|e]; cbv beta iota;
    [|cbn [snd trace]; apply Hnone; reflexivity].
  match goal with
  | |- context [Qle_bool ?q CHUNK_SIZE] => destruct (Qle_bool q CHUNK_SIZE)
  end.
  { cbn [snd trace]. apply Hnone. reflexivity. }
  cbn [trace dirs files progress].
  destruct (ffmpeg_result E) as [n|e]; cbv beta iota;
    [|cbn [snd trace]; rewrite <- app_assoc; apply Hnone; reflexivity].
  cbn [trace dirs files progress].
  match goal with
  | |- context [readdir_result E ?l] => destruct (readdir_result E l)
  end; cbn [snd trace]; rewrite <- !app_assoc; apply Hnone; reflexivity.
Qed.

(** X16: the transcript [transcribeLargeAudio] returns is, for every
    segment in the order of the segment list, the text the provider
    answered for it at one of the three attempts, followed by a line
    feed; the files handed to the provider are the segments, in that
    order, after the files handed over before. *)
Theorem transcript_is_the_segments_in_order
  (inputPath originalExt tempDir transcript : jsstring) (w w' : world) :
  transcribeLargeAudio E inputPath originalExt tempDir onProgress w
  = (Returned transcript, w') ->
  exists chunks texts,
    fst (segment E inputPath originalExt tempDir w) = Returned chunks
    /\ Forall2 (fun chunk text =>
                  exists k, 1 <= k <= 3
                            /\ speech_to_text E chunk k = Returned text)
         chunks texts
    /\ transcript = concat (map (fun text => text ++ newline) texts)
    /\ transcribed (trace w') = transcribed (trace w) ++ chunks.
Proof.
  unfold transcribeLargeAudio. rewrite bind_run. intros Hrun.
  pose proof (segment_transcribes_nothing inputPath originalExt tempDir w)
    as Hseg.
  destruct (segment E inputPath originalExt tempDir w) as [[chunks|e] w1];
    [|discriminate Hrun].
  cbn [snd] in Hseg.
  destruct (process_chunks_assembles _ _ _ _ _ _ _ Hrun)
    as [texts [Hall [Htr Htrace]]].
  exists chunks, texts. split; [reflexivity|]. split; [exact Hall|].
  split; [exact Htr|]. rewrite Htrace, Hseg. reflexivity.
Qed.

End Assembly.

Lemma transcript_is_the_segments_in_order_witness :
  let run := transcribeLargeAudio (flaky_env 1) (lit "/tmp/job/input.mp3")
               (lit ".mp3") (lit "/tmp/job") onProgress initial_world in
  fst run = Returned (lit "hello" ++ newline)
  /\ exists chunks texts,
       fst (segment (flaky_env 1) (lit "/tmp/job/input.mp3") (lit ".mp3")
              (lit "/tmp/job") initial_world)
       = Returned chunks
       /\ Forall2 (fun chunk text =>
                     exists k, 1 <= k <= 3
                               /\ speech_to_text (flaky_env 1) chunk k
                                  = Returned text)
            chunks texts
       /\ lit "hello" ++ newline
          = concat (map (fun text => text ++ newline) texts)
       /\ transcribed (trace (snd run))
          = transcribed (trace initial_world) ++ chunks.
Proof.
  cbv zeta. split; [vm_compute; reflexivity|].
  apply (transcript_is_the_segments_in_order (flaky_env 1)
           (lit "/tmp/job/input.mp3") (lit ".mp3") (lit "/tmp/job")
           (lit "hello" ++ newline) initial_world
           (snd (transcribeLargeAudio (flaky_env 1)
                   (lit "/tmp/job/input.mp3") (lit ".mp3") (lit "/tmp/job")
                   onProgress initial_world))).
  vm_compute. reflexivity.
Defined.

(** ** The answers of the handler *)

Section Answers.

Variable E : env.

(** X17: the handler answers every request and throws at none.  It
    answers 500 to a body that is not JSON or is [null], before it looks
    for a key; then 401 when neither the request nor the environment
    holds a key; then, by the member [url] of the body: 400 when it is
    missing or [null], a string that does not hold the name of the
    platform or an array that does not hold that name as an element, 500
    when it is a number, a boolean or an object, and the stream
    otherwise.  Every answer but the stream leaves the world as it
    was. *)
Theorem handler_answers_every_request (r : request) :
  fst (run E r)
  = Returned
      match req_body r with
      | None | Some JNull => Json 500 (lit "Server Error")
      | Some body =>
          if negb (truthy (api_key_of E r)) then Json 401 missing_key_message
          else
            match
              match body with
              | JObj fields => lookup (lit "url") fields
              | _ => None
              end
            with
            | None | Some JNull => Json 400 invalid_link_message
            | Some (JStr s) =>
                if includes s (lit "xiaoyuzhou") then EventStream
                else Json 400 invalid_link_message
            | Some (JArr l) =>
                if existsb (is_string (lit "xiaoyuzhou")) l then EventStream
                else Json 400 invalid_link_message
            | Some _ => Json 500 (lit "Server Error")
            end
      end
  /\ (fst (run E r) <> Returned EventStream -> snd (run E r) = initial_world).
Proof.
  split; [|apply rejected_request_leaves_nothing].
  pose proof (run_rejected E r) as Hrun.
  pose proof (POST_gate_answer E r initial_world) as Hgate.
  assert (Hfst : fst (run E r) = fst (POST_gate E r initial_world)).
  { destruct (fst (POST_gate E r initial_world)) as [[status m|]|e];
      [rewrite Hrun; reflexivity|rewrite Hrun; reflexivity|contradiction]. }
  rewrite Hfst, Hgate. f_equal. unfold destructure_url.
  destruct (req_body r) as [body|]; [|reflexivity].
  destruct (truthy (api_key_of E r)); cbn [negb];
    destruct body as [|b|q|s|l|fields]; try reflexivity.
  destruct (lookup (lit "url") fields) as [[|b|q|s|l|fs]|]; reflexivity.
Qed.

End Answers.

(** ** The properties of the pipeline at concrete inputs *)

Lemma segment_chronological_witness :
  let names := map (segment_name (ext_string mp3)) (seq 0 3) in
  ffprobe_result three_windows_env = Returned (Some (inject_Z 400))
  /\ (inject_Z 180 < inject_Z 400)%Q
  /\ ffmpeg_result three_windows_env = Returned 3
  /\ 3 <= 1000
  /\ Forall (fun f => startsWith f (lit "chunk") = false)
       (files initial_world)
  /\ readdir_result three_windows_env (files initial_world ++ names)
     = Returned (rev names)
  /\ Permutation (rev names) (files initial_world ++ names)
  /\ fst (segment three_windows_env (lit "/tmp/job/input.mp3")
            (ext_string mp3) (lit "/tmp/job") initial_world)
     = Returned (chronological (lit "/tmp/job") (ext_string mp3) 3).
Proof.
  cbv zeta.
  assert (H2 : (inject_Z 180 < inject_Z 400)%Q) by reflexivity.
  assert (H4 : 3 <= 1000) by lia.
  assert (H5 : Forall (fun f => startsWith f (lit "chunk") = false)
                 (files initial_world)) by constructor.
  assert (H7 : Permutation
                 (rev (map (segment_name (ext_string mp3)) (seq 0 3)))
                 (files initial_world
                  ++ map (segment_name (ext_string mp3)) (seq 0 3))).
  { apply Permutation_sym. apply Permutation_rev. }
  split; [reflexivity|]. split; [exact H2|]. split; [reflexivity|].
  split; [exact H4|]. split; [exact H5|]. split; [reflexivity|].
  split; [exact H7|].
  exact (segment_chronological three_windows_env mp3
           (lit "/tmp/job/input.mp3") (lit "/tmp/job") initial_world
           (inject_Z 400) 3
           (rev (map (segment_name (ext_string mp3)) (seq 0 3)))
           eq_refl H2 eq_refl H4 H5 eq_refl H7).
Defined.


Lemma direct_call_policy_witness :
  let E := primary_limited_env (Returned heading_answer) in
  length (lit "hello") <= CHUNK_THRESHOLD
  /\ exists t,
       trace (snd (summarizeTranscript E (lit "hello") onHeartbeat send
                     initial_world))
       = trace initial_world ++ t
       /\ models_called t = [MODELS_PRIMARY; MODELS_FALLBACK].
Proof.
  cbv zeta.
  assert (H : length (lit "hello") <= CHUNK_THRESHOLD).
  { apply Nat.leb_le. vm_compute. reflexivity. }
  split; [exact H|].
  destruct (direct_call_policy (primary_limited_env (Returned heading_answer))
              (lit "hello") initial_world H) as [t [Ht Hcases]].
  exists t. split; [exact Ht|].
  change (snd (chat_completion
                 (primary_limited_env (Returned heading_answer)) DirectCall
                 MODELS_PRIMARY (lit "hello") false))
    with (@Thrown (option jsstring) rate_limit_429) in Hcases.
  change (rate_limited rate_limit_429) with true in Hcases.
  exact (proj1 Hcases).
Defined.

Lemma split_long_chunks_trimmed_witness :
  8000 < length transcript_space_before_stop
  /\ Forall (fun c => trim c = c)
       (splitTranscriptIntoChunks transcript_space_before_stop 8000).
Proof.
  assert (H : 8000 < length transcript_space_before_stop)
    by (apply Nat.ltb_lt; vm_compute; reflexivity).
  split; [exact H|].
  exact (split_long_chunks_trimmed transcript_space_before_stop 8000 H).
Defined.

(** ** The cost of a long transcript *)

Section ChunkedSummary.

Variable E : env.

(** The summaries the chunk loop returns: one for each chunk, in the
    order of the chunks, each being the answer to the call for that
    chunk, of the primary model or, when that one is rate limited, of
    the fallback model. *)
Lemma summarize_chunks_costs (chunks : list jsstring) :
  forall i total acc w sums w1,
    summarize_chunks E onHeartbeat send chunks i total acc w
    = (Returned sums, w1) ->
    exists t new,
      trace w1 = trace w ++ t
      /\ sums = acc ++ new
      /\ length new = length chunks
      /\ length chunks <= length (models_called t) <= 2 * length chunks
      /\ forall j chunk,
           nth_error chunks j = Some chunk ->
           exists model c,
             snd (chat_completion E (ChunkCall (i + j)) model chunk true)
             = Returned c
             /\ nth_error new j = Some (content_or c [])
             /\ (model = MODELS_PRIMARY
                 \/ model = MODELS_FALLBACK
                    /\ exists e,
                         snd (chat_completion E (ChunkCall (i + j))
                                MODELS_PRIMARY chunk true) = Thrown e
                         /\ rate_limited e = true).
Proof.
  induction chunks as [|chunk chunks IH]; intros i total acc w sums w1 Hrun.
  - cbn in Hrun. injection Hrun as <- <-. exists [], [].
    rewrite !app_nil_r. cbn. repeat split; try lia.
    intros [|j] chunk H; discriminate H.
  - destruct (chunk_call_policy E chunk chunks i total acc w)
      as (t & w0 & Ht & Hcases). cbv zeta in Hcases.
    assert (Hnext : forall model c,
               snd (chat_completion E (ChunkCall i) model chunk true)
               = Returned c ->
               (model = MODELS_PRIMARY
                \/ model = MODELS_FALLBACK
                   /\ exists e,
                        snd (chat_completion E (ChunkCall i)
                               MODELS_PRIMARY chunk true) = Thrown e
                        /\ rate_limited e = true) ->
               summarize_chunks E onHeartbeat send chunks (S i) total
                 (acc ++ [content_or c []]) w0
               = (Returned sums, w1) ->
               forall calls, length (models_called t) = calls ->
                             1 <= calls <= 2 ->
               exists t' new,
                 trace w1 = trace w ++ t'
                 /\ sums = acc ++ new
                 /\ length new = length (chunk :: chunks)
                 /\ length (chunk :: chunks)
                    <= length (models_called t')
                    <= 2 * length (chunk :: chunks)
                 /\ forall j x,
                      nth_error (chunk :: chunks) j = Some x ->
                      exists model' c',
                        snd (chat_completion E (ChunkCall (i + j)) model' x
                               true) = Returned c'
                        /\ nth_error new j = Some (content_or c' [])
                        /\ (model' = MODELS_PRIMARY
                            \/ model' = MODELS_FALLBACK
                               /\ exists e,
                                    snd (chat_completion E
                                           (ChunkCall (i + j))
                                           MODELS_PRIMARY x true) = Thrown e
                                    /\ rate_limited e = true)).
    { intros model c Hanswer Hmodel Hgo calls Hcalls Hbound.
      destruct (IH _ _ _ _ _ _ Hgo)
        as (t' & new & Ht' & Hs & Hl & Hm & Heach).
      exists (t ++ t'), (content_or c [] :: new).
      split; [rewrite Ht', Ht, <- app_assoc; reflexivity|].
      split; [rewrite Hs, <- app_assoc; reflexivity|].
      split; [cbn [length]; rewrite Hl; reflexivity|].
      split.
      { rewrite models_called_app, length_app, Hcalls. cbn [length]. lia. }
      intros [|j] x Hx; cbn [nth_error] in Hx |- *.
      - injection Hx as <-. rewrite Nat.add_0_r.
        exists model, c. split; [exact Hanswer|].
        split; [reflexivity|exact Hmodel].
      - replace (i + S j) with (S i + j) by lia. apply Heach. exact Hx. }
    destruct (snd (chat_completion E (ChunkCall i) MODELS_PRIMARY chunk true))
      as [c|e] eqn:Hprimary.
    + destruct Hcases as [Hgo [Hm _]]. rewrite Hgo in Hrun.
      apply (Hnext MODELS_PRIMARY c Hprimary (or_introl eq_refl) Hrun 1);
        [rewrite Hm; reflexivity|lia].
    + destruct (rate_limited e) eqn:Hlimited.
      * destruct Hcases as [Hm [_ Hgo]]. rewrite Hgo in Hrun.
        destruct (snd (chat_completion E (ChunkCall i) MODELS_FALLBACK chunk
                         true)) as [c|e'] eqn:Hfallback;
          [|discriminate Hrun].
        apply (Hnext MODELS_FALLBACK c Hfallback) with (calls := 2);
          [|exact Hrun|rewrite Hm; reflexivity|lia].
        right. split; [reflexivity|]. exists e.
        split; [reflexivity|exact Hlimited].
      * destruct Hcases as [_ [_ Hgo]]. rewrite Hgo in Hrun.
        discriminate Hrun.
Qed.

(** X22: a transcript above the threshold that is summarized costs one
    call of the model for each of its [n] chunks, one more for each chunk
    whose call was rate limited, and one final call: between [n + 1] and
    [2 n + 1] calls.  There is one summary for each chunk, in the order
    of the chunks: the answer to the call for that chunk, of the primary
    model or, when that one is rate limited, of the fallback model (the
    empty text for an answer without content).  The final call is made
    with the primary model on the final prompt built from these
    summaries joined in that order, and the summary returned is its
    answer, or the placeholder when the answer is empty or missing. *)
Theorem long_transcript_costs_a_call_for_each_chunk_and_one
  (transcript : jsstring) (w w' : world) (result : summary_result) :
  CHUNK_THRESHOLD < length transcript ->
  summarizeTranscript E transcript onHeartbeat send w
  = (Returned result, w') ->
  let chunks := splitTranscriptIntoChunks transcript 8000 in
  let n := length chunks in
  exists t summaries answer,
    trace w' = trace w ++ t
    /\ length summaries = n
    /\ (forall i chunk,
          nth_error chunks i = Some chunk ->
          exists model c,
            snd (chat_completion E (ChunkCall i) model chunk true)
            = Returned c
            /\ nth_error summaries i = Some (content_or c [])
            /\ (model = MODELS_PRIMARY
                \/ model = MODELS_FALLBACK
                   /\ exists e,
                        snd (chat_completion E (ChunkCall i) MODELS_PRIMARY
                               chunk true) = Thrown e
                        /\ rate_limited e = true))
    /\ n + 1 <= length (models_called t) <= 2 * n + 1
    /\ last (models_called t) [] = MODELS_PRIMARY
    /\ snd (chat_completion E FinalCall MODELS_PRIMARY
              (finalPrompt (join summary_separator summaries)) false)
       = Returned answer
    /\ result = mkResult universal (content_or answer generation_failed).
Proof.
  intros Hlen Hrun chunks0 n. subst n chunks0.
  unfold summarizeTranscript in Hrun.
  apply Nat.ltb_lt in Hlen. rewrite Hlen in Hrun.
  unfold try_catch at 1 in Hrun. rewrite bind_run, send_run in Hrun.
  cbv zeta in Hrun. rewrite bind_run in Hrun.
  set (chunks := splitTranscriptIntoChunks transcript 8000) in *.
  destruct (summarize_chunks E onHeartbeat send chunks 0 (length chunks) []
              (grown w [Send (notice_event
                                (LongTranscript
                                   (round_thousands (length transcript))))]))
    as [[sums|e] w1] eqn:Hchunks; [|discriminate Hrun].
  destruct (summarize_chunks_costs _ _ _ _ _ _ _ Hchunks)
    as (t1 & new & Ht1 & Hsums & Hnew & Hcalls & Heach).
  cbn [app] in Hsums. subst new.
  rewrite bind_run, send_run, bind_run in Hrun.
  destruct (callModel_run E FinalCall MODELS_PRIMARY
              (finalPrompt (join summary_separator sums)) false
              (grown w1 [Send (notice_event Merging)]))
    as (t2 & w2 & Hcall & Ht2 & Hb2).
  rewrite Hcall in Hrun.
  destruct (snd (chat_completion E FinalCall MODELS_PRIMARY
                   (finalPrompt (join summary_separator sums)) false))
    as [answer|e] eqn:Hfinal; [|discriminate Hrun].
  cbn [ret] in Hrun. injection Hrun as <- <-.
  destruct (beats_silent t2 Hb2) as [Hm2 _].
  exists ([Send (notice_event
                   (LongTranscript (round_thousands (length transcript))))]
          ++ t1
          ++ [Send (notice_event Merging);
              CallModel MODELS_PRIMARY
                (finalPrompt (join summary_separator sums)) false]
          ++ t2), sums, answer.
  split.
  { rewrite Ht2. cbn [trace grown]. rewrite Ht1. cbn [trace grown].
    flatten_app. reflexivity. }
  split; [exact Hnew|].
  split; [exact Heach|].
  rewrite !models_called_app, Hm2.
  change (models_called
            [Send (notice_event
                     (LongTranscript (round_thousands (length transcript))))])
    with (@nil jsstring).
  change (models_called
            [Send (notice_event Merging);
             CallModel MODELS_PRIMARY
               (finalPrompt (join summary_separator sums)) false])
    with [MODELS_PRIMARY].
  cbn [app].
  split.
  { rewrite length_app. change (length [MODELS_PRIMARY]) with 1.
    clearbody chunks. lia. }
  split; [apply last_last|]. split; [exact Hfinal|reflexivity].
Qed.

(** When the chunk loop throws, the error is the answer to the last call
    it made: the call for some chunk, of the primary model right after
    the chunk was announced, or of the fallback model right after the
    switch was announced; only heartbeats follow that call. *)
Lemma summarize_chunks_throws (chunks : list jsstring) :
  forall i total acc w e w1,
    summarize_chunks E onHeartbeat send chunks i total acc w
    = (Thrown e, w1) ->
    exists j chunk model t0 t1 n,
      nth_error chunks j = Some chunk
      /\ trace w1
         = trace w ++ (t0 ++ [Send (notice_event n)])
           ++ CallModel model chunk true :: t1
      /\ Forall beat t1
      /\ snd (chat_completion E (ChunkCall (i + j)) model chunk true)
         = Thrown e
      /\ (n = AnalysingChunk (i + j + 1) total /\ model = MODELS_PRIMARY
          \/ n = FallbackChunk (i + j + 1) /\ model = MODELS_FALLBACK).
Proof.
  induction chunks as [|chunk chunks IH]; intros i total acc w e w1 Hrun;
    [discriminate Hrun|].
  cbn [summarize_chunks] in Hrun.
  rewrite bind_run, send_run, bind_run in Hrun.
  unfold try_catch at 1 in Hrun. rewrite bind_run in Hrun.
  destruct (callModel_run E (ChunkCall i) MODELS_PRIMARY chunk true
              (grown w [Send (notice_event (AnalysingChunk (i + 1) total))]))
    as (t1 & wa & Hrun1 & Ht1 & Hb1).
  rewrite Hrun1 in Hrun. cbn [trace grown] in Ht1.
  rewrite <- app_assoc in Ht1. cbn [app] in Ht1.
  assert (Hnext : forall c wb tb,
             trace wb = trace w ++ tb ->
             summarize_chunks E onHeartbeat send chunks (S i) total
               (acc ++ [content_or c []]) wb = (Thrown e, w1) ->
             exists j x model t0 t1' n,
               nth_error (chunk :: chunks) j = Some x
               /\ trace w1
                  = trace w ++ (t0 ++ [Send (notice_event n)])
                    ++ CallModel model x true :: t1'
               /\ Forall beat t1'
               /\ snd (chat_completion E (ChunkCall (i + j)) model x true)
                  = Thrown e
               /\ (n = AnalysingChunk (i + j + 1) total
                   /\ model = MODELS_PRIMARY
                   \/ n = FallbackChunk (i + j + 1)
                      /\ model = MODELS_FALLBACK)).
  { intros c wb tb Hwb Hgo.
    destruct (IH _ _ _ _ _ _ Hgo)
      as (j & x & model & t0 & t1' & n & Hx & Ht & Hb & He & Hn).
    exists (S j), x, model, (tb ++ t0), t1', n.
    split; [exact Hx|]. split.
    { rewrite Ht, Hwb. flatten_app. reflexivity. }
    split; [exact Hb|].
    replace (i + S j) with (S i + j) by lia.
    split; [exact He|exact Hn]. }
  destruct (snd (chat_completion E (ChunkCall i) MODELS_PRIMARY chunk true))
    as [c|e0] eqn:Hprimary.
  - cbn [ret] in Hrun. apply (Hnext c wa _ Ht1 Hrun).
  - destruct (rate_limited e0) eqn:Hlimited.
    + rewrite bind_run, send_run, bind_run in Hrun.
      destruct (callModel_run E (ChunkCall i) MODELS_FALLBACK chunk true
                  (grown wa [Send (notice_event (FallbackChunk (i + 1)))]))
        as (t2 & wb & Hrun2 & Ht2 & Hb2).
      rewrite Hrun2 in Hrun. cbn [trace grown] in Ht2. rewrite Ht1 in Ht2.
      rewrite <- !app_assoc in Ht2. cbn [app] in Ht2.
      destruct (snd (chat_completion E (ChunkCall i) MODELS_FALLBACK chunk
                       true)) as [c|e2] eqn:Hfallback.
      * cbn [ret] in Hrun. apply (Hnext c wb _ Ht2 Hrun).
      * cbn in Hrun. injection Hrun as <- <-.
        exists 0, chunk, MODELS_FALLBACK,
          ([Send (notice_event (AnalysingChunk (i + 1) total));
            CallModel MODELS_PRIMARY chunk true] ++ t1), t2,
          (FallbackChunk (i + 1)).
        split; [reflexivity|]. split.
        { rewrite Ht2. flatten_app. reflexivity. }
        split; [exact Hb2|]. rewrite !Nat.add_0_r.
        split; [exact Hfallback|right; split; reflexivity].
    + cbn in Hrun. injection Hrun as <- <-.
      exists 0, chunk, MODELS_PRIMARY, [], t1,
        (AnalysingChunk (i + 1) total).
      split; [reflexivity|]. split.
      { rewrite Ht1. flatten_app. reflexivity. }
      split; [exact Hb1|]. rewrite !Nat.add_0_r.
      split; [exact Hprimary|left; split; reflexivity].
Qed.

(** The error of the summarization, for the error that was caught. *)
Lemma summarization_error_message (e : js_error) :
  summarization_error e
  = new_Error
      match e_status e with
      | Some 429%Z =>
          quota_message
            match retry_after (e_message e) with
            | Some t => t
            | None => a_while
            end
      | _ => failure_message (e_message e)
      end.
Proof.
  unfold summarization_error.
  destruct (e_status e) as [[|p|p]|]; try reflexivity.
  do 9 (destruct p as [p|p|]; try reflexivity).
Qed.

(** X24: when the summarization fails, the error it caught is the answer
    to the last call of the model it made, after which only heartbeats
    were sent: the direct call of the primary or of the fallback model
    for a transcript within the threshold; otherwise the call for a
    chunk, of the primary model right after the chunk was announced or of
    the fallback model right after the switch was announced, or the
    final call, right after the merge was announced.  The error thrown is
    a new one, without status and without code: its message is the quota
    message when the error caught has the status 429, and the failure
    message around the message of the error caught otherwise.  An
    invalid key can then only be recognized in the stream by the text of
    that message. *)
Theorem summarization_errors_are_rewrapped (transcript : jsstring)
  (w : world) (e' : js_error) :
  let r := summarizeTranscript E transcript onHeartbeat send w in
  let chunks := splitTranscriptIntoChunks transcript 8000 in
  fst r = Thrown e' ->
  (exists e site model content isPartial t0 t1,
     trace (snd r)
     = trace w ++ t0 ++ CallModel model content isPartial :: t1
     /\ Forall beat t1
     /\ snd (chat_completion E site model content isPartial) = Thrown e
     /\ match site with
        | DirectCall =>
            length transcript <= CHUNK_THRESHOLD
            /\ content = transcript /\ isPartial = false
            /\ (model = MODELS_PRIMARY /\ t0 = []
                \/ model = MODELS_FALLBACK
                   /\ exists t00 delay,
                        t0 = t00
                             ++ [Send (notice_event (FallbackDirect delay))])
        | ChunkCall i =>
            CHUNK_THRESHOLD < length transcript
            /\ nth_error chunks i = Some content /\ isPartial = true
            /\ exists t00 n,
                 t0 = t00 ++ [Send (notice_event n)]
                 /\ (n = AnalysingChunk (i + 1) (length chunks)
                     /\ model = MODELS_PRIMARY
                     \/ n = FallbackChunk (i + 1)
                        /\ model = MODELS_FALLBACK)
        | FinalCall =>
            CHUNK_THRESHOLD < length transcript
            /\ model = MODELS_PRIMARY /\ isPartial = false
            /\ exists t00, t0 = t00 ++ [Send (notice_event Merging)]
        end
     /\ e' = new_Error
               match e_status e with
               | Some 429%Z =>
                   quota_message
                     match retry_after (e_message e) with
                     | Some t => t
                     | None => a_while
                     end
               | _ => failure_message (e_message e)
               end)
  /\ e_status e' = None /\ e_code e' = None /\ e_cause_code e' = None
  /\ stream_error_message e'
     = if includes (e_message e') (lit "401")
          || includes (e_message e') (lit "invalid_api_key")
       then invalid_key_message
       else e_message e'.
Proof.
  cbv zeta. intros Hthrown.
  assert (Hcaught :
            exists e site model content isPartial t0 t1,
              trace (snd (summarizeTranscript E transcript onHeartbeat send
                            w))
              = trace w ++ t0 ++ CallModel model content isPartial :: t1
              /\ Forall beat t1
              /\ snd (chat_completion E site model content isPartial)
                 = Thrown e
              /\ match site with
                 | DirectCall =>
                     length transcript <= CHUNK_THRESHOLD
                     /\ content = transcript /\ isPartial = false
                     /\ (model = MODELS_PRIMARY /\ t0 = []
                         \/ model = MODELS_FALLBACK
                            /\ exists t00 delay,
                                 t0 = t00
                                      ++ [Send (notice_event
                                                  (FallbackDirect delay))])
                 | ChunkCall i =>
                     CHUNK_THRESHOLD < length transcript
                     /\ nth_error (splitTranscriptIntoChunks transcript 8000)
                          i = Some content
                     /\ isPartial = true
                     /\ exists t00 n,
                          t0 = t00 ++ [Send (notice_event n)]
                          /\ (n = AnalysingChunk (i + 1)
                                    (length (splitTranscriptIntoChunks
                                               transcript 8000))
                              /\ model = MODELS_PRIMARY
                              \/ n = FallbackChunk (i + 1)
                                 /\ model = MODELS_FALLBACK)
                 | FinalCall =>
                     CHUNK_THRESHOLD < length transcript
                     /\ model = MODELS_PRIMARY /\ isPartial = false
                     /\ exists t00,
                          t0 = t00 ++ [Send (notice_event Merging)]
                 end
              /\ e' = summarization_error e).
  { remember (summarizeTranscript E transcript onHeartbeat send w) as r
      eqn:Hr.
    unfold summarizeTranscript in Hr.
    destruct (CHUNK_THRESHOLD <? length transcript) eqn:Hlen.
    - (* the chunked path *)
      apply Nat.ltb_lt in Hlen.
      unfold try_catch at 1 in Hr. rewrite bind_run, send_run in Hr.
      cbv zeta in Hr. rewrite bind_run in Hr.
      set (chunks := splitTranscriptIntoChunks transcript 8000) in *.
      set (w0 := grown w [Send (notice_event
                                  (LongTranscript
                                     (round_thousands (length transcript))))])
        in *.
      destruct (summarize_chunks E onHeartbeat send chunks 0 (length chunks)
                  [] w0) as [[sums|e] w1] eqn:Hchunks.
      + rewrite bind_run, send_run, bind_run in Hr.
        destruct (callModel_run E FinalCall MODELS_PRIMARY
                    (finalPrompt (join summary_separator sums)) false
                    (grown w1 [Send (notice_event Merging)]))
          as (t2 & w2 & Hcall & Ht2 & Hb2).
        rewrite Hcall in Hr.
        destruct (snd (chat_completion E FinalCall MODELS_PRIMARY
                         (finalPrompt (join summary_separator sums)) false))
          as [answer|e] eqn:Hfinal; subst r; [discriminate Hthrown|].
        cbn [fst snd throw] in Hthrown |- *. injection Hthrown as <-.
        destruct (summarize_chunks_costs _ _ _ _ _ _ _ Hchunks)
          as (t1 & new & Ht1 & _).
        exists e, FinalCall, MODELS_PRIMARY,
          (finalPrompt (join summary_separator sums)), false,
          (([Send (notice_event
                     (LongTranscript (round_thousands (length transcript))))]
            ++ t1) ++ [Send (notice_event Merging)]), t2.
        split.
        { rewrite Ht2. cbn [trace grown]. rewrite Ht1.
          unfold w0. cbn [trace grown]. flatten_app. reflexivity. }
        split; [exact Hb2|]. split; [exact Hfinal|].
        split; [|reflexivity].
        split; [exact Hlen|]. split; [reflexivity|]. split; [reflexivity|].
        eexists. reflexivity.
      + subst r. cbn [fst snd throw] in Hthrown |- *.
        injection Hthrown as <-.
        destruct (summarize_chunks_throws _ _ _ _ _ _ _ Hchunks)
          as (j & chunk & model & t0 & t1 & n & Hj & Ht & Hb & He & Hn).
        cbn [Nat.add] in He, Hn.
        exists e, (ChunkCall j), model, chunk, true,
          ([Send (notice_event
                    (LongTranscript (round_thousands (length transcript))))]
           ++ t0 ++ [Send (notice_event n)]), t1.
        split.
        { rewrite Ht. unfold w0. cbn [trace grown]. flatten_app.
          reflexivity. }
        split; [exact Hb|]. split; [exact He|]. split; [|reflexivity].
        split; [exact Hlen|]. split; [exact Hj|]. split; [reflexivity|].
        exists ([Send (notice_event
                         (LongTranscript
                            (round_thousands (length transcript))))] ++ t0),
          n.
        split; [flatten_app; reflexivity|exact Hn].
    - (* the direct path *)
      apply Nat.ltb_ge in Hlen.
      unfold try_catch at 1 in Hr. rewrite bind_run in Hr.
      unfold try_catch at 1 in Hr.
      destruct (callModel_run E DirectCall MODELS_PRIMARY transcript false w)
        as (t1 & w1 & Hrun1 & Ht1 & Hb1).
      rewrite Hrun1 in Hr.
      destruct (snd (chat_completion E DirectCall MODELS_PRIMARY transcript
                       false)) as [c|e] eqn:Hprimary;
        [subst r; discriminate Hthrown|].
      destruct (rate_limited e) eqn:Hlimited.
      + rewrite bind_run, send_run in Hr.
        match type of Hr with
        | context [callModel E onHeartbeat DirectCall MODELS_FALLBACK
                     transcript false ?w0] =>
            destruct (callModel_run E DirectCall MODELS_FALLBACK transcript
                        false w0) as (t2 & w2 & Hrun2 & Ht2 & Hb2)
        end.
        rewrite Hrun2 in Hr.
        destruct (snd (chat_completion E DirectCall MODELS_FALLBACK
                         transcript false)) as [c|e2] eqn:Hfallback;
          subst r; [discriminate Hthrown|].
        cbn [fst snd throw] in Hthrown |- *. injection Hthrown as <-.
        exists e2, DirectCall, MODELS_FALLBACK, transcript, false,
          ((CallModel MODELS_PRIMARY transcript false :: t1)
           ++ [Send (notice_event
                       (FallbackDirect
                          match retry_after (e_message e) with
                          | Some t => t
                          | None => some_time
                          end))]), t2.
        split.
        { rewrite Ht2. cbn [trace grown]. rewrite Ht1.
          rewrite <- !app_assoc. reflexivity. }
        split; [exact Hb2|]. split; [exact Hfallback|].
        split; [|reflexivity].
        split; [exact Hlen|]. split; [reflexivity|]. split; [reflexivity|].
        right. split; [reflexivity|].
        eexists. eexists. reflexivity.
      + subst r. cbn [fst snd throw] in Hthrown |- *.
        injection Hthrown as <-.
        exists e, DirectCall, MODELS_PRIMARY, transcript, false, [], t1.
        split; [exact Ht1|]. split; [exact Hb1|]. split; [exact Hprimary|].
        split; [|reflexivity].
        split; [exact Hlen|]. split; [reflexivity|]. split; [reflexivity|].
        left. split; reflexivity. }
  destruct Hcaught
    as (e & site & model & content & isPartial & t0 & t1 & Ht & Hb & He
        & Hsite & He').
  rewrite summarization_error_message in He'.
  split.
  { exists e, site, model, content, isPartial, t0, t1.
    repeat (split; [assumption|]). exact He'. }
  rewrite He'. cbn [new_Error e_status e_code e_cause_code e_message].
  split; [reflexivity|]. split; [reflexivity|]. split; [reflexivity|].
  unfold stream_error_message.
  cbn [new_Error e_status e_message]. rewrite orb_false_r. reflexivity.
Qed.

End ChunkedSummary.

Lemma long_transcript_costs_a_call_for_each_chunk_and_one_witness :
  let run := summarizeTranscript minute_env long_transcript onHeartbeat send
               initial_world in
  CHUNK_THRESHOLD < length long_transcript
  /\ fst run = Returned (mkResult universal (lit "# Episode"))
  /\ exists t summaries,
       trace (snd run) = trace initial_world ++ t
       /\ length summaries
          = length (splitTranscriptIntoChunks long_transcript 8000)
       /\ (forall i chunk,
             nth_error (splitTranscriptIntoChunks long_transcript 8000) i
             = Some chunk ->
             nth_error summaries i = Some (lit "# Episode"))
       /\ length (splitTranscriptIntoChunks long_transcript 8000) + 1
          <= length (models_called t)
          <= 2 * length (splitTranscriptIntoChunks long_transcript 8000) + 1.
Proof.
  cbv zeta.
  assert (H : CHUNK_THRESHOLD < length long_transcript)
    by (apply Nat.ltb_lt; vm_compute; reflexivity).
  split; [exact H|]. split; [vm_compute; reflexivity|].
  destruct (long_transcript_costs_a_call_for_each_chunk_and_one minute_env
              long_transcript initial_world
              (snd (summarizeTranscript minute_env long_transcript
                      onHeartbeat send initial_world))
              (mkResult universal (lit "# Episode")) H)
    as (t & summaries & answer & Ht & Hn & Heach & Hcalls & _).
  { vm_compute. reflexivity. }
  exists t, summaries. split; [exact Ht|]. split; [exact Hn|].
  split; [|exact Hcalls].
  intros i chunk Hi. destruct (Heach i chunk Hi) as (model & c & Hc & Hs & _).
  rewrite Hs. cbn in Hc. injection Hc as <-. reflexivity.
Defined.

Lemma summarization_errors_are_rewrapped_witness :
  let e' := new_Error (failure_message (lit "500 Internal Server Error")) in
  fst (summarizeTranscript failing_model_env (lit "hello") onHeartbeat send
         initial_world)
  = Thrown e'
  /\ e_status e' = None
  /\ stream_error_message e' = e_message e'.
Proof.
  cbv zeta.
  assert (H : fst (summarizeTranscript failing_model_env (lit "hello")
                     onHeartbeat send initial_world)
              = Thrown (new_Error
                          (failure_message (lit "500 Internal Server Error"))))
    by (vm_compute; reflexivity).
  split; [exact H|].
  pose proof (summarization_errors_are_rewrapped failing_model_env
                (lit "hello") initial_world _ H) as [_ [Hs [_ [_ Hm]]]].
  split; [exact Hs|]. rewrite Hm. vm_compute. reflexivity.
Defined.
